(** * bcCaptioner: the overlay function (functions/overlay.js)

    A shallow embedding of the caption overlay handler: text wrapping
    ([wrapText]), label box geometry, the in-memory image cache and the
    request handler with its error paths, followed by the properties the
    specification states about them. *)

From Stdlib Require Import ZArith QArith Qround Qabs Lqa Ascii String List Lia.
From stdpp Require Import base option list sorting strings pretty gmap.
Close Scope Q_scope.

(** ** JavaScript numbers

    Text widths are IEEE doubles.  They are modelled as exact rationals plus
    [NaN]; every comparison with [NaN] is false, as in JavaScript.
    Comparisons, [Math.max], [Math.ceil] and [Math.abs] of doubles are exact;
    the one subtraction of two widths (line 49) is rounded to the nearest
    double, as it is in JavaScript.  Where the source has an infinity
    ([bestBalance = Infinity], a difference that overflows, and [Math.max()]
    of no arguments) it is modelled with [option]. *)

Inductive jsnum : Type :=
  | NaN
  | Num (q : Q).

Definition isNaN (x : jsnum) : bool :=
  match x with NaN => true | Num _ => false end.

Definition Qlt_bool (a b : Q) : bool := negb (Qle_bool b a).

(** [x < y] *)
Definition js_lt (x y : jsnum) : bool :=
  match x, y with
  | Num a, Num b => Qlt_bool a b
  | _, _ => false
  end.

(** [x <= y] *)
Definition js_le (x y : jsnum) : bool :=
  match x, y with
  | Num a, Num b => Qle_bool a b
  | _, _ => false
  end.

(** *** Rounding to a double

    The binary64 format: a significand of 53 bits, exponents of the unit in
    the last place from [-1074] (the subnormal numbers) to [971]. *)

(** [2 ^ e] *)
Definition pow2 (e : Z) : Q := Qpower 2%Q e.

(** The integer part of the binary logarithm of a positive rational. *)
Definition ilog2 (q : Q) : Z :=
  let k := (Z.log2 (Qnum q) - Z.log2 (Zpos (Qden q)))%Z in
  if Qle_bool (pow2 k) q then k else (k - 1)%Z.

(** The nearest integer, the even one of the two when they are equally
    near. *)
Definition round_even (q : Q) : Z :=
  let f := Qfloor q in
  match (q - inject_Z f ?= 1 # 2)%Q with
  | Lt => f
  | Gt => (f + 1)%Z
  | Eq => if Z.even f then f else (f + 1)%Z
  end.

(** The double nearest to a rational, ties to the even significand;
    [None] when the rounded value is beyond the greatest double, which
    gives an infinity. *)
Definition double (q : Q) : option Q :=
  if Qeq_bool q 0 then Some 0%Q
  else
    let a := Qabs q in
    let e := Z.max (ilog2 a - 52) (-1074) in
    let r := (inject_Z (round_even (a / pow2 e)) * pow2 e)%Q in
    if Qle_bool (pow2 1024) r then None
    else Some (Qred (if Qle_bool 0 q then r else (- r)%Q)).

(** [x - y] on two widths: the exact difference rounded to a double.
    [None] stands for an infinity of either sign; the code only takes its
    absolute value. *)
Definition js_sub (x y : jsnum) : option jsnum :=
  match x, y with
  | Num a, Num b => Num <$> double (a - b)
  | _, _ => Some NaN
  end.

(** [Math.abs(x)]; [None] stands for [Infinity]. *)
Definition Math_abs (x : option jsnum) : option jsnum :=
  match x with
  | Some (Num a) => Some (Num (Qabs a))
  | Some NaN => Some NaN
  | None => None
  end.

(** [Math.max(x, y)]: [NaN] as soon as one argument is. *)
Definition js_max (x y : jsnum) : jsnum :=
  match x, y with
  | Num a, Num b => if Qle_bool a b then Num b else Num a
  | _, _ => NaN
  end.

(** [Math.max(...ws)]; [None] stands for [-Infinity], its value when there
    is no argument. *)
Fixpoint Math_max (ws : list jsnum) : option jsnum :=
  match ws with
  | [] => None
  | w :: ws' =>
      match Math_max ws' with
      | None => Some w
      | Some m => Some (js_max w m)
      end
  end.

(** [balance < bestBalance], where [None] stands for [Infinity]. *)
Definition lt_best (balance bestBalance : option jsnum) : bool :=
  match balance, bestBalance with
  | None, _ => false
  | Some x, None => negb (isNaN x)
  | Some x, Some b => js_lt x b
  end.

(** [Math.round] on a half-integer [n / 2]: ties go up. *)
Definition round_half (n : Z) : Z := ((n + 1) / 2)%Z.

(** ** Strings

    A JavaScript string is a sequence of code units; [string] stands for
    it.  The code looks at its characters only to find the spaces and to
    count them. *)

Definition space : ascii := " "%char.

(** [s.split(' ')] *)
Fixpoint split (s : string) : list string :=
  match s with
  | EmptyString => [EmptyString]
  | String c s' =>
      if Ascii.eqb c space then EmptyString :: split s'
      else
        match split s' with
        | w :: ws => String c w :: ws
        | [] => [String c EmptyString]
        end
  end.

(** [ws.join(' ')] *)
Fixpoint join (ws : list string) : string :=
  match ws with
  | [] => ""
  | [w] => w
  | w :: ws' => w +:+ " " +:+ join ws'
  end.

(** [a || d] on a possibly undefined string: the empty string is falsy. *)
Definition js_or (a : option string) (d : string) : string :=
  match a with
  | Some s => if String.eqb s "" then d else s
  | None => d
  end.

(** Truthiness of a possibly undefined string. *)
Definition truthy (a : option string) : bool :=
  match a with
  | Some s => negb (String.eqb s "")
  | None => false
  end.

(** [hay.includes(needle)] *)
Definition includes (needle hay : string) : bool :=
  match index 0 needle hay with
  | Some _ => true
  | None => false
  end.

(** The word sequence of a text: the maximal runs of characters that are
    not white space. *)
Definition is_white (c : ascii) : bool :=
  let n := nat_of_ascii c in
  (n =? 32) || (n =? 9) || (n =? 10) || (n =? 11) || (n =? 12) || (n =? 13).

Fixpoint tokens_aux (cur : string) (s : string) : list string :=
  match s with
  | EmptyString => if String.eqb cur "" then [] else [cur]
  | String c s' =>
      if is_white c
      then (if String.eqb cur "" then tokens_aux "" s' else cur :: tokens_aux "" s')
      else tokens_aux (cur +:+ String c "") s'
  end.

Definition word_sequence (s : string) : list string := tokens_aux "" s.

(** ** Exceptions

    A thrown JavaScript [Error] carries a message.  Code that can throw
    returns a [result]; [x ← m; k] propagates a throw. *)

Record error : Type := Error { message : string }.

Inductive result (A : Type) : Type :=
  | Ok (a : A)
  | Throw (e : error).
Arguments Ok {A} a.
Arguments Throw {A} e.

#[global] Instance result_ret : MRet result := fun A a => Ok a.
#[global] Instance result_bind : MBind result :=
  fun A B f m => match m with Ok a => f a | Throw e => Throw e end.

(** ** Text layout: [wrapText]

    The metrics provider [context.measureText(s).width] is a parameter: a
    call either throws or yields a width. *)

Definition metrics : Type := string -> result jsnum.

(** Lines 13-23: the measurement of the whole text is usable when it does
    not throw, is not below 10 and is not [NaN]. *)
Definition canMeasure (context : metrics) (text : string) : bool :=
  match context text with
  | Ok testWidth => negb (js_lt testWidth (Num 10) || isNaN testWidth)
  | Throw _ => false
  end.

(** [words.slice(0, i).join(' ')] and [words.slice(i).join(' ')] *)
Definition firstLine (words : list string) (i : nat) : string := join (take i words).
Definition secondLine (words : list string) (i : nat) : string := join (drop i words).

(** Both halves of the split at [i] measure at most [maxWidth] (lines 47
    and 61-62). *)
Definition bothFit (context : metrics) (maxWidth : jsnum) (words : list string) (i : nat)
  : result bool :=
  firstWidth ← context (firstLine words i);
  secondWidth ← context (secondLine words i);
  Ok (js_le firstWidth maxWidth && js_le secondWidth maxWidth).

Record best : Type := Best { bestSplit : nat; bestBalance : option jsnum }.

(** Body of the loop of lines 39-55. *)
Definition balance_step (context : metrics) (maxWidth : jsnum) (words : list string)
    (st : result best) (i : nat) : result best :=
  b ← st;
  firstWidth ← context (firstLine words i);
  secondWidth ← context (secondLine words i);
  if js_le firstWidth maxWidth && js_le secondWidth maxWidth then
    let balance := Math_abs (js_sub firstWidth secondWidth) in
    if lt_best balance (bestBalance b)
    then Ok (Best i balance)
    else Ok b
  else Ok b.

(** The split points the loop visits:
    [Math.max(1, midPoint - 2) .. Math.min(words.length - 1, midPoint + 2)]. *)
Definition candidates (n : nat) : list nat :=
  let midPoint := (n / 2)%nat in
  let lo := Nat.max 1 (midPoint - 2) in
  let hi := Nat.min (n - 1) (midPoint + 2) in
  seq lo (S hi - lo).

(** Lines 36-55: [bestSplit] starts at the midpoint, [bestBalance] at
    [Infinity]. *)
Definition balanced_search (context : metrics) (maxWidth : jsnum) (words : list string)
  : result best :=
  foldl (balance_step context maxWidth words)
        (Ok (Best (length words / 2) None))
        (candidates (length words)).

(** Body of the greedy loop of lines 88-97; the state is
    [(lines, currentLine)]. *)
Definition greedy_step (context : metrics) (maxWidth : jsnum)
    (st : result (list string * string)) (word : string)
  : result (list string * string) :=
  '(lines, currentLine) ← st;
  width ← context (currentLine +:+ " " +:+ word);
  if js_lt width maxWidth
  then Ok (lines, currentLine +:+ " " +:+ word)
  else Ok (lines ++ [currentLine], word).

(** Lines 85-99. *)
Definition greedy (context : metrics) (maxWidth : jsnum) (words : list string)
  : result (list string) :=
  '(lines, currentLine) ←
     foldl (greedy_step context maxWidth)
           (Ok ([], js_or (words !! 0%nat) "")) (drop 1 words);
  Ok (lines ++ [currentLine]).

(** The split at the word-count midpoint (lines 68-71 and 77-81). *)
Definition midpoint_split (words : list string) : list string :=
  let midPoint := (length words / 2)%nat in
  [firstLine words midPoint; secondLine words midPoint].

(** Lines 31-73.  [Ok None] means that the block falls through. *)
Definition two_line_split (context : metrics) (maxWidth : jsnum) (words : list string)
    (can : bool) : result (option (list string)) :=
  if (4 <=? length words)%nat then
    if can then
      b ← balanced_search context maxWidth words;
      ok ← bothFit context maxWidth words (bestSplit b);
      if (ok : bool)
      then Ok (Some [firstLine words (bestSplit b); secondLine words (bestSplit b)])
      else Ok None
    else Ok (Some (midpoint_split words))
  else Ok None.

(** Lines 9-100.  A [Throw] is an exception leaving [wrapText]. *)
Definition wrapText (context : metrics) (text : string) (maxWidth : jsnum)
  : result (list string) :=
  let words := split text in
  let can := canMeasure context text in
  oneLine ← (if can then w ← context text; Ok (js_le w maxWidth) else Ok false);
  if (oneLine : bool) then Ok [text]
  else
    two ← two_line_split context maxWidth words can;
    match two with
    | Some lines => Ok lines
    | None =>
        if negb can && (2 <=? length words)%nat
        then Ok (midpoint_split words)
        else greedy context maxWidth words
    end.

(** The provider answers every call it gets. *)
Definition responsive (context : metrics) : Prop := ∀ s, ∃ w, context s = Ok w.

(** The measurement of the whole text is degraded: it fails, is below the
    floor of 10, or is not a number. *)
Definition degraded_text (context : metrics) (text : string) : Prop :=
  match context text with
  | Ok w => js_lt w (Num 10) = true ∨ isNaN w = true
  | Throw _ => True
  end.


(** The split at [i] fits: both of its lines measure at most [maxWidth]. *)
Definition fits (context : metrics) (maxWidth : jsnum) (words : list string) (i : nat)
  : Prop :=
  bothFit context maxWidth words i = Ok true.

(** [d] is the exact absolute difference of the widths of the two lines of
    the split at [i]. *)
Definition imbalance_is (context : metrics) (words : list string) (i : nat) (d : Q)
  : Prop :=
  ∃ a b, context (firstLine words i) = Ok (Num a)
         ∧ context (secondLine words i) = Ok (Num b)
         ∧ d = Qabs (a - b).

(** [d] is the balance the code computes for the split at [i], the double
    [Math.abs(firstWidth - secondWidth)] of line 49, when it is finite. *)
Definition balance_is (context : metrics) (words : list string) (i : nat) (d : Q)
  : Prop :=
  ∃ a b, context (firstLine words i) = Ok (Num a)
         ∧ context (secondLine words i) = Ok (Num b)
         ∧ Math_abs (js_sub (Num a) (Num b)) = Some (Num d).

(** What the search loop maintains once it has visited the split points
    [visited]: either none of them fits with a finite balance and the loop
    variables are untouched, or [bestSplit] is a visited split that fits,
    none of the visited ones that fit has a smaller balance, and those
    before it have a greater one. *)
Definition search_inv (context : metrics) (maxWidth : jsnum) (words : list string)
    (visited : list nat) (b : best) : Prop :=
  (bestBalance b = None ∧ bestSplit b = (length words / 2)%nat
   ∧ ∀ j d, j ∈ visited → fits context maxWidth words j →
            ¬ balance_is context words j d)
  ∨ (∃ d, bestBalance b = Some (Num d)
          ∧ bestSplit b ∈ visited
          ∧ fits context maxWidth words (bestSplit b)
          ∧ balance_is context words (bestSplit b) d
          ∧ ∀ j d', j ∈ visited → fits context maxWidth words j →
                    balance_is context words j d' →
                    (d <= d')%Q ∧ ((j < bestSplit b)%nat → (d < d')%Q)).

(** The adjacent groups of [groups] were closed because the next word did
    not fit: a group extended by the first word of the group after it does
    not measure below [maxWidth]. *)
Fixpoint closed_when_full (context : metrics) (maxWidth : jsnum)
    (groups : list (list string)) : Prop :=
  match groups with
  | g :: ((g' :: _) as rest) =>
      (∃ width, context (join g +:+ " " +:+ hd "" g') = Ok width
                ∧ js_lt width maxWidth = false)
      ∧ closed_when_full context maxWidth rest
  | _ => True
  end.

(** A group was extended only while it fitted: each of its prefixes of two
    words or more measures below [maxWidth]. *)
Definition extended_while_fits (context : metrics) (maxWidth : jsnum) (g : list string)
  : Prop :=
  ∀ k, (2 <= k <= length g)%nat →
       ∃ width, context (join (take k g)) = Ok width ∧ js_lt width maxWidth = true.

(** [lines] is the greedy wrapping of [words] (lines 85-99): the words in
    order, cut into consecutive groups that are not empty and joined with
    single spaces, where a line takes the next word exactly as long as the
    line with that word measures below [maxWidth]. *)
Definition greedy_lines (context : metrics) (maxWidth : jsnum) (words lines : list string)
  : Prop :=
  ∃ groups : list (list string),
    concat groups = words
    ∧ Forall (fun g => g ≠ []) groups
    ∧ lines = join <$> groups
    ∧ Forall (extended_while_fits context maxWidth) groups
    ∧ closed_when_full context maxWidth groups.

(** ** Label box geometry (lines 167-227) *)

Definition outputWidth : Z := 1200.
Definition outputHeight : Z := 628.
Definition fontSize : Z := 30.
(** Line 172: text height matches font size. *)
Definition textHeight : Z := fontSize.
Definition padding : Z := 10.
Definition overlayPixelShiftUp : Z := 13.
Definition lineSpacing : Z := 2.
(** Line 193. *)
Definition maxTextWidth : Z := (outputWidth - 100)%Z.
(** Line 208. *)
Definition maxBoxWidth : Z := (outputWidth - 20)%Z.

(** [lines.map(line => measureContext.measureText(line).width)] *)
Fixpoint measure_all (context : metrics) (lines : list string) : result (list jsnum) :=
  match lines with
  | [] => Ok []
  | line :: rest =>
      w ← context line;
      ws ← measure_all context rest;
      Ok (w :: ws)
  end.

(** Line 202: [lines.reduce((a, b) => a.length > b.length ? a : b, '')] *)
Definition longestLine (lines : list string) : string :=
  foldl (fun a b => if (String.length b <? String.length a)%nat then a else b) "" lines.

(** Line 203: [longestLine.length * (fontSize * 0.6)].  The double
    [30 * 0.6] is exactly [18], and so is the rational. *)
Definition estimatedWidth (lines : list string) : Q :=
  (inject_Z (Z.of_nat (String.length (longestLine lines))) * (inject_Z fontSize * (6 # 10)))%Q.

(** Line 200: [longestLineWidth < 10 || isNaN(longestLineWidth)];
    [-Infinity] is below 10. *)
Definition degraded (longest : option jsnum) : bool :=
  match longest with
  | None => true
  | Some w => js_lt w (Num 10) || isNaN w
  end.

(** Lines 197-205: the width of the longest line after the fallback.  A
    width that is not degraded is a number. *)
Definition longestLineWidth (context : metrics) (lines : list string) : result Q :=
  ws ← measure_all context lines;
  let longest := Math_max ws in
  if degraded longest then Ok (estimatedWidth lines)
  else
    match longest with
    | Some (Num q) => Ok q
    | _ => Ok (estimatedWidth lines)
    end.

Record LabelBox : Type := Box {
  boxWidth : Z;
  boxHeight : Z;
  boxLeft : Z;
  boxTop : Z
}.

(** Line 209. *)
Definition calculatedBoxWidth (longest : Q) : Z := (Qceiling longest + padding * 2)%Z.

(** Line 216. *)
Definition totalTextHeight (lineCount : nat) : Z :=
  (textHeight * Z.of_nat lineCount + lineSpacing * Z.max 0 (Z.of_nat lineCount - 1))%Z.

(** Lines 207-227, for a vertical shift [shiftUp]; every quantity is an
    integer, so the only rounding that matters is that of the half in
    [boxLeft]. *)
Definition computeBox (longest : Q) (lineCount : nat) (shiftUp : Z) : LabelBox :=
  let width := Z.min (calculatedBoxWidth longest) maxBoxWidth in
  let height := (totalTextHeight lineCount + padding * 2)%Z in
  let left := round_half (outputWidth - width) in
  let top := (outputHeight - height - shiftUp)%Z in
  Box width height
      (Z.max 0 (Z.min left (outputWidth - width)))
      (Z.max 0 (Z.min top (outputHeight - height))).

(** The box of a caption: wrap, measure, size and place. *)
Definition captionBox (context : metrics) (caption : string) (shiftUp : Z)
  : result (list string * LabelBox) :=
  lines ← wrapText context caption (Num (inject_Z maxTextWidth));
  longest ← longestLineWidth context lines;
  Ok (lines, computeBox longest (length lines) shiftUp).

(** ** The image cache (lines 104-130 and 332-352)

    [global.imageCache] is a [Map]: keys are unique and [entries()] lists
    them in insertion order, which the stable [sort] of line 348 preserves
    among equal timestamps.  It is modelled as an association list. *)

Definition Buffer : Type := list Byte.byte.

Record CacheEntry : Type := Entry {
  buffer : Buffer;
  timestamp : Z;
  caption : string
}.

Definition imageCache : Type := list (string * CacheEntry).

(** [cache.get(id)] *)
Fixpoint cache_get (id : string) (cache : imageCache) : option CacheEntry :=
  match cache with
  | [] => None
  | (k, e) :: rest => if String.eqb id k then Some e else cache_get id rest
  end.

(** [cache.set(id, e)]: an existing key keeps its place. *)
Fixpoint cache_set (id : string) (e : CacheEntry) (cache : imageCache) : imageCache :=
  match cache with
  | [] => [(id, e)]
  | (k, e') :: rest =>
      if String.eqb id k then (k, e) :: rest else (k, e') :: cache_set id e rest
  end.

(** [cache.delete(id)] *)
Definition cache_delete (id : string) (cache : imageCache) : imageCache :=
  filter (fun kv => kv.1 ≠ id) cache.

(** Line 348: [entries.sort((a, b) => a[1].timestamp - b[1].timestamp)],
    a stable sort by ascending timestamp. *)
Fixpoint insert_by_timestamp (x : string * CacheEntry) (l : imageCache) : imageCache :=
  match l with
  | [] => [x]
  | y :: l' =>
      if (timestamp x.2 <=? timestamp y.2)%Z then x :: y :: l'
      else y :: insert_by_timestamp x l'
  end.

Definition sort_by_timestamp (l : imageCache) : imageCache :=
  foldr insert_by_timestamp [] l.

(** Lines 346-352: keep only the last 10. *)
Definition capacity : nat := 10.

Definition evict (cache : imageCache) : imageCache :=
  if (capacity <? length cache)%nat then
    let entries := sort_by_timestamp cache in
    foldl (fun c kv => cache_delete kv.1 c) cache (take (length entries - capacity) entries)
  else cache.

Section Cache.
(** [crypto.createHash('md5').update(b).digest('hex')] *)
Variable md5_hex : Buffer -> string.

(** Lines 333-335. *)
Definition imageId (now : Z) (outputBuffer : Buffer) : string :=
  pretty now +:+ "-" +:+ substring 0 8 (md5_hex outputBuffer).

(** Lines 333-352: [put] returns the id and the new cache. *)
Definition cache_put (now : Z) (outputBuffer : Buffer) (cap : string) (cache : imageCache)
  : string * imageCache :=
  let id := imageId now outputBuffer in
  (id, evict (cache_set id (Entry outputBuffer now cap) cache)).

(** The cache of a process after a sequence of puts, each with the time
    [Date.now()] gave it. *)
Definition cache_after (puts : list (Z * Buffer * string)) : imageCache :=
  foldl (fun c p => (cache_put p.1.1 p.1.2 p.2 c).2) [] puts.
End Cache.

(** ** The request handler (lines 102-387) *)

Record File : Type := MkFile {
  fieldname : string;
  content : option Buffer
}.

(** What [parser.parse(event)] yields: the files and the text fields read. *)
Record FormData : Type := MkForm {
  files : list File;
  form_caption : option string
}.

Record Event : Type := MkEvent {
  queryStringParameters : option (gmap string string);
  headers : option (gmap string string);
  body : option string
}.

(** The three shapes of a response body: [JSON.stringify] of an error
    object, of the success object, and the base64 image. *)
Inductive Body : Type :=
  | JsonError (error_kind : string) (error_message : option string)
  | JsonCreated (imageUrl image_id : string) (size : nat) (image_caption : string)
  | Base64Image (bytes : Buffer).

Record Response : Type := MkResponse {
  statusCode : Z;
  responseHeaders : list (string * string);
  responseBody : Body;
  isBase64Encoded : bool
}.

(** The libraries and the runtime the handler calls.  [measureText] is the
    context of lines 176-189, whose font is the registered one or, when the
    registration throws, the fallback.  [text_layer] stands for lines
    233-303: it draws the box and the lines on a canvas and, when the canvas
    throws, builds the SVG of the fallback, so it never throws.  The brand
    colour read at lines 146 and 151 is never used and is left out. *)
Record Env : Type := MkEnv {
  parser_parse : Event -> result FormData;
  base64_decode : string -> Buffer;
  sharp_metadata : Buffer -> result (Z * Z);
  measureText : metrics;
  text_layer : list string -> LabelBox -> Buffer;
  sharp_composite : Buffer -> Buffer -> Z -> Z -> result Buffer;
  Date_now : Z;
  md5 : Buffer -> string;
  process_env_URL : option string
}.

Definition json_header : list (string * string) := [("Content-Type", "application/json")].

(** Lines 104-130: a request for a cached image.  [None]: not such a
    request. *)
Definition serve_cached (event : Event) (cache : imageCache) : option Response :=
  let queryParams := default ∅ (queryStringParameters event) in
  match queryParams !! "serve", queryParams !! "id" with
  | Some serve, Some id =>
      if String.eqb serve "image" && negb (String.eqb id "") then
        match cache_get id cache with
        | None =>
            Some (MkResponse 404 json_header
                    (JsonError "Image not found or expired" None) false)
        | Some cachedImage =>
            Some (MkResponse 200
                    [("Content-Type", "image/jpeg");
                     ("Cache-Control", "public, max-age=3600");
                     ("Content-Length", pretty (length (buffer cachedImage)))]
                    (Base64Image (buffer cachedImage)) true)
        end
      else None
  | _, _ => None
  end.

(** [a || b] on two possibly undefined strings. *)
Definition js_or_undef (a b : option string) : option string :=
  if truthy a then a else b.

Definition dquote : string := String (ascii_of_nat 34) EmptyString.

(** The message of line 141. *)
Definition image_not_found : string :=
  "Image file not found in multipart form data. Please use field name "
  +:+ dquote +:+ "image" +:+ dquote +:+ " or " +:+ dquote +:+ "file" +:+ dquote +:+ ".".

(** Line 135: [event.headers['content-type'] || event.headers['Content-Type']] *)
Definition contentType (h : gmap string string) : option string :=
  js_or_undef (h !! "content-type") (h !! "Content-Type").

(** Line 136: [contentType && contentType.includes('multipart/form-data')] *)
Definition is_multipart (h : gmap string string) : bool :=
  truthy (contentType h) && includes "multipart/form-data" (default "" (contentType h)).

(** Line 138: the first file whose field name is [image] or [file]. *)
Definition find_image (form : FormData) : option File :=
  List.find (fun f => String.eqb (fieldname f) "image" || String.eqb (fieldname f) "file")
            (files form).

(** The message of the [TypeError] of [Buffer.from(undefined, 'base64')]. *)
Definition absent_body : string :=
  "The first argument must be of type string or an instance of Buffer, "
  +:+ "ArrayBuffer, or Array or an Array-like Object. Received undefined".

(** Lines 132-153: the image bytes (possibly undefined) and the caption.
    Reading a header of an event without headers, and [Buffer.from] of an
    absent body, throw a [TypeError]. *)
Definition read_request (env : Env) (event : Event) : result (option Buffer * string) :=
  match headers event with
  | None => Throw (Error "Cannot read properties of undefined (reading 'content-type')")
  | Some h =>
      if is_multipart h then
        form ← parser_parse env event;
        match find_image form with
        | None => Throw (Error image_not_found)
        | Some imageFile =>
            Ok (content imageFile, js_or (form_caption form) "Default Caption")
        end
      else
        let cap := js_or (h !! "x-caption") "Default Caption" in
        match body event with
        | None =>
            Throw (Error absent_body)
        | Some b => Ok (Some (base64_decode env b), cap)
        end
  end.

(** Line 156: [!imageBuffer || imageBuffer.length === 0] *)
Definition no_image_data (imageBuffer : option Buffer) : bool :=
  match imageBuffer with
  | None => true
  | Some b => (length b =? 0)%nat
  end.

(** Lines 309-328: the composite; its failure is thrown again with a
    prefixed message. *)
Definition composite (env : Env) (imageBuffer textBuffer : Buffer) (box : LabelBox)
  : result Buffer :=
  match sharp_composite env imageBuffer textBuffer (boxTop box) (boxLeft box) with
  | Ok outputBuffer => Ok outputBuffer
  | Throw compositeError =>
      Throw (Error ("Image processing failed: " +:+ message compositeError))
  end.

(** Lines 132-374: the body of the [try] after the cache lookup. *)
Definition render (env : Env) (event : Event) (cache : imageCache)
  : result (Response * imageCache) :=
  '(imageBuffer, cap) ← read_request env event;
  if no_image_data imageBuffer then
    Ok (MkResponse 400 [] (JsonError "No image data provided" None) false, cache)
  else
    let imageBuffer := default [] imageBuffer in
    metadata ← sharp_metadata env imageBuffer;
    '(lines, box) ← captionBox (measureText env) cap overlayPixelShiftUp;
    let textBuffer := text_layer env lines box in
    outputBuffer ← composite env imageBuffer textBuffer box;
    let '(id, cache') := cache_put (md5 env) (Date_now env) outputBuffer cap cache in
    let baseUrl := js_or (process_env_URL env) "https://bccaptioner.netlify.app" in
    let imageUrl := baseUrl +:+ "/.netlify/functions/overlay?serve=image&id=" +:+ id in
    Ok (MkResponse 200
          [("Content-Type", "application/json"); ("Cache-Control", "no-cache")]
          (JsonCreated imageUrl id (length outputBuffer) cap) false,
        cache').

(** Lines 376-386: the [catch]. *)
Definition error_response (err : error) : Response :=
  MkResponse 500 json_header (JsonError "Image processing failed" (Some (message err))) false.

(** Lines 102-387: the response and the cache the request leaves. *)
Definition handler (env : Env) (event : Event) (cache : imageCache)
  : Response * imageCache :=
  match serve_cached event cache with
  | Some response => (response, cache)
  | None =>
      match render env event cache with
      | Ok out => out
      | Throw err => (error_response err, cache)
      end
  end.

(** ** Sample inputs

    Two providers to run the code on: a fixed advance of [k] pixels per
    character, and a canvas whose measurement always fails. *)
Definition monospace (k : Z) : metrics :=
  fun s => Ok (Num (inject_Z (k * Z.of_nat (String.length s)))).

Definition unavailable : metrics :=
  fun _ => Throw (Error "measureText is not available").

Definition four_long_words : string :=
  "aaaaaaaaaaaaaaaaaaaa bbbbbbbbbbbbbbbbbbbb cccccccccccccccccccc dddddddddddddddddddd".

(** A provider whose widths are doubles and add up as those of a font do:
    ["a"] measures the double nearest to [157.1] and ["c d"] the next double
    above it, [2^-45] more.  The splits of ["a b c d"] after one and after
    two words have the same computed balance, the double nearest to [842.9],
    and different exact ones. *)
Definition tied_widths : metrics :=
  fun s =>
    Ok (Num (if String.eqb s "a" then (5527464855155507 # 35184372088832)%Q
             else if String.eqb s "b c d" then 1000%Q
             else if String.eqb s "a b" then 1000%Q
             else if String.eqb s "c d" then (1381866213788877 # 8796093022208)%Q
             else if String.eqb s "a b c" then 1090%Q
             else if String.eqb s "d" then 67%Q
             else 1160%Q)).

Definition twenty_long_words : string :=
  join (replicate 20 "aaaaaaaaaaaaaaaaaaaaaaaaaaaaaaaaaaaaaaaa").

(** ** Notions the statements use *)


(** [L] is the measured width of a widest line. *)
Definition widest_is (context : metrics) (lines : list string) (L : Q) : Prop :=
  (∃ line, line ∈ lines ∧ context line = Ok (Num L))
  ∧ ∀ line, line ∈ lines → ∃ q, context line = Ok (Num q) ∧ (q <= L)%Q.

(** The measurement of the lines is degraded: the greatest width is below
    10 or not a number. *)
Definition lines_degraded (context : metrics) (lines : list string) : Prop :=
  ∃ ws, measure_all context lines = Ok ws ∧ degraded (Math_max ws) = true.

(** [n] is the greatest character count of a line. *)
Definition longest_char_count (lines : list string) (n : nat) : Prop :=
  (∃ line, line ∈ lines ∧ String.length line = n)
  ∧ ∀ line, line ∈ lines → (String.length line <= n)%nat.

(** The order the entries are sorted in. *)
Definition older_or_same (x y : string * CacheEntry) : Prop :=
  (timestamp x.2 <= timestamp y.2)%Z.

(** What holds of the cache after the puts [puts]: its keys are distinct,
    it holds at most [capacity] entries, and every entry was put under its
    key at its time. *)
Definition cache_inv (md5_hex : Buffer -> string) (puts : list (Z * Buffer * string))
    (cache : imageCache) : Prop :=
  NoDup cache.*1
  ∧ (length cache <= capacity)%nat
  ∧ ∀ kv, kv ∈ cache →
          ∃ p, p ∈ puts ∧ kv.1 = imageId md5_hex p.1.1 p.1.2 ∧ timestamp kv.2 = p.1.1.

(** The entries the clean-up of lines 346-352 deletes. *)
Definition evicted (cache : imageCache) : imageCache :=
  if (capacity <? length cache)%nat then
    take (length (sort_by_timestamp cache) - capacity) (sort_by_timestamp cache)
  else [].

(** The request [?serve=image&id=...] for a cached image. *)
Definition get_request (id : string) : Event :=
  MkEvent (Some (<["id" := id]> {["serve" := "image"]})) None None.

(** A hash function and eleven puts at successive times, to run the cache
    on. *)
Definition constant_hash : Buffer -> string := fun _ => "d41d8cd98f00b204e9800998ecf8427e".

Definition eleven_puts : list (Z * Buffer * string) :=
  (fun t => (Z.of_nat t, [], "caption")) <$> seq 1 11.

(** Ten puts whose clock goes back, from time 11 down to time 2. *)
Definition backward_puts : list (Z * Buffer * string) :=
  (fun t => ((12 - Z.of_nat t)%Z, [], "caption")) <$> seq 1 10.

(** A sample environment: the parser finds a caption and no file, base64
    decoding is left abstract as one byte per character, and image
    processing succeeds. *)
Definition sample_env : Env :=
  MkEnv (fun _ => Ok (MkForm [] (Some "Only a caption")))
        (fun s => byte_of_ascii <$> list_ascii_of_string s)
        (fun _ => Ok (1200, 628)%Z)
        (monospace 15)
        (fun _ _ => [])
        (fun imageBuffer _ _ _ => Ok imageBuffer)
        1700000000000
        constant_hash
        None.





(** ** More of the layout code *)

(** The first [wrapText] of the repository (the overlay function before the
    balanced split: greedy wrapping alone), kept by the later one as its last
    resort. *)
Definition wrapText_greedy (context : metrics) (text : string) (maxWidth : jsnum)
  : result (list string) :=
  greedy context maxWidth (split text).

(** A line is within [maxWidth], or strictly below it. *)
Definition measures_le (context : metrics) (maxWidth : jsnum) (line : string) : Prop :=
  ∃ w, context line = Ok w ∧ js_le w maxWidth = true.

Definition measures_lt (context : metrics) (maxWidth : jsnum) (line : string) : Prop :=
  ∃ w, context line = Ok w ∧ js_lt w maxWidth = true.

(** [lines] are the words [words] cut into consecutive groups, none empty,
    each group joined with single spaces. *)
Definition grouped (words lines : list string) : Prop :=
  ∃ groups : list (list string),
    concat groups = words
    ∧ Forall (fun g => g ≠ []) groups
    ∧ lines = join <$> groups.

(** Lines 237-238: the canvas the box and the text are drawn on, which is
    the layer the composite puts at [(boxLeft, boxTop)]. *)
Definition textCanvasWidth (box : LabelBox) : Z := Z.min (boxWidth box + 20) outputWidth.
Definition textCanvasHeight (box : LabelBox) : Z := boxHeight box.

(** ** More of the cache *)

(** The entry a put makes, with its key. *)
Definition entry_of (md5_hex : Buffer -> string) (p : Z * Buffer * string)
  : string * CacheEntry :=
  (imageId md5_hex p.1.1 p.1.2, Entry p.1.2 p.1.1 p.2).

(** The cache a process is left with after it has served [requests], each
    in the environment it met, starting from [cache]. *)
Definition serve (requests : list (Env * Event)) (cache : imageCache) : imageCache :=
  foldl (fun c r => (handler r.1 r.2 c).2) cache requests.

(** Every character of a string satisfies a test. *)
Fixpoint string_forall (P : ascii -> bool) (s : string) : bool :=
  match s with
  | EmptyString => true
  | String c s' => P c && string_forall P s'
  end.

(** [\d] *)
Definition is_digit (c : ascii) : bool :=
  (48 <=? nat_of_ascii c)%nat && (nat_of_ascii c <=? 57)%nat.

(** [[a-f0-9]] *)
Definition is_hex (c : ascii) : bool :=
  is_digit c || ((97 <=? nat_of_ascii c)%nat && (nat_of_ascii c <=? 102)%nat).

(** The cache is sound: its keys are distinct and it holds at most
    [capacity] entries. *)
Definition cache_ok (cache : imageCache) : Prop :=
  NoDup cache.*1 ∧ (length cache <= capacity)%nat.

(** ** More string operations *)

(** [s.split(sep)] for a separator of one character. *)
Fixpoint split_on (sep : ascii) (s : string) : list string :=
  match s with
  | EmptyString => [EmptyString]
  | String c s' =>
      if Ascii.eqb c sep then EmptyString :: split_on sep s'
      else
        match split_on sep s' with
        | w :: ws => String c w :: ws
        | [] => [String c EmptyString]
        end
  end.

(** [s.startsWith(p)], with what follows the prefix. *)
Fixpoint strip_prefix (p s : string) : option string :=
  match p, s with
  | EmptyString, _ => Some s
  | String a p', String b s' => if Ascii.eqb a b then strip_prefix p' s' else None
  | String _ _, EmptyString => None
  end.

Definition starts_with (p s : string) : bool :=
  match strip_prefix p s with Some _ => true | None => false end.

(** [s.endsWith(q)] *)
Definition ends_with (q s : string) : bool :=
  (String.length q <=? String.length s)%nat
  && String.eqb (substring (String.length s - String.length q) (String.length q) s) q.

(** The longest prefix of characters that satisfy a test, and the rest. *)
Fixpoint span (P : ascii -> bool) (s : string) : string * string :=
  match s with
  | EmptyString => (EmptyString, EmptyString)
  | String c s' =>
      if P c then let '(a, b) := span P s' in (String c a, b)
      else (EmptyString, s)
  end.

(** ** Serving a temporary file (functions/serve-temp.js) *)

Module ServeTemp.

Record Event : Type := MkEvent { path : option string }.

(** [fs.access] and [fs.readFile] *)
Record Fs : Type := MkFs {
  access : string -> result unit;
  readFile : string -> result Buffer
}.

(** Line 9: [/^overlay-\d+-[a-f0-9]{8}\.jpg$/].  The digits are followed by
    a dash, so the run of digits the expression takes is the longest one. *)
Definition valid_name (filename : string) : bool :=
  match strip_prefix "overlay-" filename with
  | None => false
  | Some rest =>
      let '(digits, rest') := span is_digit rest in
      negb (String.eqb digits "")
      && match rest' with
         | String "-" tail =>
             (String.length tail =? 12)%nat
             && string_forall is_hex (substring 0 8 tail)
             && String.eqb (substring 8 4 tail) ".jpg"
         | _ => false
         end
  end.

Definition invalid : Response :=
  MkResponse 400 [] (JsonError "Invalid filename format" None) false.
Definition not_found : Response :=
  MkResponse 404 [] (JsonError "File not found or expired" None) false.
Definition failed : Response :=
  MkResponse 500 [] (JsonError "Failed to serve file" None) false.

(** Lines 4-49.  Reading [path] of an event that has none throws, which
    the [catch] of line 42 turns into the 500 response. *)
Definition handler (fs : Fs) (event : Event) : Response :=
  match path event with
  | None => failed
  | Some p =>
      let filename := List.last (split_on "/" p) "" in
      if String.eqb filename "" || negb (valid_name filename) then invalid
      else
        let tempPath := "/tmp/" +:+ filename in
        match access fs tempPath with
        | Throw _ => not_found
        | Ok _ =>
            match readFile fs tempPath with
            | Throw _ => failed
            | Ok imageBuffer =>
                MkResponse 200
                  [("Content-Type", "image/jpeg");
                   ("Cache-Control", "public, max-age=3600");
                   ("Content-Length", pretty (length imageBuffer))]
                  (Base64Image imageBuffer) true
            end
        end
  end.

End ServeTemp.

(** ** Storing a temporary file (the overlay function that writes to /tmp,
    lines 522-533 of its source)

    The files of [/tmp] are a map from path to content; [fs.writeFile]
    binds the path. *)

Section TempStore.
Variable md5_hex : Buffer -> string.

(** [`overlay-${timestamp}-${hash}.jpg`] *)
Definition temp_filename (now : Z) (outputBuffer : Buffer) : string :=
  "overlay-" +:+ imageId md5_hex now outputBuffer +:+ ".jpg".

(** The files after the write, and the path of the URL that is returned. *)
Definition temp_store (now : Z) (outputBuffer : Buffer) (files : gmap string Buffer)
  : string * gmap string Buffer :=
  let filename := temp_filename now outputBuffer in
  ("/.netlify/functions/serve-temp/" +:+ filename,
   <["/tmp/" +:+ filename := outputBuffer]> files).
End TempStore.

(** The file system calls of [serve-temp] on these files. *)
Definition fs_of (files : gmap string Buffer) : ServeTemp.Fs :=
  ServeTemp.MkFs
    (fun p => match files !! p with
              | Some _ => Ok ()
              | None => Throw (Error "ENOENT: no such file or directory")
              end)
    (fun p => match files !! p with
              | Some b => Ok b
              | None => Throw (Error "ENOENT: no such file or directory")
              end).


(** The paths [serve-temp] may read: [/tmp/overlay-<digits>-<8 hex>.jpg]. *)
Definition temp_path (p : string) : Prop :=
  ∃ ds hs, p = "/tmp/overlay-" +:+ ds +:+ "-" +:+ hs +:+ ".jpg"
           ∧ ds ≠ "" ∧ string_forall is_digit ds = true
           ∧ String.length hs = 8%nat ∧ string_forall is_hex hs = true.

(** A character other than the separator. *)
Definition is_not (sep c : ascii) : bool := negb (Ascii.eqb c sep).

(** A file system that holds one file. *)
Definition one_file (p : string) (b : Buffer) : ServeTemp.Fs := fs_of {[ p := b ]}.


(** ** Cleaning the temporary files (the scheduled clean-up function)

    The file system calls are parameters: [fs.readdir(dir)],
    [fs.stat(p).mtime.getTime()] and [fs.unlink(p)], each of which returns
    or throws.  The names [readdir] yields carry no separator, so
    [path.join('/tmp', file)] is [/tmp/] followed by the name. *)

Module Cleanup.

Record Fs : Type := MkFs {
  readdir : string -> result (list string);
  stat_mtime : string -> result Z;
  unlink : string -> result unit
}.

(** The JSON bodies of lines 39-44 and 52-56. *)
Inductive Body : Type :=
  | Success (report : string) (deletedCount totalCount : nat)
  | Failure (error_kind error_message : string).

Record Response : Type := MkResponse {
  statusCode : Z;
  responseHeaders : list (string * string);
  responseBody : Body
}.

(** Line 7 *)
Definition maxAge : Z := 24 * 60 * 60 * 1000.

(** Line 12: [file.startsWith('overlay-') && file.endsWith('.jpg')] *)
Definition overlay_file (file : string) : bool :=
  starts_with "overlay-" file && ends_with ".jpg" file.

(** Lines 18-31, the body of the loop: the count of deleted files and, in
    order, the paths whose [unlink] returned.  A throw of [stat] or of
    [unlink] is caught and the loop goes on. *)
Definition process (fs : Fs) (now : Z) (st : nat * list string) (file : string)
  : nat * list string :=
  let filePath := "/tmp/" +:+ file in
  match stat_mtime fs filePath with
  | Throw _ => st
  | Ok mtime =>
      let fileAge := (now - mtime)%Z in
      if (maxAge <? fileAge)%Z then
        match unlink fs filePath with
        | Throw _ => st
        | Ok _ => (S st.1, st.2 ++ [filePath])
        end
      else st
  end.

Definition report (deletedCount totalCount : nat) : string :=
  "Cleanup complete: " +:+ pretty deletedCount +:+ "/" +:+ pretty totalCount
  +:+ " files deleted".

(** Lines 4-59: the response and the paths that were unlinked. *)
Definition handler (fs : Fs) (now : Z) : Response * list string :=
  match readdir fs "/tmp" with
  | Throw err =>
      (MkResponse 500 json_header (Failure "Cleanup failed" (message err)), [])
  | Ok files =>
      let overlayFiles := filter (fun file => overlay_file file = true) files in
      let totalCount := length overlayFiles in
      let '(deletedCount, unlinked) := foldl (process fs now) (0%nat, []) overlayFiles in
      (MkResponse 200 json_header
         (Success (report deletedCount totalCount) deletedCount totalCount),
       unlinked)
  end.

(** The file is older than [maxAge] and both calls on it return. *)
Definition removable (fs : Fs) (now : Z) (file : string) : Prop :=
  ∃ mtime, stat_mtime fs ("/tmp/" +:+ file) = Ok mtime
           ∧ (maxAge < now - mtime)%Z
           ∧ unlink fs ("/tmp/" +:+ file) = Ok ().

End Cleanup.

(** A directory for the clean-up: every file has the same modification
    time and can be unlinked. *)
Definition dir_of (files : list string) (mtime : Z) : Cleanup.Fs :=
  Cleanup.MkFs (fun _ => Ok files) (fun _ => Ok mtime) (fun _ => Ok ()).

(** A directory that cannot be read. *)
Definition no_dir : Cleanup.Fs :=
  Cleanup.MkFs (fun _ => Throw (Error "ENOENT: no such file or directory, scandir '/tmp'"))
    (fun _ => Ok 0%Z) (fun _ => Ok ()).


(** ** Serving a stored image (functions/image.js, lines 1-114) *)

Module Image.

Record Event : Type := MkEvent {
  httpMethod : option string;
  queryStringParameters : option (gmap string string)
}.

(** A blob store: [store.list] returns or throws, [store.get(key)] throws,
    yields [null] or yields the content. *)
Record Store : Type := MkStore {
  list_blobs : result unit;
  get : string -> result (option Buffer)
}.

(** [process.env] and [getStore] of [@netlify/blobs], called with the site
    id and the token. *)
Record Env : Type := MkEnv {
  BLOB_SITE_ID : option string;
  NETLIFY_BLOBS_TOKEN : option string;
  getStore : string -> string -> result Store
}.

(** The bodies: the empty string, [JSON.stringify] of an object of string
    fields, and [buffer.toString('base64')]. *)
Inductive Body : Type :=
  | NoBody
  | Json (fields : list (string * string))
  | Base64 (bytes : Buffer).

Record Response : Type := MkResponse {
  statusCode : Z;
  responseHeaders : list (string * string);
  responseBody : Body;
  isBase64Encoded : bool
}.

(** [`${!!x}`] *)
Definition shown (b : bool) : string := if b then "true" else "false".

(** Lines 4-18 *)
Definition getBlobStore (env : Env) : result Store :=
  let siteID := BLOB_SITE_ID env in
  let token := NETLIFY_BLOBS_TOKEN env in
  if negb (truthy siteID) || negb (truthy token) then
    Throw (Error ("Blob storage not configured. BLOB_SITE_ID: " +:+ shown (truthy siteID)
                  +:+ ", BLOB_TOKEN: " +:+ shown (truthy token)))
  else getStore env (default "" siteID) (default "" token).

(** Lines 43-48: the id of the query, without a final [.jpg]. *)
Definition requested_id (event : Event) : option string :=
  let queryParams := default ∅ (queryStringParameters event) in
  let imageId := queryParams !! "id" in
  match imageId with
  | Some s =>
      if negb (String.eqb s "") && ends_with ".jpg" s
      then Some (substring 0 (String.length s - 4) s)
      else imageId
  | None => imageId
  end.

Definition preflight : Response :=
  MkResponse 200
    [("Access-Control-Allow-Origin", "*");
     ("Access-Control-Allow-Methods", "GET, HEAD, OPTIONS");
     ("Access-Control-Allow-Headers", "Content-Type");
     ("Access-Control-Max-Age", "86400")]
    NoBody false.

Definition missing_id : Response :=
  MkResponse 400 json_header
    (Json [("error", "Missing image ID. Expected: /images/:id.jpg")]) false.

Definition not_found (blobKey : string) : Response :=
  MkResponse 404 json_header (Json [("error", "Image not found"); ("key", blobKey)]) false.

Definition found (buffer : Buffer) : Response :=
  MkResponse 200
    [("Content-Type", "image/jpeg");
     ("Cache-Control", "public, max-age=31536000, immutable");
     ("Content-Length", pretty (length buffer));
     ("Access-Control-Allow-Origin", "*");
     ("Access-Control-Allow-Methods", "GET, HEAD, OPTIONS");
     ("Access-Control-Allow-Headers", "Content-Type")]
    (Base64 buffer) true.

Definition failed (err : error) : Response :=
  MkResponse 500 json_header
    (Json [("error", "Failed to serve image"); ("message", message err)]) false.

(** Lines 40-102, the body of the [try].  The listing of lines 66-71 is
    for the log only and its throw is caught. *)
Definition serve (env : Env) (event : Event) : result Response :=
  match requested_id event with
  | None => Ok missing_id
  | Some imageId =>
      if String.eqb imageId "" then Ok missing_id
      else
        store ← getBlobStore env;
        let blobKey := "overlays/" +:+ imageId +:+ ".jpg" in
        let _ := list_blobs store in
        imageData ← get store blobKey;
        match imageData with
        | None => Ok (not_found blobKey)
        | Some data => Ok (found data)
        end
  end.

(** Lines 25-114 *)
Definition handler (env : Env) (event : Event) : Response :=
  if bool_decide (httpMethod event = Some "OPTIONS") then preflight
  else
    match serve env event with
    | Ok response => response
    | Throw err => failed err
    end.

(** A request for an id. *)
Definition request (id : string) : Event :=
  MkEvent (Some "GET") (Some {[ "id" := id ]}).

End Image.

(** An environment whose store holds the given blobs. *)
Definition blobs_env (blobs : gmap string Buffer) : Image.Env :=
  Image.MkEnv (Some "site") (Some "token")
    (fun _ _ => Ok (Image.MkStore (Ok ()) (fun key => Ok (blobs !! key)))).

(** An environment without the configuration of the store. *)
Definition unconfigured : Image.Env :=
  Image.MkEnv None None
    (fun _ _ => Ok (Image.MkStore (Ok ()) (fun _ => Ok None))).


(** ** Drawing the text (lines 259-296)

    A JavaScript string is a sequence of UTF-16 code units, here numbers
    below 65536; the regular expressions of these lines have no [u] flag
    and work on code units. *)

Definition code_units (s : string) : list N := N_of_ascii <$> list_ascii_of_string s.

(** Lines 259 and 261: where line [index] is drawn, with
    [textBaseline = 'top'].  The product [index * fontSize * 1.2] is
    [36 * index] in doubles as in rationals for every index below 2000000. *)
Definition textTop : Z := (padding - 10)%Z.
Definition yPosition (index : nat) : Q :=
  inject_Z textTop + inject_Z (Z.of_nat index) * inject_Z fontSize * (12 # 10)
  + inject_Z fontSize.

(** [[\x00-\x08\x0B\x0C\x0E-\x1F\x7F]] *)
Definition control (c : N) : bool :=
  (c <=? 8)%N || (c =? 11)%N || (c =? 12)%N || ((14 <=? c)%N && (c <=? 31)%N)
  || (c =? 127)%N.

(** The class [[\x20-\x7E\u00A0-\uFFFF]], whose complement line 266 removes. *)
Definition printable (c : N) : bool :=
  ((32 <=? c)%N && (c <=? 126)%N) || ((160 <=? c)%N && (c <=? 65535)%N).

(** White space and line terminators, which [trim] removes. *)
Definition white_space (c : N) : bool :=
  ((9 <=? c)%N && (c <=? 13)%N) || (c =? 32)%N || (c =? 160)%N || (c =? 5760)%N
  || ((8192 <=? c)%N && (c <=? 8202)%N) || (c =? 8232)%N || (c =? 8233)%N
  || (c =? 8239)%N || (c =? 8287)%N || (c =? 12288)%N || (c =? 65279)%N.

(** [s.replace(/[class]/g, '')] *)
Definition remove_matches (class : N -> bool) (s : list N) : list N :=
  List.filter (fun c => negb (class c)) s.

Fixpoint drop_while (P : N -> bool) (s : list N) : list N :=
  match s with
  | [] => []
  | c :: s' => if P c then drop_while P s' else s
  end.

(** [s.trim()] *)
Definition trim (s : list N) : list N :=
  rev (drop_while white_space (rev (drop_while white_space s))).

(** Lines 264-268 *)
Definition cleanedLine (line : list N) : list N :=
  trim (remove_matches (fun c => negb (printable c)) (remove_matches control line)).

(** [s.replace(/c/g, by)]; no replacement of these lines holds a [$]. *)
Definition replace_all (c : N) (by_ : string) (s : list N) : list N :=
  flat_map (fun x => if (x =? c)%N then code_units by_ else [x]) s.

Definition amp : N := 38.
Definition lt : N := 60.
Definition gt : N := 62.
Definition quot : N := 34.
Definition apos : N := 39.

(** Lines 290-294 *)
Definition escape (s : list N) : list N :=
  replace_all apos "&#39;"
    (replace_all quot "&quot;"
       (replace_all gt "&gt;"
          (replace_all lt "&lt;"
             (replace_all amp "&amp;" s)))).

(** Lines 286-294: the line as it is put in the SVG of the fallback. *)
Definition svgLine (line : list N) : list N := escape (cleanedLine line).

(** The entity of a character. *)
Definition entity (c : N) : list N :=
  if (c =? amp)%N then code_units "&amp;"
  else if (c =? lt)%N then code_units "&lt;"
  else if (c =? gt)%N then code_units "&gt;"
  else if (c =? quot)%N then code_units "&quot;"
  else if (c =? apos)%N then code_units "&#39;"
  else [c].

(** A character that ends or opens markup in SVG text or attributes. *)
Definition markup (c : N) : bool :=
  (c =? lt)%N || (c =? gt)%N || (c =? quot)%N || (c =? apos)%N.

(** * Properties *)

(** ** Strings: [split] and [join] *)

Lemma append_nil_l (b : string) : "" +:+ b = b.
Proof. reflexivity. Qed.

Lemma append_cons (x : ascii) (a b : string) : String x a +:+ b = String x (a +:+ b).
Proof. reflexivity. Qed.

Lemma append_assoc (a b c : string) : (a +:+ b) +:+ c = a +:+ (b +:+ c).
Proof.
  induction a as [|x a IH]; [reflexivity|].
  rewrite !append_cons. now f_equal.
Qed.

Lemma split_nonempty (s : string) : split s ≠ [].
Proof.
  induction s as [|c s IH]; simpl; [discriminate|].
  destruct (Ascii.eqb c space); [discriminate|].
  destruct (split s); discriminate.
Qed.

Lemma split_length (s : string) : (1 <= length (split s))%nat.
Proof. pose proof (split_nonempty s). destruct (split s); simpl; [congruence | lia]. Qed.

Lemma join_cons (w : string) (ws : list string) :
  ws ≠ [] → join (w :: ws) = w +:+ " " +:+ join ws.
Proof. destruct ws; [congruence | reflexivity]. Qed.

(** Splitting at the spaces and joining with a space gives the text back. *)
Lemma join_split (s : string) : join (split s) = s.
Proof.
  induction s as [|c s IH]; [reflexivity|].
  pose proof (split_nonempty s) as Hne. simpl.
  destruct (Ascii.eqb c space) eqn:Hc.
  - apply Ascii.eqb_eq in Hc. subst c.
    rewrite join_cons by assumption. now rewrite IH.
  - destruct (split s) as [|w ws]; [congruence|].
    destruct ws as [|w' ws]; [simpl in *; now rewrite IH|].
    rewrite join_cons in * by discriminate.
    rewrite append_cons. now rewrite IH.
Qed.

Lemma join_app (l1 l2 : list string) :
  l1 ≠ [] → l2 ≠ [] → join (l1 ++ l2) = join l1 +:+ " " +:+ join l2.
Proof.
  induction l1 as [|w l1 IH]; intros H1 H2; [congruence|].
  destruct l1 as [|w' l1].
  - simpl app. now rewrite join_cons.
  - change ((w :: w' :: l1) ++ l2) with (w :: ((w' :: l1) ++ l2)).
    rewrite join_cons by discriminate.
    rewrite IH by (assumption || discriminate).
    rewrite (join_cons w (w' :: l1)) by discriminate.
    now rewrite !append_assoc.
Qed.

Lemma join_snoc (l : list string) (w : string) :
  l ≠ [] → join (l ++ [w]) = join l +:+ " " +:+ w.
Proof. intros H. now rewrite join_app. Qed.

(** The two halves of a split strictly inside the word list join back to
    the whole. *)
Lemma join_halves (words : list string) (i : nat) :
  (0 < i < length words)%nat →
  join [firstLine words i; secondLine words i] = join words.
Proof.
  intros [Hlo Hhi]. unfold firstLine, secondLine.
  rewrite <- (take_drop i words) at 3.
  rewrite join_app; [reflexivity | |].
  - intros E. apply (f_equal length) in E. rewrite length_take in E. simpl in E. lia.
  - intros E. apply (f_equal length) in E. rewrite length_drop in E. simpl in E. lia.
Qed.

Lemma midpoint_inside (n : nat) : (2 <= n)%nat → (0 < n / 2 < n)%nat.
Proof.
  intros H. split.
  - apply Nat.div_str_pos. lia.
  - apply Nat.div_lt; lia.
Qed.

Lemma join_midpoint_split (words : list string) :
  (2 <= length words)%nat → join (midpoint_split words) = join words.
Proof. intros H. apply join_halves, midpoint_inside, H. Qed.

Lemma js_or_head (words : list string) :
  js_or (words !! 0%nat) "" = hd "" words.
Proof.
  destruct words as [|w ws]; [reflexivity|]. simpl.
  destruct (String.eqb w "") eqn:E; [|reflexivity].
  apply String.eqb_eq in E. now subst.
Qed.

(** ** The greedy loop *)

Section Greedy.
Variable context : metrics.
Variable maxWidth : jsnum.

Lemma greedy_fold_throw (e : error) (rest : list string) :
  foldl (greedy_step context maxWidth) (Throw e) rest = Throw e.
Proof. induction rest as [|w rest IH]; [reflexivity | exact IH]. Qed.

(** The lines pushed so far and the current line always spell the words
    consumed so far. *)
Lemma greedy_fold_join (rest : list string) :
  ∀ lines cur lines' cur',
    foldl (greedy_step context maxWidth) (Ok (lines, cur)) rest = Ok (lines', cur') →
    join (lines' ++ [cur']) = join ((lines ++ [cur]) ++ rest).
Proof.
  induction rest as [|w rest IH]; intros lines cur lines' cur' H.
  - simpl in H. injection H as <- <-. now rewrite app_nil_r.
  - simpl in H.
    destruct (context (cur +:+ " " +:+ w)) as [width|e]; simpl in H.
    2:{ rewrite greedy_fold_throw in H. discriminate. }
    assert (Hstep : ∀ st, st = (lines, cur +:+ " " +:+ w) ∨ st = (lines ++ [cur], w) →
              join (st.1 ++ [st.2]) = join ((lines ++ [cur]) ++ [w])).
    { intros st [-> | ->]; simpl; [|reflexivity].
      rewrite (join_snoc (lines ++ [cur])) by (destruct lines; discriminate).
      destruct lines as [|l lines]; [reflexivity|].
      rewrite !join_snoc by discriminate. now rewrite !append_assoc. }
    destruct (js_lt width maxWidth).
    + apply IH in H. rewrite H.
      rewrite (cons_middle w (lines ++ [cur]) rest), app_assoc.
      destruct rest as [|r rest].
      * rewrite !app_nil_r. apply (Hstep (_, _)). now left.
      * rewrite !(join_app _ (r :: rest)) by (discriminate || (destruct lines; discriminate)).
        f_equal. apply (Hstep (_, _)). now left.
    + apply IH in H. rewrite H.
      now rewrite (cons_middle w (lines ++ [cur]) rest), app_assoc.
Qed.

Lemma greedy_fold_total (rest : list string) :
  (∀ s, ∃ w, context s = Ok w) →
  ∀ st, ∃ st', foldl (greedy_step context maxWidth) (Ok st) rest = Ok st'.
Proof.
  intros Hctx. induction rest as [|w rest IH]; intros [lines cur]; [now eexists|].
  simpl.
  destruct (Hctx (cur +:+ " " +:+ w)) as [width ->]. simpl.
  destruct (js_lt width maxWidth); apply IH.
Qed.

Lemma greedy_join (words lines : list string) :
  words ≠ [] → greedy context maxWidth words = Ok lines →
  lines ≠ [] ∧ join lines = join words.
Proof.
  intros Hne H. unfold greedy in H.
  destruct (foldl _ _ _) as [[ls cur]|e] eqn:E; simpl in H; [|discriminate].
  injection H as <-. split; [destruct ls; discriminate|].
  apply greedy_fold_join in E. rewrite E, js_or_head.
  destruct words as [|w ws]; [congruence|]. simpl. now rewrite drop_0.
Qed.

Lemma greedy_total (words : list string) :
  (∀ s, ∃ w, context s = Ok w) → ∃ lines, greedy context maxWidth words = Ok lines.
Proof.
  intros Hctx. unfold greedy.
  destruct (greedy_fold_total (drop 1 words) Hctx ([], js_or (words !! 0%nat) ""))
    as [[ls cur] ->].
  simpl. now eexists.
Qed.
End Greedy.

(** ** [wrapText] under degraded measurement *)

Lemma degraded_canMeasure (context : metrics) (text : string) :
  degraded_text context text ↔ canMeasure context text = false.
Proof.
  unfold degraded_text, canMeasure. destruct (context text) as [w|e]; [|tauto].
  rewrite negb_false_iff, orb_true_iff. tauto.
Qed.

Lemma two_line_split_degraded (context : metrics) (maxWidth : jsnum) (words : list string) :
  two_line_split context maxWidth words false =
  Ok (if (4 <=? length words)%nat then Some (midpoint_split words) else None).
Proof. unfold two_line_split. now destruct (4 <=? length words)%nat. Qed.

(** With a degraded measurement [wrapText] measures nothing more: it splits
    at the midpoint as soon as there are two words, and else returns the one
    word. *)
Lemma wrapText_degraded (context : metrics) (text : string) (maxWidth : jsnum) :
  canMeasure context text = false →
  wrapText context text maxWidth =
  Ok (if (2 <=? length (split text))%nat then midpoint_split (split text) else [text]).
Proof.
  intros Hcan. unfold wrapText. rewrite Hcan.
  rewrite two_line_split_degraded.
  destruct (4 <=? length (split text))%nat eqn:H4;
    destruct (2 <=? length (split text))%nat eqn:H2; try reflexivity.
  - apply Nat.leb_le in H4. apply Nat.leb_gt in H2. lia.
  - apply Nat.leb_gt in H2.
    pose proof (join_split text) as Hj. pose proof (split_length text) as H1.
    destruct (split text) as [|w [|w' ws]]; simpl in *; try lia.
    subst w. unfold greedy. simpl.
    destruct (String.eqb text "") eqn:E; [|reflexivity].
    apply String.eqb_eq in E. now subst.
Qed.

(** ** The balanced search *)

Lemma Qlt_bool_true (a b : Q) : Qlt_bool a b = true → (a < b)%Q.
Proof.
  unfold Qlt_bool. rewrite negb_true_iff. intros H.
  apply Qnot_le_lt. intros Hle. apply Qle_bool_iff in Hle. congruence.
Qed.

Lemma Qlt_bool_false (a b : Q) : Qlt_bool a b = false → (b <= a)%Q.
Proof. unfold Qlt_bool. rewrite negb_false_iff. apply Qle_bool_iff. Qed.

Lemma candidates_spec (n i : nat) :
  i ∈ candidates n ↔
  (1 <= i <= n - 1 ∧ n / 2 - 2 <= i <= n / 2 + 2)%nat.
Proof. unfold candidates. rewrite elem_of_seq. lia. Qed.

Lemma midpoint_candidate (n : nat) : (4 <= n)%nat → (n / 2)%nat ∈ candidates n.
Proof.
  intros H. apply candidates_spec.
  pose proof (midpoint_inside n ltac:(lia)). lia.
Qed.

Lemma candidates_inside (n i : nat) : (4 <= n)%nat → i ∈ candidates n → (0 < i < n)%nat.
Proof. intros H Hi. apply candidates_spec in Hi. lia. Qed.

Section Balanced.
Variable context : metrics.
Variable maxWidth : jsnum.
Variable words : list string.
Hypothesis Hresp : responsive context.

Lemma fits_widths (i : nat) :
  fits context maxWidth words i →
  ∃ a b, context (firstLine words i) = Ok (Num a)
         ∧ context (secondLine words i) = Ok (Num b).
Proof.
  unfold fits, bothFit. intros H.
  destruct (context (firstLine words i)) as [[|a]|e]; simpl in H; try discriminate;
    destruct (context (secondLine words i)) as [[|b]|e]; simpl in H; try discriminate.
  - rewrite andb_false_r in H. discriminate.
  - now exists a, b.
Qed.

Lemma bothFit_total (i : nat) : ∃ ok, bothFit context maxWidth words i = Ok ok.
Proof.
  unfold bothFit.
  destruct (Hresp (firstLine words i)) as [w1 ->].
  destruct (Hresp (secondLine words i)) as [w2 ->]. simpl. now eexists.
Qed.

Lemma balance_unique (i : nat) (d d' : Q) :
  balance_is context words i d → balance_is context words i d' → d = d'.
Proof.
  intros (a & b & Ha & Hb & Hd) (a' & b' & Ha' & Hb' & Hd'). congruence.
Qed.

(** One turn of the loop keeps the invariant; the split points come in
    increasing order. *)
Lemma balance_step_inv (visited : list nat) (b : best) (i : nat) :
  (∀ j, j ∈ visited → (j < i)%nat) →
  search_inv context maxWidth words visited b →
  ∃ b', balance_step context maxWidth words (Ok b) i = Ok b'
        ∧ search_inv context maxWidth words (visited ++ [i]) b'.
Proof.
  intros Hord Hinv. unfold balance_step. simpl.
  destruct (Hresp (firstLine words i)) as [w1 H1].
  destruct (Hresp (secondLine words i)) as [w2 H2].
  rewrite H1, H2. simpl.
  destruct (js_le w1 maxWidth && js_le w2 maxWidth) eqn:Hfit.
  - assert (Hfi : fits context maxWidth words i).
    { unfold fits, bothFit. rewrite H1, H2. simpl. now rewrite Hfit. }
    destruct (Math_abs (js_sub w1 w2)) as [[|di]|] eqn:Hbal.
    + (* the balance is not a number *)
      assert (Hno : ∀ d, ¬ balance_is context words i d).
      { intros d (a & c & Ha & Hc & Hd). congruence. }
      assert (Hlt : lt_best (Some NaN) (bestBalance b) = false)
        by now destruct (bestBalance b) as [[|x]|].
      rewrite Hlt. eexists. split; [reflexivity|].
      destruct Hinv as [(Hb & Hs & Hnone) | (d & Hb & Hin & Hfb & Hd & Hmin)].
      * left. repeat split; try assumption.
        intros j d Hj Hfj. apply elem_of_app in Hj as [Hj | Hj]; [now apply Hnone|].
        apply list_elem_of_singleton in Hj. subst j. apply Hno.
      * right. exists d. split; [assumption|]. split; [apply elem_of_app; now left|].
        split; [assumption|]. split; [assumption|].
        intros j d' Hj Hfj Hdj. apply elem_of_app in Hj as [Hj | Hj]; [now apply (Hmin j)|].
        apply list_elem_of_singleton in Hj. subst j. now destruct (Hno d').
    + (* a finite balance *)
      assert (Himb : balance_is context words i di).
      { destruct w1 as [|a]; [discriminate|].
        destruct w2 as [|c]; [simpl in Hfit; rewrite andb_false_r in Hfit; discriminate|].
        now exists a, c. }
      destruct Hinv as [(Hb & Hs & Hnone) | (d & Hb & Hin & Hfb & Hd & Hmin)].
      * rewrite Hb. cbn [lt_best isNaN negb]. eexists. split; [reflexivity|]. right.
        exists di. cbn [bestBalance bestSplit].
        split; [reflexivity|]. split; [apply elem_of_app; right; now apply list_elem_of_singleton|].
        split; [assumption|]. split; [assumption|].
        intros j d' Hj Hfj Hdj. apply elem_of_app in Hj as [Hj | Hj].
        -- now destruct (Hnone j d' Hj Hfj).
        -- apply list_elem_of_singleton in Hj. subst j.
           rewrite (balance_unique i _ _ Hdj Himb). split; [apply Qle_refl | lia].
      * rewrite Hb. cbn [lt_best js_lt]. destruct (Qlt_bool di d) eqn:Hlt.
        -- apply Qlt_bool_true in Hlt.
           eexists. split; [reflexivity|]. right.
           exists di. cbn [bestBalance bestSplit].
           split; [reflexivity|].
           split; [apply elem_of_app; right; now apply list_elem_of_singleton|].
           split; [assumption|]. split; [assumption|].
           intros j d' Hj Hfj Hdj. apply elem_of_app in Hj as [Hj | Hj].
           ++ destruct (Hmin j d' Hj Hfj Hdj) as [Hle _].
              split; [apply Qle_trans with d; [now apply Qlt_le_weak | assumption]|].
              intros _. now apply Qlt_le_trans with d.
           ++ apply list_elem_of_singleton in Hj. subst j.
              rewrite (balance_unique i _ _ Hdj Himb). split; [apply Qle_refl | lia].
        -- apply Qlt_bool_false in Hlt.
           eexists. split; [reflexivity|]. right.
           exists d. split; [assumption|]. split; [apply elem_of_app; now left|].
           split; [assumption|]. split; [assumption|].
           intros j d' Hj Hfj Hdj. apply elem_of_app in Hj as [Hj | Hj]; [now apply (Hmin j)|].
           apply list_elem_of_singleton in Hj. subst j.
           rewrite (balance_unique i _ _ Hdj Himb). split; [assumption|].
           intros Hlt'. apply Hord in Hin. lia.
    + (* the difference overflows: [Infinity] is below no balance *)
      assert (Hno : ∀ d, ¬ balance_is context words i d).
      { intros d (a & c & Ha & Hc & Hd). congruence. }
      cbn [lt_best]. eexists. split; [reflexivity|].
      destruct Hinv as [(Hb & Hs & Hnone) | (d & Hb & Hin & Hfb & Hd & Hmin)].
      * left. repeat split; try assumption.
        intros j d Hj Hfj. apply elem_of_app in Hj as [Hj | Hj]; [now apply Hnone|].
        apply list_elem_of_singleton in Hj. subst j. apply Hno.
      * right. exists d. split; [assumption|]. split; [apply elem_of_app; now left|].
        split; [assumption|]. split; [assumption|].
        intros j d' Hj Hfj Hdj. apply elem_of_app in Hj as [Hj | Hj]; [now apply (Hmin j)|].
        apply list_elem_of_singleton in Hj. subst j. now destruct (Hno d').
  - assert (Hfi : ¬ fits context maxWidth words i).
    { unfold fits, bothFit. rewrite H1, H2. simpl. rewrite Hfit. discriminate. }
    eexists. split; [reflexivity|].
    destruct Hinv as [(Hb & Hs & Hnone) | (d & Hb & Hin & Hfb & Hd & Hmin)].
    + left. repeat split; try assumption.
      intros j d Hj Hfj. apply elem_of_app in Hj as [Hj | Hj]; [now apply Hnone|].
      apply list_elem_of_singleton in Hj. now subst j.
    + right. exists d. split; [assumption|]. split; [apply elem_of_app; now left|].
      split; [assumption|]. split; [assumption|].
      intros j d' Hj Hfj Hdj. apply elem_of_app in Hj as [Hj | Hj]; [now apply (Hmin j)|].
      apply list_elem_of_singleton in Hj. now subst j.
Qed.

Lemma balanced_fold_inv (len : nat) :
  ∀ lo visited b,
    (∀ j, j ∈ visited → (j < lo)%nat) →
    search_inv context maxWidth words visited b →
    ∃ b', foldl (balance_step context maxWidth words) (Ok b) (seq lo len) = Ok b'
          ∧ search_inv context maxWidth words (visited ++ seq lo len) b'.
Proof.
  induction len as [|len IH]; intros lo visited b Hord Hinv.
  - exists b. simpl. now rewrite app_nil_r.
  - destruct (balance_step_inv visited b lo Hord Hinv) as (b1 & Hstep & Hinv1).
    destruct (IH (S lo) (visited ++ [lo]) b1) as (b' & Hfold & Hinv'); [|exact Hinv1|].
    { intros j Hj. apply elem_of_app in Hj as [Hj | Hj]; [apply Hord in Hj; lia|].
      apply list_elem_of_singleton in Hj. lia. }
    exists b'. split.
    + change (foldl (balance_step context maxWidth words)
                (balance_step context maxWidth words (Ok b) lo) (seq (S lo) len) = Ok b').
      now rewrite Hstep.
    + cbn [seq]. now rewrite (cons_middle lo visited (seq (S lo) len)), app_assoc.
Qed.

(** The search ends with the invariant over all the candidates. *)
Lemma balanced_search_inv :
  ∃ b, balanced_search context maxWidth words = Ok b
       ∧ search_inv context maxWidth words (candidates (length words)) b.
Proof.
  unfold balanced_search, candidates.
  destruct (balanced_fold_inv
              (S (Nat.min (length words - 1) (length words / 2 + 2))
               - Nat.max 1 (length words / 2 - 2))
              (Nat.max 1 (length words / 2 - 2)) []
              (Best (length words / 2) None))
    as (b & Hb & Hinv); [| |now exists b].
  - intros j Hj. now apply elem_of_nil in Hj.
  - left. simpl. repeat split. intros j d Hj. now apply elem_of_nil in Hj.
Qed.
End Balanced.

(** ** [wrapText] with reliable measurement *)

(** The outcome of [wrapText] when the whole text can be measured and the
    provider answers every call. *)
Lemma wrapText_reliable (context : metrics) (text : string) (maxWidth : jsnum) :
  responsive context →
  canMeasure context text = true →
  ∃ w, context text = Ok w ∧
    if js_le w maxWidth then wrapText context text maxWidth = Ok [text]
    else if (4 <=? length (split text))%nat then
      ∃ b, search_inv context maxWidth (split text) (candidates (length (split text))) b
           ∧ ((fits context maxWidth (split text) (bestSplit b)
               ∧ wrapText context text maxWidth =
                 Ok [firstLine (split text) (bestSplit b);
                     secondLine (split text) (bestSplit b)])
              ∨ (¬ fits context maxWidth (split text) (bestSplit b)
                 ∧ wrapText context text maxWidth = greedy context maxWidth (split text)))
    else wrapText context text maxWidth = greedy context maxWidth (split text).
Proof.
  intros Hresp Hcan. destruct (Hresp text) as [w Hw]. exists w. split; [assumption|].
  unfold wrapText. rewrite Hcan, Hw. cbn [mbind result_bind].
  destruct (js_le w maxWidth); [reflexivity|].
  unfold two_line_split.
  destruct (4 <=? length (split text))%nat; [|reflexivity].
  destruct (balanced_search_inv context maxWidth (split text) Hresp) as (b & Hb & Hinv).
  exists b. split; [assumption|]. rewrite Hb. cbn [mbind result_bind].
  destruct (bothFit_total context maxWidth (split text) Hresp (bestSplit b)) as [ok Hok].
  rewrite Hok. cbn [mbind result_bind]. destruct ok.
  - left. now split.
  - right. split; [|reflexivity]. unfold fits. rewrite Hok. discriminate.
Qed.

Lemma bestSplit_inside (context : metrics) (maxWidth : jsnum) (words : list string) (b : best) :
  (4 <= length words)%nat →
  search_inv context maxWidth words (candidates (length words)) b →
  (0 < bestSplit b < length words)%nat.
Proof.
  intros H4 [(_ & -> & _) | (d & _ & Hin & _)].
  - apply midpoint_inside. lia.
  - now apply candidates_inside.
Qed.

(** Whatever the provider does, the split the search ends with is the
    midpoint or one of the candidates. *)
Lemma balance_fold_throw (context : metrics) (maxWidth : jsnum) (words : list string)
    (e : error) (todo : list nat) :
  foldl (balance_step context maxWidth words) (Throw e) todo = Throw e.
Proof. induction todo as [|i todo IH]; [reflexivity | exact IH]. Qed.

Lemma balance_fold_split (context : metrics) (maxWidth : jsnum) (words : list string)
    (todo : list nat) :
  ∀ b b', foldl (balance_step context maxWidth words) (Ok b) todo = Ok b' →
          bestSplit b' = bestSplit b ∨ bestSplit b' ∈ todo.
Proof.
  induction todo as [|i todo IH]; intros b b' H.
  - simpl in H. injection H as <-. now left.
  - change (foldl (balance_step context maxWidth words)
              (balance_step context maxWidth words (Ok b) i) todo = Ok b') in H.
    destruct (balance_step context maxWidth words (Ok b) i) as [b1|e] eqn:Hstep.
    2:{ rewrite balance_fold_throw in H. discriminate. }
    assert (H1 : bestSplit b1 = bestSplit b ∨ bestSplit b1 = i).
    { unfold balance_step in Hstep. cbn [mbind result_bind] in Hstep.
      destruct (context (firstLine words i)) as [w1|]; [|discriminate].
      destruct (context (secondLine words i)) as [w2|]; [|discriminate].
      cbn [mbind result_bind] in Hstep.
      destruct (js_le w1 maxWidth && js_le w2 maxWidth); [|injection Hstep as <-; now left].
      destruct (lt_best _ _); injection Hstep as <-; [now right | now left]. }
    destruct (IH _ _ H) as [Hb | Hb].
    + destruct H1 as [H1 | H1]; rewrite Hb, H1; [now left | right; apply elem_of_cons; now left].
    + right. apply elem_of_cons. now right.
Qed.

Lemma balanced_search_split (context : metrics) (maxWidth : jsnum) (words : list string)
    (b : best) :
  (4 <= length words)%nat →
  balanced_search context maxWidth words = Ok b →
  (0 < bestSplit b < length words)%nat.
Proof.
  intros H4 H. apply balance_fold_split in H as [-> | Hin]; simpl.
  - apply midpoint_inside. lia.
  - now apply candidates_inside.
Qed.

(** Whenever [wrapText] returns, it returns at least one line and the lines
    joined with single spaces are the text. *)
Lemma wrapText_lines (context : metrics) (text : string) (maxWidth : jsnum)
    (lines : list string) :
  wrapText context text maxWidth = Ok lines → lines ≠ [] ∧ join lines = text.
Proof.
  destruct (canMeasure context text) eqn:Hcan.
  2:{ rewrite (wrapText_degraded _ _ _ Hcan).
      destruct (2 <=? length (split text))%nat eqn:H2; intros H; injection H as <-.
      - apply Nat.leb_le in H2. split; [discriminate|].
        rewrite join_midpoint_split by assumption. apply join_split.
      - split; [discriminate | reflexivity]. }
  unfold wrapText. rewrite Hcan.
  destruct (context text) as [w|e]; cbn [mbind result_bind]; [|discriminate].
  destruct (js_le w maxWidth).
  { intros H. injection H as <-. split; [discriminate | reflexivity]. }
  assert (Hgreedy : greedy context maxWidth (split text) = Ok lines →
                    lines ≠ [] ∧ join lines = text).
  { intros Hl. destruct (greedy_join _ _ _ _ (split_nonempty text) Hl) as [Hne Hj].
    split; [assumption|]. now rewrite Hj, join_split. }
  unfold two_line_split.
  destruct (4 <=? length (split text))%nat eqn:H4; cbn [mbind result_bind negb andb];
    [|exact Hgreedy].
  apply Nat.leb_le in H4.
  destruct (balanced_search context maxWidth (split text)) as [b|e] eqn:Hb;
    cbn [mbind result_bind]; [|discriminate].
  destruct (bothFit context maxWidth (split text) (bestSplit b)) as [[|]|e];
    cbn [mbind result_bind negb andb]; [| exact Hgreedy | discriminate].
  intros H. injection H as <-. split; [discriminate|].
  rewrite join_halves by (eapply balanced_search_split; eassumption).
  apply join_split.
Qed.

(** [wrapText] returns when the provider answers every call, and when the
    measurement of the text is degraded. *)
Lemma wrapText_total (context : metrics) (text : string) (maxWidth : jsnum) :
  responsive context ∨ degraded_text context text →
  ∃ lines, wrapText context text maxWidth = Ok lines.
Proof.
  intros Hctx. destruct (canMeasure context text) eqn:Hcan.
  - destruct Hctx as [Hresp | Hdeg].
    2:{ apply degraded_canMeasure in Hdeg. congruence. }
    pose proof (greedy_total context maxWidth (split text) Hresp) as Hgreedy.
    destruct (wrapText_reliable context text maxWidth Hresp Hcan) as (w & Hw & Hout).
    destruct (js_le w maxWidth); [rewrite Hout; now eexists|].
    destruct (4 <=? length (split text))%nat; [|now rewrite Hout].
    destruct Hout as (b & _ & [[_ ->] | [_ ->]]); [now eexists | assumption].
  - rewrite (wrapText_degraded _ _ _ Hcan). now eexists.
Qed.

(** C2: for every caption and every maximal width, [wrapText] returns at
    least one line, and the lines joined with single spaces are the caption
    itself, so that they have the caption's word sequence, nothing lost and
    nothing repeated.  The metrics provider either answers every measurement
    or fails to give a usable width for the caption, in which case nothing
    else is measured. *)
Theorem wrapText_keeps_words (context : metrics) (text : string) (maxWidth : jsnum) :
  responsive context ∨ degraded_text context text →
  ∃ lines, wrapText context text maxWidth = Ok lines
           ∧ (1 <= length lines)%nat
           ∧ join lines = text
           ∧ word_sequence (join lines) = word_sequence text.
Proof.
  intros Hctx. destruct (wrapText_total context text maxWidth Hctx) as [lines Hl].
  destruct (wrapText_lines _ _ _ _ Hl) as [Hne Hj].
  exists lines. repeat split; try assumption.
  - destruct lines; [congruence | simpl; lia].
  - now rewrite Hj.
Qed.

Lemma wrapText_keeps_words_witness :
  ∃ lines, wrapText (monospace 15) "Hello world" (Num (inject_Z maxTextWidth)) = Ok lines
           ∧ (1 <= length lines)%nat
           ∧ join lines = "Hello world"
           ∧ word_sequence (join lines) = word_sequence "Hello world".
Proof.
  apply (wrapText_keeps_words (monospace 15) "Hello world" (Num (inject_Z maxTextWidth))).
  left. intros s. eexists. reflexivity.
Defined.

(** An invariant rule for the loop of lines 88-97: a property of the pushed
    lines, the current line and the words consumed that both branches of the
    body keep holds when the loop ends. *)
Lemma greedy_fold_rule (context : metrics) (maxWidth : jsnum) (all : list string)
    (P : list string → string → list string → Prop) :
  (∀ lines cur seen word width,
     word ∈ all → P lines cur seen → context (cur +:+ " " +:+ word) = Ok width →
     js_lt width maxWidth = true →
     P lines (cur +:+ " " +:+ word) (seen ++ [word])) →
  (∀ lines cur seen word width,
     word ∈ all → P lines cur seen → context (cur +:+ " " +:+ word) = Ok width →
     js_lt width maxWidth = false →
     P (lines ++ [cur]) word (seen ++ [word])) →
  ∀ rest lines cur seen lines' cur',
    (∀ w, w ∈ rest → w ∈ all) →
    P lines cur seen →
    foldl (greedy_step context maxWidth) (Ok (lines, cur)) rest = Ok (lines', cur') →
    P lines' cur' (seen ++ rest).
Proof.
  intros Hjoin Hpush.
  induction rest as [|word rest IH]; intros lines cur seen lines' cur' Hall HP H.
  - simpl in H. injection H as <- <-. now rewrite app_nil_r.
  - simpl in H. rewrite (cons_middle word seen rest), app_assoc.
    assert (Hword : word ∈ all) by (apply Hall, elem_of_cons; now left).
    assert (Hrest : ∀ w, w ∈ rest → w ∈ all)
      by (intros w Hw; apply Hall, elem_of_cons; now right).
    destruct (context (cur +:+ " " +:+ word)) as [width|e] eqn:Hw; simpl in H.
    2:{ rewrite greedy_fold_throw in H. discriminate. }
    destruct (js_lt width maxWidth) eqn:Hlt; (eapply IH; [exact Hrest| |exact H]); eauto.
Qed.

(** What the loop returns, for a text with first word [w0] and further
    words [ws]. *)
Lemma greedy_cons (context : metrics) (maxWidth : jsnum) (w0 : string) (ws lines : list string) :
  greedy context maxWidth (w0 :: ws) = Ok lines →
  ∃ ls cur, foldl (greedy_step context maxWidth) (Ok ([], w0)) ws = Ok (ls, cur)
            ∧ lines = ls ++ [cur].
Proof.
  unfold greedy. rewrite js_or_head. simpl hd. simpl drop. rewrite drop_0. intros H.
  destruct (foldl _ _ _) as [[ls cur]|e]; simpl in H; [|discriminate].
  injection H as <-. now exists ls, cur.
Qed.

(** The rounding on doubles that are known: [0.3 - 0.1] is
    [0.19999999999999998]; [1000 - 157.1] and [1000 - 157.10000000000002] are
    the same double, nearest to [842.9]; a half of the least subnormal number is
    rounded to zero; and the least rational that is rounded to an infinity is
    [2^1024 - 2^970]. *)
Example double_samples :
  double ((5404319552844595 # 18014398509481984) - (3602879701896397 # 36028797018963968))
  = Some (7205759403792793 # 36028797018963968)%Q
  ∧ double (1000 - (5527464855155507 # 35184372088832))
    = Some (7414226808419123 # 8796093022208)%Q
  ∧ double (1000 - (1381866213788877 # 8796093022208))
    = Some (7414226808419123 # 8796093022208)%Q
  ∧ double (pow2 (-1075)) = Some 0%Q
  ∧ double (3 * pow2 (-1075)) = Some (Qred (pow2 (-1073)))
  ∧ double (pow2 1024 - pow2 970) = None
  ∧ double (pow2 1024 - pow2 970 - 1) = Some (Qred (pow2 1024 - pow2 971)).
Proof. vm_compute. repeat split. Qed.

(** The greedy loop takes the next word exactly as long as the line with
    that word measures below the maximal width. *)
Lemma closed_snoc (context : metrics) (maxWidth : jsnum) (groups : list (list string))
    (g g' : list string) (width : jsnum) :
  closed_when_full context maxWidth (groups ++ [g]) →
  context (join g +:+ " " +:+ hd "" g') = Ok width → js_lt width maxWidth = false →
  closed_when_full context maxWidth ((groups ++ [g]) ++ [g']).
Proof.
  intros H Hw Hlt. induction groups as [|h t IH].
  - simpl. split; [now exists width | exact I].
  - destruct t as [|x t']; simpl in *.
    + destruct H as [Hh _]. split; [exact Hh|]. split; [now exists width | exact I].
    + destruct H as [Hh Ht]. split; [exact Hh | now apply IH].
Qed.

Lemma closed_same_head (context : metrics) (maxWidth : jsnum) (groups : list (list string))
    (g g' : list string) :
  hd "" g' = hd "" g →
  closed_when_full context maxWidth (groups ++ [g]) →
  closed_when_full context maxWidth (groups ++ [g']).
Proof.
  intros Hhd H. induction groups as [|h t IH]; [exact I|].
  destruct t as [|x t']; simpl in *.
  - destruct H as [Hh _]. rewrite Hhd. now split.
  - destruct H as [Hh Ht]. split; [exact Hh | now apply IH].
Qed.

Lemma greedy_pinned (context : metrics) (maxWidth : jsnum) (words lines : list string) :
  words ≠ [] → greedy context maxWidth words = Ok lines →
  greedy_lines context maxWidth words lines.
Proof.
  intros Hne H. destruct words as [|w0 ws]; [congruence|].
  apply greedy_cons in H as (ls & cur & E & ->).
  apply (greedy_fold_rule context maxWidth (w0 :: ws)
           (fun lines cur seen =>
              ∃ groups g, concat groups ++ g = seen ∧ g ≠ []
                          ∧ Forall (fun g => g ≠ []) groups
                          ∧ lines = join <$> groups ∧ cur = join g
                          ∧ Forall (extended_while_fits context maxWidth) groups
                          ∧ extended_while_fits context maxWidth g
                          ∧ closed_when_full context maxWidth (groups ++ [g])))
    with (seen := [w0]) in E.
  - destruct E as (groups & g & Hcat & Hg & Hall & -> & -> & Hext & Hextg & Hclosed).
    exists (groups ++ [g]). split; [|split; [|split; [|split]]].
    + rewrite concat_app. simpl. now rewrite app_nil_r.
    + apply Forall_app. split; [assumption | now constructor].
    + now rewrite fmap_app.
    + apply Forall_app. split; [assumption | now constructor].
    + exact Hclosed.
  - intros lines cur0 seen word width _
           (groups & g & Hcat & Hg & Hall & -> & -> & Hext & Hextg & Hclosed) Hw Hlt.
    exists groups, (g ++ [word]).
    split; [now rewrite app_assoc, Hcat|]. split; [now destruct g|].
    split; [assumption|]. split; [reflexivity|]. split; [now rewrite join_snoc|].
    split; [assumption|]. split.
    + intros k [Hk2 Hk]. rewrite length_app in Hk. simpl in Hk.
      destruct (decide (k <= length g)%nat) as [Hle | Hgt].
      * rewrite take_app_le by assumption. apply Hextg. lia.
      * rewrite take_ge by (rewrite length_app; simpl; lia).
        rewrite join_snoc by assumption. now exists width.
    + apply (closed_same_head context maxWidth groups g); [now destruct g | assumption].
  - intros lines cur0 seen word width _
           (groups & g & Hcat & Hg & Hall & -> & -> & Hext & Hextg & Hclosed) Hw Hlt.
    exists (groups ++ [g]), [word].
    split; [rewrite concat_app; simpl; now rewrite app_nil_r, Hcat|].
    split; [discriminate|].
    split; [apply Forall_app; split; [assumption | now constructor]|].
    split; [now rewrite fmap_app|]. split; [reflexivity|].
    split; [apply Forall_app; split; [assumption | now constructor]|]. split.
    + intros k [Hk2 Hk]. simpl in Hk. lia.
    + now apply (closed_snoc context maxWidth groups g [word] width).
  - intros w Hw. apply elem_of_cons. now right.
  - exists [], [w0]. split; [reflexivity|]. split; [discriminate|].
    split; [constructor|]. split; [reflexivity|]. split; [reflexivity|].
    split; [constructor|]. split; [|exact I].
    intros k [Hk2 Hk]. simpl in Hk. lia.
Qed.

(** At most one list of lines is the greedy wrapping of the words. *)
Lemma greedy_group_maximal (context : metrics) (maxWidth : jsnum)
    (g1 g2 : list string) (r1 : list (list string)) (x : string) (y c : list string) :
  g1 ≠ [] → Forall (fun g => g ≠ []) r1 →
  closed_when_full context maxWidth (g1 :: r1) →
  extended_while_fits context maxWidth g2 →
  g2 = g1 ++ x :: y → concat r1 = (x :: y) ++ c → False.
Proof.
  intros Hg1 Hne Hclosed Hext -> Hcat.
  destruct r1 as [|g' r1']; [discriminate|].
  apply Forall_cons in Hne as [Hg' _].
  destruct g' as [|x' g'']; [congruence|].
  simpl in Hcat. injection Hcat as -> _.
  destruct Hclosed as [(width & Hw & Hlt) _]. simpl in Hw.
  destruct (Hext (S (length g1))) as (width' & Hw' & Hlt').
  { rewrite length_app. simpl. destruct g1; [congruence | simpl; lia]. }
  rewrite (cons_middle x g1 y), app_assoc in Hw'.
  replace (S (length g1)) with (length (g1 ++ [x])) in Hw'
    by (rewrite length_app; simpl; lia).
  rewrite take_app_length, join_snoc in Hw' by assumption. congruence.
Qed.

Lemma greedy_groups_unique (context : metrics) (maxWidth : jsnum) (groups1 : list (list string)) :
  ∀ groups2,
    concat groups1 = concat groups2 →
    Forall (fun g => g ≠ []) groups1 → Forall (fun g => g ≠ []) groups2 →
    Forall (extended_while_fits context maxWidth) groups1 →
    Forall (extended_while_fits context maxWidth) groups2 →
    closed_when_full context maxWidth groups1 →
    closed_when_full context maxWidth groups2 →
    groups1 = groups2.
Proof.
  induction groups1 as [|g1 r1 IH]; intros [|g2 r2] Hcat Hne1 Hne2 Hext1 Hext2 Hc1 Hc2.
  - reflexivity.
  - apply Forall_cons in Hne2 as [Hg2 _]. simpl in Hcat. symmetry in Hcat.
    apply app_eq_nil in Hcat as [-> _]. congruence.
  - apply Forall_cons in Hne1 as [Hg1 _]. simpl in Hcat.
    apply app_eq_nil in Hcat as [-> _]. congruence.
  - apply Forall_cons in Hne1 as [Hg1 Hne1], Hne2 as [Hg2 Hne2].
    apply Forall_cons in Hext1 as [He1 Hext1], Hext2 as [He2 Hext2].
    simpl in Hcat.
    assert (Ht1 : closed_when_full context maxWidth r1)
      by (destruct r1; [exact I | exact (proj2 Hc1)]).
    assert (Ht2 : closed_when_full context maxWidth r2)
      by (destruct r2; [exact I | exact (proj2 Hc2)]).
    apply app_eq_inv in Hcat as [(k & Hk1 & Hk2) | (k & Hk1 & Hk2)].
    + destruct k as [|x y].
      * rewrite app_nil_r in Hk1. simpl in Hk2. subst g2. f_equal. now apply IH.
      * destruct (greedy_group_maximal context maxWidth g2 g1 r2 x y (concat r1)
                    Hg2 Hne2 Hc2 He1 Hk1 Hk2).
    + destruct k as [|x y].
      * rewrite app_nil_r in Hk1. simpl in Hk2. subst g2. f_equal. now apply IH.
      * destruct (greedy_group_maximal context maxWidth g1 g2 r1 x y (concat r2)
                    Hg1 Hne1 Hc1 He2 Hk1 Hk2).
Qed.

Lemma greedy_lines_unique (context : metrics) (maxWidth : jsnum)
    (words lines lines' : list string) :
  greedy_lines context maxWidth words lines →
  greedy_lines context maxWidth words lines' →
  lines = lines'.
Proof.
  intros (g1 & Hcat1 & Hne1 & -> & Hext1 & Hc1) (g2 & Hcat2 & Hne2 & -> & Hext2 & Hc2).
  f_equal. apply (greedy_groups_unique context maxWidth); try assumption. congruence.
Qed.

(** C3: with reliable metrics, a caption of at least four words that is
    wider than the maximal width is split at one of the points within two
    words of the midpoint.  If some of these splits has both lines within
    the maximal width and a finite balance, the result is such a split with
    the least balance, the first of them in the order of the search; the
    balance is the one the code computes, the difference of the two widths
    rounded to a double, in absolute value.  If no split has both lines
    within the maximal width, the result is the greedy wrapping: the words in
    order, each line taking the next word exactly as long as the line with
    that word measures below the maximal width.  If splits fit but the
    balance of each is infinite, the result is the split at the midpoint when
    it fits and the greedy wrapping when it does not. *)
Theorem balanced_split_or_greedy (context : metrics) (text : string) (maxWidth w : jsnum) :
  responsive context →
  canMeasure context text = true →
  context text = Ok w →
  js_le w maxWidth = false →
  (4 <= length (split text))%nat →
  let words := split text in
  let n := length words in
  (∀ i, i ∈ candidates n ↔ (1 <= i <= n - 1 ∧ n / 2 - 2 <= i <= n / 2 + 2)%nat)
  ∧ ((∃ i d, i ∈ candidates n ∧ fits context maxWidth words i
             ∧ balance_is context words i d) →
     ∃ i d, i ∈ candidates n
            ∧ fits context maxWidth words i
            ∧ balance_is context words i d
            ∧ wrapText context text maxWidth = Ok [firstLine words i; secondLine words i]
            ∧ ∀ j d', j ∈ candidates n → fits context maxWidth words j →
                      balance_is context words j d' →
                      (d <= d')%Q ∧ ((j < i)%nat → (d < d')%Q))
  ∧ ((∀ i, i ∈ candidates n → ¬ fits context maxWidth words i) →
     ∃ lines, wrapText context text maxWidth = Ok lines
              ∧ greedy_lines context maxWidth words lines)
  ∧ ((∀ i d, i ∈ candidates n → fits context maxWidth words i →
             ¬ balance_is context words i d) →
     (fits context maxWidth words (n / 2) →
      wrapText context text maxWidth = Ok (midpoint_split words))
     ∧ (¬ fits context maxWidth words (n / 2) →
        ∃ lines, wrapText context text maxWidth = Ok lines
                 ∧ greedy_lines context maxWidth words lines)).
Proof.
  intros Hresp Hcan Hw Hwide H4 words n. split; [apply candidates_spec|].
  destruct (wrapText_reliable context text maxWidth Hresp Hcan) as (w' & Hw' & Hout).
  assert (w' = w) by congruence. subst w'. rewrite Hwide in Hout.
  apply Nat.leb_le in H4 as H4b. rewrite H4b in Hout.
  destruct Hout as (b & Hinv & Hout). fold words n in Hinv, Hout.
  assert (Hgreedy : wrapText context text maxWidth = greedy context maxWidth words →
            ∃ lines, wrapText context text maxWidth = Ok lines
                     ∧ greedy_lines context maxWidth words lines).
  { intros Hg. destruct (greedy_total context maxWidth words Hresp) as [lines Hl].
    exists lines. split; [now rewrite Hg|].
    now apply greedy_pinned; [apply split_nonempty|]. }
  destruct Hinv as [(Hb & Hs & Hnone) | (d & Hb & Hin & Hfb & Hd & Hmin)].
  - rewrite Hs in Hout. split; [|split].
    + intros (i & d & Hi & Hfi & Hdi). now destruct (Hnone i d Hi Hfi).
    + intros Hnofit. destruct Hout as [[Hf _] | [_ Hg]]; [|now apply Hgreedy].
      destruct (Hnofit (n / 2)%nat); [apply midpoint_candidate, H4 | exact Hf].
    + intros _. split.
      * intros Hf. destruct Hout as [[_ Hout] | [Hnf _]]; [exact Hout | contradiction].
      * intros Hnf. destruct Hout as [[Hf _] | [_ Hg]]; [contradiction | now apply Hgreedy].
  - destruct Hout as [[_ Hout] | [Hnf _]]; [|contradiction].
    split; [|split].
    + intros _. exists (bestSplit b), d. repeat split; try assumption; now apply (Hmin j).
    + intros Hnofit. now destruct (Hnofit _ Hin).
    + intros Hnone. now destruct (Hnone _ d Hin Hfb).
Qed.

Lemma balanced_split_or_greedy_witness :
  (∃ i d, i ∈ candidates 4
          ∧ fits (monospace 15) (Num 1100) (split four_long_words) i
          ∧ balance_is (monospace 15) (split four_long_words) i d
          ∧ wrapText (monospace 15) four_long_words (Num 1100) =
            Ok [firstLine (split four_long_words) i; secondLine (split four_long_words) i]
          ∧ ∀ j d', j ∈ candidates 4 →
                    fits (monospace 15) (Num 1100) (split four_long_words) j →
                    balance_is (monospace 15) (split four_long_words) j d' →
                    (d <= d')%Q ∧ ((j < i)%nat → (d < d')%Q))
  ∧ wrapText (monospace 10) "aa bb cccccc dd" (Num 55) = Ok ["aa bb"; "cccccc"; "dd"]
  ∧ greedy_lines (monospace 10) (Num 55) (split "aa bb cccccc dd") ["aa bb"; "cccccc"; "dd"].
Proof.
  split.
  - assert (Hresp : responsive (monospace 15)) by (intros s; eexists; reflexivity).
    assert (H4 : (4 <= length (split four_long_words))%nat) by (vm_compute; lia).
    destruct (balanced_split_or_greedy (monospace 15) four_long_words (Num 1100)
                (Num (inject_Z 1245)) Hresp eq_refl eq_refl eq_refl H4) as (_ & Hfit & _).
    apply Hfit. exists 2%nat, 0%Q. split; [|split].
    + apply candidates_spec. vm_compute. lia.
    + reflexivity.
    + eexists _, _. split; [reflexivity|]. split; [reflexivity|]. vm_compute. reflexivity.
  - assert (Hresp : responsive (monospace 10)) by (intros s; eexists; reflexivity).
    assert (H4 : (4 <= length (split "aa bb cccccc dd"))%nat) by (vm_compute; lia).
    destruct (balanced_split_or_greedy (monospace 10) "aa bb cccccc dd" (Num 55)
                (Num (inject_Z 150)) Hresp eq_refl eq_refl eq_refl H4)
      as (_ & _ & Hfallback & _).
    destruct Hfallback as (lines & Hl & Hg).
    + intros i Hi. apply candidates_spec in Hi. vm_compute in Hi.
      assert (i = 1 ∨ i = 2 ∨ i = 3)%nat as [-> | [-> | ->]] by lia; vm_compute; discriminate.
    + assert (lines = ["aa bb"; "cccccc"; "dd"]) as -> by (vm_compute in Hl; congruence).
      split; [reflexivity | exact Hg].
Defined.

(** The balance is compared as the code computes it.  With the widths
    [tied_widths] the splits after one and after two words both fit and have
    the same computed balance, so the search keeps the first, although the
    exact difference of the widths is smaller for the second. *)
Lemma balanced_split_counterexample :
  wrapText tied_widths "a b c d" (Num 1100) = Ok ["a"; "b c d"]
  ∧ 2%nat ∈ candidates 4
  ∧ fits tied_widths (Num 1100) (split "a b c d") 2
  ∧ (∃ b, balance_is tied_widths (split "a b c d") 1 b
          ∧ balance_is tied_widths (split "a b c d") 2 b)
  ∧ ∃ d d', imbalance_is tied_widths (split "a b c d") 1 d
            ∧ imbalance_is tied_widths (split "a b c d") 2 d'
            ∧ (d' < d)%Q.
Proof.
  split; [vm_compute; reflexivity|].
  split; [apply candidates_spec; vm_compute; lia|].
  split; [reflexivity|]. split.
  - exists (7414226808419123 # 8796093022208)%Q. split.
    + eexists _, _. split; [reflexivity|]. split; [reflexivity|]. vm_compute. reflexivity.
    + eexists _, _. split; [reflexivity|]. split; [reflexivity|]. vm_compute. reflexivity.
  - eexists _, _. split; [|split].
    + eexists _, _. split; [reflexivity|]. split; reflexivity.
    + eexists _, _. split; [reflexivity|]. split; reflexivity.
    + vm_compute. reflexivity.
Qed.

(** C7: when the measurement of the whole caption fails, is below the floor
    of 10 or is not a number, [wrapText] takes the metrics as unreliable: for
    a caption of at least two words (hence not empty) it returns, without
    failing, the split at the word-count midpoint.  No width is compared:
    the result is the same for every maximal width and every provider that
    is degraded on the caption. *)
Theorem degraded_midpoint_split (context : metrics) (text : string) (maxWidth : jsnum) :
  degraded_text context text →
  (2 <= length (split text))%nat →
  let words := split text in
  let midPoint := (length words / 2)%nat in
  wrapText context text maxWidth = Ok [firstLine words midPoint; secondLine words midPoint]
  ∧ text ≠ ""
  ∧ ∀ context' maxWidth',
      degraded_text context' text →
      wrapText context' text maxWidth' = wrapText context text maxWidth.
Proof.
  intros Hdeg H2 words midPoint.
  assert (Hsplit : ∀ c m, degraded_text c text →
            wrapText c text m = Ok [firstLine words midPoint; secondLine words midPoint]).
  { intros c m Hc. apply degraded_canMeasure in Hc.
    rewrite (wrapText_degraded c text m Hc).
    apply Nat.leb_le in H2. now rewrite H2. }
  split; [now apply Hsplit|]. split.
  - intros ->. simpl in H2. lia.
  - intros c m Hc. now rewrite !Hsplit.
Qed.

Lemma degraded_midpoint_split_witness :
  wrapText unavailable "Hello big world out there" (Num 1100)
  = Ok ["Hello big"; "world out there"].
Proof.
  assert (H2 : (2 <= length (split "Hello big world out there"))%nat) by (vm_compute; lia).
  exact (proj1 (degraded_midpoint_split unavailable "Hello big world out there"
                  (Num 1100) I H2)).
Defined.



(** ** The label box *)

Lemma measure_all_spec (context : metrics) (lines : list string) :
  ∀ ws, measure_all context lines = Ok ws →
        Forall2 (fun line w => context line = Ok w) lines ws.
Proof.
  induction lines as [|line lines IH]; intros ws H; simpl in H.
  - injection H as <-. constructor.
  - destruct (context line) as [w|e] eqn:Hw; simpl in H; [|discriminate].
    destruct (measure_all context lines) as [ws'|e]; simpl in H; [|discriminate].
    injection H as <-. constructor; [assumption | now apply IH].
Qed.

Lemma Math_max_empty (ws : list jsnum) : Math_max ws = None → ws = [].
Proof. destruct ws as [|w ws]; [reflexivity|]. simpl. now destruct (Math_max ws). Qed.

(** A numeric maximum is one of the widths, all of them are numbers and
    none is greater. *)
Lemma Math_max_spec (ws : list jsnum) :
  ∀ L, Math_max ws = Some (Num L) →
       Num L ∈ ws ∧ ∀ w, w ∈ ws → ∃ q, w = Num q ∧ (q <= L)%Q.
Proof.
  induction ws as [|w ws IH]; intros L H; [discriminate|].
  simpl in H. destruct (Math_max ws) as [m|] eqn:Hm.
  - destruct w as [|a]; [discriminate|]. destruct m as [|b]; [discriminate|].
    destruct (IH b eq_refl) as [Hin Hall].
    injection H as H. simpl in H. destruct (Qle_bool a b) eqn:Hab.
    + injection H as <-. apply Qle_bool_iff in Hab. split.
      * apply elem_of_cons. now right.
      * intros w Hw. apply elem_of_cons in Hw as [-> | Hw]; [now exists a | now apply Hall].
    + injection H as <-.
      assert (Hba : (b <= a)%Q).
      { apply Qlt_le_weak, Qnot_le_lt. intros Hle. apply Qle_bool_iff in Hle. congruence. }
      split.
      * apply elem_of_cons. now left.
      * intros w Hw. apply elem_of_cons in Hw as [-> | Hw].
        -- exists a. split; [reflexivity | apply Qle_refl].
        -- destruct (Hall w Hw) as (q & -> & Hq). exists q. split; [reflexivity|].
           now apply Qle_trans with b.
  - apply Math_max_empty in Hm. subst ws. injection H as ->. split.
    + apply elem_of_cons. now left.
    + intros w Hw. apply list_elem_of_singleton in Hw. subst w.
      exists L. split; [reflexivity | apply Qle_refl].
Qed.

Lemma longestLine_fold (lines : list string) :
  ∀ a, let r := foldl (fun a b => if (String.length b <? String.length a)%nat then a else b)
                      a lines in
       (r = a ∨ r ∈ lines)
       ∧ (String.length a <= String.length r)%nat
       ∧ ∀ line, line ∈ lines → (String.length line <= String.length r)%nat.
Proof.
  induction lines as [|b lines IH]; intros a; simpl.
  - repeat split; [now left | lia |]. intros line Hl. now apply elem_of_nil in Hl.
  - destruct (String.length b <? String.length a)%nat eqn:Hlt.
    + apply Nat.ltb_lt in Hlt. destruct (IH a) as (Hr & Hle & Hall).
      repeat split; [| assumption |].
      * destruct Hr as [Hr | Hr]; [now left | right; apply elem_of_cons; now right].
      * intros line Hl. apply elem_of_cons in Hl as [-> | Hl]; [lia | now apply Hall].
    + apply Nat.ltb_ge in Hlt. destruct (IH b) as (Hr & Hle & Hall).
      repeat split; [| lia |].
      * right. apply elem_of_cons. destruct Hr as [Hr | Hr]; [now left | now right].
      * intros line Hl. apply elem_of_cons in Hl as [-> | Hl]; [lia | now apply Hall].
Qed.

(** [longestLine] has the greatest character count of the lines. *)
Lemma longestLine_spec (lines : list string) :
  lines ≠ [] → longest_char_count lines (String.length (longestLine lines)).
Proof.
  intros Hne. destruct (longestLine_fold lines "") as (Hr & _ & Hall).
  fold (longestLine lines) in Hr, Hall. split; [|assumption].
  destruct Hr as [Hr | Hr]; [|now exists (longestLine lines)].
  destruct lines as [|line lines]; [congruence|].
  exists line. split; [apply elem_of_cons; now left|].
  specialize (Hall line ltac:(apply elem_of_cons; now left)).
  rewrite Hr in *. simpl in *. lia.
Qed.

(** The box is inside the canvas on both sides, at the top, and at the
    bottom as long as it is not higher than the canvas. *)
Lemma computeBox_bounds (longest : Q) (lineCount : nat) (shiftUp : Z) :
  let box := computeBox longest lineCount shiftUp in
  (0 <= boxLeft box
   ∧ boxLeft box + boxWidth box <= outputWidth
   ∧ 0 <= boxTop box
   ∧ (boxHeight box <= outputHeight → boxTop box + boxHeight box <= outputHeight))%Z.
Proof.
  unfold computeBox, maxBoxWidth, outputWidth, outputHeight. simpl. lia.
Qed.

Lemma captionBox_inv (context : metrics) (caption : string) (shiftUp : Z)
    (lines : list string) (box : LabelBox) :
  captionBox context caption shiftUp = Ok (lines, box) →
  lines ≠ []
  ∧ ∃ L, longestLineWidth context lines = Ok L
         ∧ box = computeBox L (length lines) shiftUp.
Proof.
  unfold captionBox. intros H.
  destruct (wrapText context caption (Num (inject_Z maxTextWidth))) as [ls|e] eqn:Hw;
    cbn [mbind result_bind] in H; [|discriminate].
  destruct (longestLineWidth context ls) as [L|e] eqn:HL;
    cbn [mbind result_bind] in H; [|discriminate].
  injection H as <- <-. split; [apply (wrapText_lines _ _ _ _ Hw) | now exists L].
Qed.




Lemma widest_of_max (context : metrics) (lines : list string) (ws : list jsnum) (L : Q) :
  measure_all context lines = Ok ws →
  Math_max ws = Some (Num L) →
  widest_is context lines L.
Proof.
  intros Hm HL. apply measure_all_spec in Hm.
  destruct (Math_max_spec ws L HL) as [Hin Hall]. split.
  - apply list_elem_of_lookup in Hin as [i Hi].
    destruct (Forall2_lookup_r _ _ _ _ _ Hm Hi) as (line & Hline & Hw).
    exists line. split; [|assumption]. apply list_elem_of_lookup. now exists i.
  - intros line Hl. apply list_elem_of_lookup in Hl as [i Hi].
    destruct (Forall2_lookup_l _ _ _ _ _ Hm Hi) as (w & Hw & Hc).
    destruct (Hall w) as (q & -> & Hq); [apply list_elem_of_lookup; now exists i|].
    now exists q.
Qed.

(** C6: the width of the label box of every wrapped caption is
    [ceil(longestLineWidth) + 2 * padding] capped at [outputWidth - 20], so it
    never exceeds the canvas width.  [longestLineWidth] is the measured width
    of a widest line; when that measurement is degraded (below 10 or not a
    number) it is the greatest character count of a line times
    [fontSize * 0.6]. *)
Theorem box_width_formula (context : metrics) (caption : string) (shiftUp : Z)
    (lines : list string) (box : LabelBox) :
  captionBox context caption shiftUp = Ok (lines, box) →
  ∃ L : Q,
    longestLineWidth context lines = Ok L
    ∧ ((widest_is context lines L ∧ (10 <= L)%Q)
       ∨ (lines_degraded context lines
          ∧ ∃ n, longest_char_count lines n
                 ∧ (L == inject_Z (Z.of_nat n) * (inject_Z fontSize * (6 # 10)))%Q))
    ∧ boxWidth box = Z.min (Qceiling L + 2 * padding) (outputWidth - 20)
    ∧ (boxWidth box <= outputWidth - 20)%Z
    ∧ (boxWidth box <= outputWidth)%Z.
Proof.
  intros H. apply captionBox_inv in H as (Hne & L & HL & ->).
  exists L. split; [assumption|]. split.
  - unfold longestLineWidth in HL.
    destruct (measure_all context lines) as [ws|e] eqn:Hm;
      cbn [mbind result_bind] in HL; [|discriminate].
    destruct (degraded (Math_max ws)) eqn:Hdeg.
    + injection HL as <-. right. split; [now exists ws|].
      exists (String.length (longestLine lines)).
      split; [now apply longestLine_spec | reflexivity].
    + destruct (Math_max ws) as [[|q]|] eqn:Hmax; try discriminate.
      injection HL as <-. left. split; [now apply (widest_of_max _ _ ws)|].
      simpl in Hdeg. rewrite orb_false_r in Hdeg. now apply Qlt_bool_false.
  - unfold computeBox, calculatedBoxWidth, maxBoxWidth, outputWidth, padding. simpl.
    repeat split; lia.
Qed.

Lemma box_width_formula_witness :
  ∃ L : Q,
    longestLineWidth (monospace 15) ["Hello world"] = Ok L
    ∧ ((widest_is (monospace 15) ["Hello world"] L ∧ (10 <= L)%Q)
       ∨ (lines_degraded (monospace 15) ["Hello world"]
          ∧ ∃ n, longest_char_count ["Hello world"] n
                 ∧ (L == inject_Z (Z.of_nat n) * (inject_Z fontSize * (6 # 10)))%Q))
    ∧ boxWidth (computeBox 165 1 13) = Z.min (Qceiling L + 2 * padding) (outputWidth - 20)
    ∧ (boxWidth (computeBox 165 1 13) <= outputWidth - 20)%Z
    ∧ (boxWidth (computeBox 165 1 13) <= outputWidth)%Z.
Proof.
  apply (box_width_formula (monospace 15) "Hello world" 13 ["Hello world"]
           (computeBox 165 1 13)).
  reflexivity.
Defined.

(** C1: a caption of twenty words of 40 characters, at 15 pixels a
    character, wraps into twenty lines; its box is 658 pixels high and is put
    at the top, so that its bottom is below the canvas of 628 pixels. *)
Theorem box_exceeds_canvas :
  ∃ lines box,
    captionBox (monospace 15) twenty_long_words overlayPixelShiftUp = Ok (lines, box)
    ∧ length lines = 20%nat
    ∧ boxHeight box = 658%Z
    ∧ boxTop box = 0%Z
    ∧ ¬ (boxTop box + boxHeight box <= outputHeight)%Z.
Proof.
  eexists _, _. split; [vm_compute; reflexivity|].
  repeat split. vm_compute. intros H. now apply H.
Qed.

(** ** The image cache *)

Lemma cache_get_None (cache : imageCache) (id : string) :
  cache_get id cache = None ↔ id ∉ cache.*1.
Proof.
  induction cache as [|[k e] cache IH]; simpl.
  - split; [intros _; apply not_elem_of_nil | reflexivity].
  - rewrite not_elem_of_cons. destruct (String.eqb id k) eqn:E.
    + apply String.eqb_eq in E. split; [discriminate | tauto].
    + apply String.eqb_neq in E. tauto.
Qed.

Lemma cache_get_Some (cache : imageCache) (id : string) (e : CacheEntry) :
  NoDup cache.*1 → (cache_get id cache = Some e ↔ (id, e) ∈ cache).
Proof.
  induction cache as [|[k e'] cache IH]; simpl; intros Hnd.
  - split; [discriminate | intros H; now apply elem_of_nil in H].
  - apply NoDup_cons in Hnd as [Hk Hnd]. rewrite elem_of_cons.
    destruct (String.eqb id k) eqn:E.
    + apply String.eqb_eq in E. subst k. split.
      * intros [= ->]. now left.
      * intros [[= ->] | Hin]; [reflexivity|].
        destruct Hk. apply (list_elem_of_fmap_2 fst) in Hin. exact Hin.
    + apply String.eqb_neq in E. rewrite (IH Hnd). split; [tauto|].
      intros [[= -> _] | Hin]; [congruence | assumption].
Qed.

Lemma cache_get_set_eq (cache : imageCache) (id : string) (e : CacheEntry) :
  cache_get id (cache_set id e cache) = Some e.
Proof.
  induction cache as [|[k e'] cache IH]; simpl.
  - now rewrite String.eqb_refl.
  - destruct (String.eqb id k) eqn:E; simpl; rewrite E; [reflexivity | exact IH].
Qed.

Lemma cache_get_set_ne (cache : imageCache) (id id' : string) (e : CacheEntry) :
  id' ≠ id → cache_get id' (cache_set id e cache) = cache_get id' cache.
Proof.
  intros Hne. induction cache as [|[k e'] cache IH]; simpl.
  - apply String.eqb_neq in Hne. now rewrite Hne.
  - destruct (String.eqb id k) eqn:E; simpl.
    + apply String.eqb_eq in E. subst k. apply String.eqb_neq in Hne. now rewrite Hne.
    + now rewrite IH.
Qed.

(** [set] on a new key appends; on a known key it changes nothing in the
    keys. *)
Lemma cache_set_new (cache : imageCache) (id : string) (e : CacheEntry) :
  id ∉ cache.*1 → cache_set id e cache = cache ++ [(id, e)].
Proof.
  induction cache as [|[k e'] cache IH]; simpl; intros Hid; [reflexivity|].
  apply not_elem_of_cons in Hid as [Hne Hid]. apply String.eqb_neq in Hne.
  now rewrite Hne, IH.
Qed.

Lemma cache_set_keys (cache : imageCache) (id : string) (e : CacheEntry) :
  id ∈ cache.*1 → (cache_set id e cache).*1 = cache.*1.
Proof.
  induction cache as [|[k e'] cache IH]; simpl; intros Hid.
  - now apply elem_of_nil in Hid.
  - destruct (String.eqb id k) eqn:E; [reflexivity|]. simpl. f_equal. apply IH.
    apply String.eqb_neq in E. apply elem_of_cons in Hid as [Hid | Hid]; [congruence | assumption].
Qed.

Lemma cache_set_NoDup (cache : imageCache) (id : string) (e : CacheEntry) :
  NoDup cache.*1 → NoDup (cache_set id e cache).*1.
Proof.
  intros Hnd. destruct (decide (id ∈ cache.*1)) as [Hin | Hout].
  - now rewrite cache_set_keys.
  - rewrite cache_set_new by assumption. rewrite fmap_app. apply NoDup_app.
    repeat split; [assumption | | apply NoDup_singleton].
    intros x Hx Hx'. apply list_elem_of_singleton in Hx'. simpl in Hx'. now subst x.
Qed.

Lemma cache_set_elem (cache : imageCache) (id : string) (e : CacheEntry) (kv : string * CacheEntry) :
  kv ∈ cache_set id e cache → kv = (id, e) ∨ kv ∈ cache.
Proof.
  induction cache as [|[k e'] cache IH]; simpl; intros H.
  - apply list_elem_of_singleton in H. now left.
  - destruct (String.eqb id k) eqn:E.
    + apply String.eqb_eq in E. subst k. apply elem_of_cons in H as [-> | H]; [now left|].
      right. apply elem_of_cons. now right.
    + apply elem_of_cons in H as [-> | H]; [right; apply elem_of_cons; now left|].
      destruct (IH H) as [-> | Hin]; [now left | right; apply elem_of_cons; now right].
Qed.

(** *** The sort *)

Lemma insert_by_timestamp_perm (x : string * CacheEntry) (l : imageCache) :
  insert_by_timestamp x l ≡ₚ x :: l.
Proof.
  induction l as [|y l IH]; simpl; [reflexivity|].
  destruct (timestamp x.2 <=? timestamp y.2)%Z; [reflexivity|].
  rewrite IH. apply Permutation_swap.
Qed.

Lemma sort_by_timestamp_perm (l : imageCache) : sort_by_timestamp l ≡ₚ l.
Proof.
  induction l as [|x l IH]; simpl; [reflexivity|].
  now rewrite insert_by_timestamp_perm, IH.
Qed.

Lemma insert_by_timestamp_sorted (x : string * CacheEntry) (l : imageCache) :
  StronglySorted older_or_same l → StronglySorted older_or_same (insert_by_timestamp x l).
Proof.
  induction 1 as [|y l Hl IH Hy]; simpl; [repeat constructor|].
  destruct (timestamp x.2 <=? timestamp y.2)%Z eqn:E.
  - apply Z.leb_le in E. constructor; [now constructor|].
    constructor; [exact E|].
    eapply Forall_impl; [exact Hy|]. unfold older_or_same. intros z Hz. lia.
  - apply Z.leb_gt in E. constructor; [assumption|].
    rewrite insert_by_timestamp_perm. constructor; [|assumption].
    unfold older_or_same. lia.
Qed.

Lemma sort_by_timestamp_sorted (l : imageCache) :
  StronglySorted older_or_same (sort_by_timestamp l).
Proof.
  induction l as [|x l IH]; simpl; [constructor | now apply insert_by_timestamp_sorted].
Qed.

(** The sort is stable: an entry that is not older than any other and
    comes last stays last. *)
Lemma insert_by_timestamp_snoc (a x : string * CacheEntry) (l : imageCache) :
  older_or_same a x → insert_by_timestamp a (l ++ [x]) = insert_by_timestamp a l ++ [x].
Proof.
  intros Hax. induction l as [|y l IH]; simpl.
  - apply Z.leb_le in Hax. now rewrite Hax.
  - destruct (timestamp a.2 <=? timestamp y.2)%Z; [reflexivity|]. now rewrite IH.
Qed.

Lemma sort_by_timestamp_snoc (x : string * CacheEntry) (l : imageCache) :
  (∀ y, y ∈ l → older_or_same y x) →
  sort_by_timestamp (l ++ [x]) = sort_by_timestamp l ++ [x].
Proof.
  induction l as [|a l IH]; intros Hall; [reflexivity|]. simpl.
  rewrite IH by (intros y Hy; apply Hall, elem_of_cons; now right).
  apply insert_by_timestamp_snoc, Hall, elem_of_cons. now left.
Qed.

(** *** The clean-up *)

Lemma filter_keep_all {A} (P : A → Prop) `{∀ x, Decision (P x)} (l : list A) :
  (∀ x, x ∈ l → P x) → filter P l = l.
Proof.
  induction l as [|x l IH]; intros Hall; [reflexivity|].
  rewrite filter_cons_True by (apply Hall, elem_of_cons; now left).
  f_equal. apply IH. intros y Hy. apply Hall, elem_of_cons. now right.
Qed.

Lemma filter_drop_all {A} (P : A → Prop) `{∀ x, Decision (P x)} (l : list A) :
  (∀ x, x ∈ l → ¬ P x) → filter P l = [].
Proof.
  induction l as [|x l IH]; intros Hall; [reflexivity|].
  rewrite filter_cons_False by (apply Hall, elem_of_cons; now left).
  apply IH. intros y Hy. apply Hall, elem_of_cons. now right.
Qed.

(** Deleting the keys of [gone] one after the other leaves the entries
    whose key is not among them. *)
Lemma delete_all_filter (gone : imageCache) :
  ∀ cache, foldl (fun c kv => cache_delete kv.1 c) cache gone
           = filter (fun kv => kv.1 ∉ gone.*1) cache.
Proof.
  induction gone as [|[k e] gone IH]; intros cache; simpl.
  - symmetry. apply filter_keep_all. intros x _. apply not_elem_of_nil.
  - rewrite IH. unfold cache_delete.
    etrans; [apply (list_filter_filter (fun kv => kv.1 ∉ gone.*1) (fun kv => kv.1 ≠ k))|].
    apply list_filter_iff. intros x. rewrite not_elem_of_cons. tauto.
Qed.

Lemma evict_filter (cache : imageCache) :
  evict cache = filter (fun kv => kv.1 ∉ (evicted cache).*1) cache.
Proof.
  unfold evict, evicted. destruct (capacity <? length cache)%nat.
  - apply delete_all_filter.
  - symmetry. apply filter_keep_all. intros x _. apply not_elem_of_nil.
Qed.

Lemma cache_get_filter (P : string → Prop) `{∀ k, Decision (P k)}
    (cache : imageCache) (id : string) :
  cache_get id (filter (fun kv => P kv.1) cache)
  = if decide (P id) then cache_get id cache else None.
Proof.
  induction cache as [|[k e] cache IH]; [now destruct (decide (P id))|].
  rewrite (filter_cons (fun kv : string * CacheEntry => P kv.1)). simpl. destruct (decide (P k)) as [Hk | Hk]; simpl.
  - destruct (String.eqb id k) eqn:E; [|exact IH].
    apply String.eqb_eq in E. subst k. now rewrite decide_True.
  - etrans; [exact IH|]. destruct (String.eqb id k) eqn:E; [|reflexivity].
    apply String.eqb_eq in E. subst k.
    destruct (decide (P id)); [contradiction | reflexivity].
Qed.

(** An entry is found after the clean-up exactly when it was there and has
    not been deleted. *)
Lemma cache_get_evict (cache : imageCache) (id : string) :
  cache_get id (evict cache)
  = if decide (id ∉ (evicted cache).*1) then cache_get id cache else None.
Proof.
  rewrite evict_filter.
  exact (cache_get_filter (fun k => k ∉ (evicted cache).*1) cache id).
Qed.

Lemma filter_keys_NoDup (P : string → Prop) `{∀ k, Decision (P k)} (cache : imageCache) :
  NoDup cache.*1 → NoDup (filter (fun kv => P kv.1) cache).*1.
Proof.
  induction cache as [|[k e] cache IH]; intros Hnd; [constructor|].
  rewrite fmap_cons in Hnd. apply NoDup_cons in Hnd as [Hk Hnd].
  rewrite (filter_cons (fun kv : string * CacheEntry => P kv.1)).
  destruct (decide (P (k, e).1)); [|now apply IH].
  rewrite fmap_cons. apply NoDup_cons. split; [|now apply IH].
  intros Hin. apply Hk. apply list_elem_of_fmap in Hin as (x & Hx1 & Hx).
  apply list_elem_of_filter in Hx as [_ Hx]. simpl in Hx1. rewrite Hx1. simpl.
  now apply list_elem_of_fmap_2.
Qed.

Lemma evict_NoDup (cache : imageCache) : NoDup cache.*1 → NoDup (evict cache).*1.
Proof.
  intros Hnd. rewrite evict_filter.
  exact (filter_keys_NoDup (fun k => k ∉ (evicted cache).*1) cache Hnd).
Qed.

Lemma evict_elem (cache : imageCache) (kv : string * CacheEntry) :
  kv ∈ evict cache → kv ∈ cache.
Proof. rewrite evict_filter. intros H. now apply list_elem_of_filter in H. Qed.

(** Over capacity, the sorted entries are the deleted ones followed by the
    [capacity] entries that stay. *)
Lemma evict_perm (cache : imageCache) :
  NoDup cache.*1 → (capacity < length cache)%nat →
  sort_by_timestamp cache
  = evicted cache ++ drop (length cache - capacity) (sort_by_timestamp cache)
  ∧ evict cache ≡ₚ drop (length cache - capacity) (sort_by_timestamp cache).
Proof.
  intros Hnd Hover.
  assert (Hlen : length (sort_by_timestamp cache) = length cache)
    by apply Permutation_length, sort_by_timestamp_perm.
  assert (Hsplit : sort_by_timestamp cache
            = evicted cache ++ drop (length cache - capacity) (sort_by_timestamp cache)).
  { unfold evicted. apply Nat.ltb_lt in Hover. rewrite Hover, Hlen.
    symmetry. apply take_drop. }
  split; [exact Hsplit|].
  rewrite evict_filter.
  set (kept := drop (length cache - capacity) (sort_by_timestamp cache)) in *.
  set (gone := evicted cache) in *.
  assert (Hnd' : NoDup (gone.*1 ++ kept.*1)).
  { rewrite <- fmap_app, <- Hsplit. now rewrite sort_by_timestamp_perm. }
  apply NoDup_app in Hnd' as (_ & Hdisj & _).
  trans (filter (fun kv : string * CacheEntry => kv.1 ∉ gone.*1) (sort_by_timestamp cache)).
  { now rewrite sort_by_timestamp_perm. }
  rewrite Hsplit.
  rewrite (filter_app (fun kv : string * CacheEntry => kv.1 ∉ gone.*1)).
  rewrite (filter_drop_all (fun kv : string * CacheEntry => kv.1 ∉ gone.*1) gone).
  - rewrite (filter_keep_all (fun kv : string * CacheEntry => kv.1 ∉ gone.*1) kept);
      [reflexivity|].
    intros x Hx Hin. apply (Hdisj x.1 Hin). now apply list_elem_of_fmap_2.
  - intros x Hx Hnot. apply Hnot. now apply list_elem_of_fmap_2.
Qed.

Lemma evict_length (cache : imageCache) :
  NoDup cache.*1 → (capacity < length cache)%nat → length (evict cache) = capacity.
Proof.
  intros Hnd Hover. destruct (evict_perm cache Hnd Hover) as [_ Hp].
  rewrite Hp, length_drop.
  rewrite (Permutation_length (sort_by_timestamp_perm cache)). lia.
Qed.

Lemma evict_length_le (cache : imageCache) :
  NoDup cache.*1 → (length (evict cache) <= capacity)%nat.
Proof.
  intros Hnd. destruct (decide (capacity < length cache)%nat) as [Hover | Hfit].
  - now rewrite evict_length.
  - unfold evict. pose proof Hfit as Hfit'. apply Nat.ltb_nlt in Hfit' as ->. lia.
Qed.

(** A deleted entry is not younger than an entry that stays. *)
Lemma evict_oldest (cache : imageCache) (id id' : string) (e e' : CacheEntry) :
  NoDup cache.*1 →
  cache_get id cache = Some e → cache_get id (evict cache) = None →
  cache_get id' (evict cache) = Some e' →
  (timestamp e <= timestamp e')%Z.
Proof.
  intros Hnd He Hgone Hkept. rewrite cache_get_evict in Hgone, Hkept.
  destruct (decide (id ∉ (evicted cache).*1)) as [Hid | Hid]; [congruence|].
  destruct (decide (id' ∉ (evicted cache).*1)) as [Hid' | Hid']; [|discriminate].
  apply dec_stable in Hid.
  assert (Hover : (capacity < length cache)%nat).
  { unfold evicted in Hid. destruct (capacity <? length cache)%nat eqn:E.
    - now apply Nat.ltb_lt. - now apply elem_of_nil in Hid. }
  destruct (evict_perm cache Hnd Hover) as [Hsplit _].
  set (kept := drop (length cache - capacity) (sort_by_timestamp cache)) in *.
  pose proof (sort_by_timestamp_sorted cache) as Hsorted. rewrite Hsplit in Hsorted.
  assert (Hin : ∀ kv, kv ∈ cache ↔ kv ∈ evicted cache ++ kept).
  { intros kv. now rewrite <- Hsplit, sort_by_timestamp_perm. }
  apply list_elem_of_fmap in Hid as ([k e0] & Hk & He0). simpl in Hk. subst k.
  assert (e0 = e) as ->.
  { assert (H0 : cache_get id cache = Some e0).
    { apply cache_get_Some; [assumption|]. apply Hin, elem_of_app. now left. }
    congruence. }
  apply cache_get_Some in Hkept; [|assumption].
  apply Hin, elem_of_app in Hkept as [Hkept | Hkept].
  { destruct Hid'. now apply (list_elem_of_fmap_2 fst) in Hkept. }
  exact (StronglySorted_app_1_elem_of _ _ _ _ _ Hsorted He0 Hkept).
Qed.

(** *** The cache of a process *)

Lemma cache_after_snoc (md5_hex : Buffer → string) (puts : list (Z * Buffer * string))
    (p : Z * Buffer * string) :
  cache_after md5_hex (puts ++ [p])
  = (cache_put md5_hex p.1.1 p.1.2 p.2 (cache_after md5_hex puts)).2.
Proof. unfold cache_after. now rewrite foldl_snoc. Qed.

Lemma cache_after_inv (md5_hex : Buffer → string) (puts : list (Z * Buffer * string)) :
  cache_inv md5_hex puts (cache_after md5_hex puts).
Proof.
  induction puts as [|p puts IH] using rev_ind.
  - repeat split; [constructor | simpl; unfold capacity; lia |].
    intros kv Hkv. now apply elem_of_nil in Hkv.
  - destruct IH as (Hnd & Hlen & Hfrom). rewrite cache_after_snoc. simpl.
    set (id := imageId md5_hex p.1.1 p.1.2). set (e := Entry p.1.2 p.1.1 p.2).
    pose proof (cache_set_NoDup (cache_after md5_hex puts) id e Hnd) as Hnd1.
    repeat split.
    + now apply evict_NoDup.
    + now apply evict_length_le.
    + intros kv Hkv. apply evict_elem, cache_set_elem in Hkv as [-> | Hkv].
      * exists p. split; [apply elem_of_app; right; now apply list_elem_of_singleton|].
        now split.
      * destruct (Hfrom kv Hkv) as (p' & Hp' & Hk & Ht).
        exists p'. split; [apply elem_of_app; now left | now split].
Qed.

(** C4: after a put that pushes the store beyond the capacity of 10,
    exactly 10 entries remain retrievable; they are entries of the store
    before the clean-up, unchanged; and every entry that is no longer found
    is at most as recent, by its creation timestamp, as every entry that
    remains. *)
Theorem cache_keeps_most_recent (md5_hex : Buffer → string)
    (puts : list (Z * Buffer * string)) (now : Z) (outputBuffer : Buffer) (cap : string) :
  let id := imageId md5_hex now outputBuffer in
  let stored := cache_set id (Entry outputBuffer now cap) (cache_after md5_hex puts) in
  let after := (cache_put md5_hex now outputBuffer cap (cache_after md5_hex puts)).2 in
  (10 < length stored)%nat →
  length after = 10%nat
  ∧ NoDup after.*1
  ∧ (∀ k, k ∈ after.*1 ↔ is_Some (cache_get k after))
  ∧ (∀ k e, cache_get k after = Some e → cache_get k stored = Some e)
  ∧ (∀ k e k' e',
       cache_get k stored = Some e → cache_get k after = None →
       cache_get k' after = Some e' →
       (timestamp e <= timestamp e')%Z).
Proof.
  intros id stored after Hover.
  destruct (cache_after_inv md5_hex puts) as (Hnd & _ & _).
  assert (Hnd1 : NoDup stored.*1) by now apply cache_set_NoDup.
  assert (Hafter : after = evict stored) by reflexivity.
  rewrite Hafter.
  split; [now apply evict_length|]. split; [now apply evict_NoDup|]. split; [|split].
  - intros k. split.
    + intros Hk. destruct (cache_get k (evict stored)) eqn:E; [now eexists|].
      now apply cache_get_None in E.
    + intros [e He]. destruct (decide (k ∈ (evict stored).*1)) as [Hk | Hk]; [assumption|].
      apply cache_get_None in Hk. congruence.
  - intros k e He. rewrite cache_get_evict in He.
    now destruct (decide (k ∉ (evicted stored).*1)).
  - intros k e k' e'. now apply evict_oldest.
Qed.

Lemma cache_keeps_most_recent_witness :
  let id := imageId constant_hash 12 [] in
  let stored := cache_set id (Entry [] 12 "caption") (cache_after constant_hash eleven_puts) in
  let after := (cache_put constant_hash 12 [] "caption"
                  (cache_after constant_hash eleven_puts)).2 in
  length after = 10%nat
  ∧ NoDup after.*1
  ∧ (∀ k, k ∈ after.*1 ↔ is_Some (cache_get k after))
  ∧ (∀ k e, cache_get k after = Some e → cache_get k stored = Some e)
  ∧ (∀ k e k' e',
       cache_get k stored = Some e → cache_get k after = None →
       cache_get k' after = Some e' →
       (timestamp e <= timestamp e')%Z).
Proof.
  apply (cache_keeps_most_recent constant_hash eleven_puts 12 [] "caption").
  vm_compute. lia.
Defined.

(** *** Storing and serving *)

Lemma imageId_nonempty (md5_hex : Buffer → string) (now : Z) (outputBuffer : Buffer) :
  imageId md5_hex now outputBuffer ≠ "".
Proof.
  unfold imageId. destruct (pretty now) as [|c s]; [|discriminate].
  rewrite append_nil_l. discriminate.
Qed.

(** The answer to a request for the cached image [id]. *)
Lemma handler_get_request (env : Env) (id : string) (cache : imageCache) :
  id ≠ "" →
  (handler env (get_request id) cache).1
  = match cache_get id cache with
    | None => MkResponse 404 json_header (JsonError "Image not found or expired" None) false
    | Some cachedImage =>
        MkResponse 200
          [("Content-Type", "image/jpeg");
           ("Cache-Control", "public, max-age=3600");
           ("Content-Length", pretty (length (buffer cachedImage)))]
          (Base64Image (buffer cachedImage)) true
    end.
Proof.
  intros Hid. unfold handler, serve_cached, get_request.
  cbn [queryStringParameters default from_option]. unfold Datatypes.id.
  rewrite lookup_insert_ne by discriminate.
  rewrite lookup_singleton_eq, lookup_insert_eq.
  apply String.eqb_neq in Hid. rewrite Hid, String.eqb_refl. cbn [negb andb].
  now destruct (cache_get id cache).
Qed.

(** A put at a time that is not before the times of the entries in the
    store does not evict its own entry. *)
Lemma put_not_evicted (cache : imageCache) (id : string) (e : CacheEntry) :
  NoDup cache.*1 → (length cache <= capacity)%nat →
  (∀ kv, kv ∈ cache → (timestamp kv.2 <= timestamp e)%Z) →
  id ∉ (evicted (cache_set id e cache)).*1.
Proof.
  intros Hnd Hlen Hts. destruct (decide (id ∈ cache.*1)) as [Hin | Hout].
  - assert (Hsame : length (cache_set id e cache) = length cache).
    { rewrite <- (length_fmap fst (cache_set id e cache)), cache_set_keys by assumption.
      apply length_fmap. }
    unfold evicted. rewrite Hsame.
    replace (capacity <? length cache)%nat with false
      by (symmetry; apply Nat.ltb_nlt; lia).
    apply not_elem_of_nil.
  - rewrite cache_set_new by assumption. unfold evicted.
    destruct (capacity <? length (cache ++ [(id, e)]))%nat; [|apply not_elem_of_nil].
    rewrite sort_by_timestamp_snoc by (intros y Hy; now apply Hts).
    rewrite !length_app. simpl length.
    rewrite take_app_le by (unfold capacity; lia).
    intros Hin. apply Hout.
    apply list_elem_of_fmap in Hin as (kv & -> & Hkv).
    apply subseteq_take in Hkv. rewrite sort_by_timestamp_perm in Hkv.
    now apply list_elem_of_fmap_2.
Qed.

(** C8: when the clock of the process does not go back, so that no earlier
    put has a later timestamp, storing the bytes [B] gives an id under which
    the next get returns exactly [B], and the request for that id is answered
    with these bytes; an id that was never given to a put is not found, and
    the request for it is answered 404. *)
Theorem put_then_get (md5_hex : Buffer → string) (env : Env)
    (puts : list (Z * Buffer * string)) (now : Z) (B : Buffer) (cap : string) :
  (∀ p, p ∈ puts → (p.1.1 <= now)%Z) →
  let cache := cache_after md5_hex puts in
  let id := (cache_put md5_hex now B cap cache).1 in
  let after := (cache_put md5_hex now B cap cache).2 in
  (∃ e, cache_get id after = Some e ∧ buffer e = B)
  ∧ statusCode (handler env (get_request id) after).1 = 200%Z
  ∧ responseBody (handler env (get_request id) after).1 = Base64Image B
  ∧ ∀ id',
      (∀ p, p ∈ puts ++ [(now, B, cap)] → id' ≠ imageId md5_hex p.1.1 p.1.2) →
      cache_get id' after = None
      ∧ (id' ≠ "" → statusCode (handler env (get_request id') after).1 = 404%Z).
Proof.
  intros Hclock cache id after.
  destruct (cache_after_inv md5_hex puts) as (Hnd & Hlen & Hfrom). fold cache in Hnd, Hlen, Hfrom.
  set (e := Entry B now cap).
  assert (Hafter : after = evict (cache_set id e cache)) by reflexivity.
  assert (Hget : cache_get id after = Some e).
  { rewrite Hafter, cache_get_evict. rewrite decide_True.
    - apply cache_get_set_eq.
    - apply put_not_evicted; [assumption..|].
      intros kv Hkv. destruct (Hfrom kv Hkv) as (p & Hp & _ & ->). now apply Hclock. }
  assert (Hid : id ≠ "") by apply imageId_nonempty.
  split; [now exists e|].
  rewrite (handler_get_request env id after Hid), Hget.
  split; [reflexivity|]. split; [reflexivity|].
  intros id' Hnew.
  assert (Hnone : cache_get id' after = None).
  { rewrite Hafter, cache_get_evict.
    destruct (decide (id' ∉ (evicted (cache_set id e cache)).*1)); [|reflexivity].
    rewrite cache_get_set_ne.
    - apply cache_get_None. intros Hin.
      apply list_elem_of_fmap in Hin as (kv & -> & Hkv).
      destruct (Hfrom kv Hkv) as (p & Hp & Hk & _).
      apply (Hnew p); [apply elem_of_app; now left | assumption].
    - apply (Hnew (now, B, cap)). apply elem_of_app. right. now apply list_elem_of_singleton. }
  split; [assumption|]. intros Hid'.
  now rewrite (handler_get_request env id' after Hid'), Hnone.
Qed.

Lemma put_then_get_witness :
  let cache := cache_after constant_hash eleven_puts in
  let id := (cache_put constant_hash 12 [Byte.x01] "caption" cache).1 in
  let after := (cache_put constant_hash 12 [Byte.x01] "caption" cache).2 in
  (∃ e, cache_get id after = Some e ∧ buffer e = [Byte.x01])
  ∧ statusCode (handler sample_env (get_request id) after).1 = 200%Z
  ∧ responseBody (handler sample_env (get_request id) after).1 = Base64Image [Byte.x01]
  ∧ ∀ id',
      (∀ p, p ∈ eleven_puts ++ [(12%Z, [Byte.x01], "caption")] →
            id' ≠ imageId constant_hash p.1.1 p.1.2) →
      cache_get id' after = None
      ∧ (id' ≠ "" → statusCode (handler sample_env (get_request id') after).1 = 404%Z).
Proof.
  apply (put_then_get constant_hash sample_env eleven_puts 12 [Byte.x01] "caption").
  intros p Hp. unfold eleven_puts in Hp.
  apply list_elem_of_fmap in Hp as (t & -> & Ht). apply elem_of_seq in Ht. simpl. lia.
Defined.

(** Without the condition on the clock a put can lose its own bytes: after
    ten puts at the times 11 down to 2, the put at time 1 makes the oldest of
    eleven entries, which the clean-up of lines 346-351 deletes at once; the
    get on the id just returned finds nothing and the request is answered
    404. *)
Lemma put_then_get_clock_counterexample :
  let cache := cache_after constant_hash backward_puts in
  let id := (cache_put constant_hash 1 [Byte.x01] "caption" cache).1 in
  let after := (cache_put constant_hash 1 [Byte.x01] "caption" cache).2 in
  length cache = 10%nat
  ∧ id = "1-d41d8cd9"
  ∧ cache_get id after = None
  ∧ statusCode (handler sample_env (get_request id) after).1 = 404%Z.
Proof. vm_compute. repeat split. Qed.

(** ** The handler *)

Lemma serve_cached_cases (event : Event) (cache : imageCache) (response : Response) :
  serve_cached event cache = Some response →
  (statusCode response = 404%Z
   ∧ responseBody response = JsonError "Image not found or expired" None
   ∧ isBase64Encoded response = false)
  ∨ (statusCode response = 200%Z
     ∧ ∃ id cachedImage, cache_get id cache = Some cachedImage
                         ∧ responseBody response = Base64Image (buffer cachedImage)).
Proof.
  unfold serve_cached.
  destruct (default ∅ (queryStringParameters event) !! "serve") as [serve|]; [|discriminate].
  destruct (default ∅ (queryStringParameters event) !! "id") as [id|]; [|discriminate].
  destruct (String.eqb serve "image" && negb (String.eqb id "")); [|discriminate].
  destruct (cache_get id cache) as [cachedImage|] eqn:E; intros [= <-].
  - right. split; [reflexivity|]. now exists id, cachedImage.
  - left. now repeat split.
Qed.

Lemma render_cases (env : Env) (event : Event) (cache : imageCache)
    (response : Response) (cache' : imageCache) :
  render env event cache = Ok (response, cache') →
  (response = MkResponse 400 [] (JsonError "No image data provided" None) false
   ∧ cache' = cache
   ∧ ∃ imageBuffer cap, read_request env event = Ok (imageBuffer, cap)
                        ∧ no_image_data imageBuffer = true)
  ∨ (statusCode response = 200%Z
     ∧ ∃ outputBuffer cap id,
         responseBody response
         = JsonCreated (js_or (process_env_URL env) "https://bccaptioner.netlify.app"
                        +:+ "/.netlify/functions/overlay?serve=image&id=" +:+ id)
                       id (length outputBuffer) cap
         ∧ (id, cache') = cache_put (md5 env) (Date_now env) outputBuffer cap cache).
Proof.
  unfold render.
  destruct (read_request env event) as [[imageBuffer cap]|e] eqn:Hreq;
    cbn [mbind result_bind]; [|discriminate].
  destruct (no_image_data imageBuffer) eqn:Hno.
  { intros [= <- <-]. left. repeat split. now exists imageBuffer, cap. }
  destruct (sharp_metadata env (default [] imageBuffer)) as [metadata|e];
    cbn [mbind result_bind]; [|discriminate].
  destruct (captionBox (measureText env) cap overlayPixelShiftUp) as [[lines box]|e];
    cbn [mbind result_bind]; [|discriminate].
  destruct (composite env (default [] imageBuffer) (text_layer env lines box) box)
    as [outputBuffer|e]; cbn [mbind result_bind]; [|discriminate].
  destruct (cache_put (md5 env) (Date_now env) outputBuffer cap cache) as [id c'] eqn:Hput.
  intros [= <- <-]. right. split; [reflexivity|]. now exists outputBuffer, cap, id.
Qed.

(** What is read of a request depends on the parser and on the base64
    decoding only. *)
Lemma read_request_ext (env env' : Env) (event : Event) :
  parser_parse env' = parser_parse env →
  base64_decode env' = base64_decode env →
  read_request env' event = read_request env event.
Proof. intros Hp Hb. unfold read_request. now rewrite Hp, Hb. Qed.






(** ** The code on sample inputs *)

Example split_spaces : split " a b  c" = [""; "a"; "b"; ""; "c"].
Proof. reflexivity. Qed.

Example wrap_one_line :
  wrapText (monospace 15) "Hello world" (Num 1100) = Ok ["Hello world"].
Proof. reflexivity. Qed.

Example wrap_balanced :
  wrapText (monospace 15) four_long_words (Num 1100)
  = Ok ["aaaaaaaaaaaaaaaaaaaa bbbbbbbbbbbbbbbbbbbb";
        "cccccccccccccccccccc dddddddddddddddddddd"].
Proof. reflexivity. Qed.

Example wrap_greedy :
  wrapText (monospace 600) "aa bb cc dd ee" (Num 1100) = Ok ["aa"; "bb"; "cc"; "dd"; "ee"].
Proof. reflexivity. Qed.

Example wrap_degraded_fits :
  wrapText (monospace 0) "Hello big world" (Num 1100) = Ok ["Hello"; "big world"].
Proof. reflexivity. Qed.

Example box_hello_world :
  captionBox (monospace 15) "Hello world" overlayPixelShiftUp
  = Ok (["Hello world"], Box 185 50 508 565).
Proof. reflexivity. Qed.

Example box_degraded :
  captionBox (monospace 0) "Hello world" overlayPixelShiftUp
  = Ok (["Hello"; "world"], Box 110 82 545 533).
Proof. reflexivity. Qed.

Example eleventh_put_evicts_first :
  let cache := cache_after constant_hash eleven_puts in
  length cache = 10%nat
  ∧ cache_get "1-d41d8cd9" cache = None
  ∧ cache_get "2-d41d8cd9" cache = Some (Entry [] 2 "caption")
  ∧ cache_get "11-d41d8cd9" cache = Some (Entry [] 11 "caption").
Proof. vm_compute. repeat split. Qed.

Example composite_failure_500 :
  handler (MkEnv (parser_parse sample_env) (base64_decode sample_env)
                 (sharp_metadata sample_env) (measureText sample_env)
                 (text_layer sample_env)
                 (fun _ _ _ _ => Throw (Error "Image to composite must have same dimensions or smaller"))
                 (Date_now sample_env) (md5 sample_env) (process_env_URL sample_env))
          (MkEvent None (Some ∅) (Some "abc")) []
  = (MkResponse 500 json_header
       (JsonError "Image processing failed"
          (Some "Image processing failed: Image to composite must have same dimensions or smaller"))
       false, []).
Proof. vm_compute. reflexivity. Qed.

Example render_then_serve :
  let out := handler sample_env (MkEvent None (Some ∅) (Some "abc")) [] in
  statusCode out.1 = 200%Z
  ∧ (∃ url size cap, responseBody out.1 = JsonCreated url "1700000000000-d41d8cd9" size cap)
  ∧ responseBody (handler sample_env (get_request "1700000000000-d41d8cd9") out.2).1
    = Base64Image (base64_decode sample_env "abc").
Proof. vm_compute. split; [reflexivity|]. split; [now eexists _, _, _ | reflexivity]. Qed.

(** * Further properties of the code *)

(** ** The greedy loop, once more *)

Lemma js_lt_le (x y : jsnum) : js_lt x y = true → js_le x y = true.
Proof.
  destruct x as [|a], y as [|b]; simpl; try discriminate.
  intros H. apply Qle_bool_iff, Qlt_le_weak. now apply Qlt_bool_true.
Qed.

Lemma greedy_fit (context : metrics) (maxWidth : jsnum) (words lines : list string) :
  words ≠ [] →
  greedy context maxWidth words = Ok lines →
  ∀ line, line ∈ lines → line ∈ words ∨ measures_lt context maxWidth line.
Proof.
  intros Hne H. destruct words as [|w0 ws]; [congruence|].
  apply greedy_cons in H as (ls & cur & E & ->).
  set (ok := fun line => line ∈ w0 :: ws ∨ measures_lt context maxWidth line).
  apply (greedy_fold_rule context maxWidth (w0 :: ws)
           (fun lines cur _ => (∀ l, l ∈ lines → ok l) ∧ ok cur))
    with (seen := []) in E.
  - destruct E as [Hl Hc]. intros line Hin.
    apply elem_of_app in Hin as [Hin | Hin]; [now apply Hl|].
    apply list_elem_of_singleton in Hin. now subst line.
  - intros lines cur0 seen word width Hword [Hl Hc] Hw Hlt. split; [exact Hl|].
    right. now exists width.
  - intros lines cur0 seen word width Hword [Hl Hc] Hw Hlt. split; [|now left].
    intros l Hin. apply elem_of_app in Hin as [Hin | Hin]; [now apply Hl|].
    apply list_elem_of_singleton in Hin. now subst l.
  - intros w Hw. apply elem_of_cons. now right.
  - split; [intros l Hl; now apply elem_of_nil in Hl|]. left. apply elem_of_cons. now left.
Qed.

(** X1: every line the greedy wrapping returns is a single word of the
    text or measures strictly less than the maximal width: only a word that
    is too wide by itself can stick out. *)
Theorem greedy_lines_fit (context : metrics) (text : string) (maxWidth : jsnum)
    (lines : list string) :
  wrapText_greedy context text maxWidth = Ok lines →
  ∀ line, line ∈ lines → line ∈ split text ∨ measures_lt context maxWidth line.
Proof. apply greedy_fit, split_nonempty. Qed.

Lemma greedy_lines_fit_witness :
  wrapText_greedy (monospace 10) "aa bb cccccc dd" (Num 55) = Ok ["aa bb"; "cccccc"; "dd"]
  ∧ ∀ line, line ∈ ["aa bb"; "cccccc"; "dd"] →
            line ∈ split "aa bb cccccc dd" ∨ measures_lt (monospace 10) (Num 55) line.
Proof.
  split; [reflexivity|].
  apply (greedy_lines_fit (monospace 10) "aa bb cccccc dd" (Num 55)). reflexivity.
Defined.

(** X2: with a usable measurement of the text, every line [wrapText]
    returns measures at most the maximal width, or is a single word of the
    text. *)
Theorem wrapText_lines_fit (context : metrics) (text : string) (maxWidth : jsnum)
    (lines : list string) :
  canMeasure context text = true →
  wrapText context text maxWidth = Ok lines →
  ∀ line, line ∈ lines → line ∈ split text ∨ measures_le context maxWidth line.
Proof.
  intros Hcan. unfold wrapText. rewrite Hcan.
  destruct (context text) as [w|e] eqn:Hw; cbn [mbind result_bind]; [|discriminate].
  destruct (js_le w maxWidth) eqn:Hle.
  { intros [= <-] line Hin. apply list_elem_of_singleton in Hin. subst line.
    right. now exists w. }
  assert (Hgreedy : greedy context maxWidth (split text) = Ok lines →
            ∀ line, line ∈ lines → line ∈ split text ∨ measures_le context maxWidth line).
  { intros Hg line Hin.
    destruct (greedy_fit _ _ _ _ (split_nonempty text) Hg line Hin) as [Hword | (x & Hx & Hlt)];
      [now left | right]. exists x. split; [assumption | now apply js_lt_le]. }
  unfold two_line_split.
  destruct (4 <=? length (split text))%nat; cbn [mbind result_bind negb andb];
    [|exact Hgreedy].
  destruct (balanced_search context maxWidth (split text)) as [b|e];
    cbn [mbind result_bind]; [|discriminate].
  unfold bothFit.
  destruct (context (firstLine (split text) (bestSplit b))) as [w1|e] eqn:H1;
    cbn [mbind result_bind]; [|discriminate].
  destruct (context (secondLine (split text) (bestSplit b))) as [w2|e] eqn:H2;
    cbn [mbind result_bind]; [|discriminate].
  destruct (js_le w1 maxWidth && js_le w2 maxWidth) eqn:Hfit;
    cbn [mbind result_bind negb andb]; [|exact Hgreedy].
  apply andb_true_iff in Hfit as [Hf1 Hf2].
  intros [= <-] line Hin. right.
  apply elem_of_cons in Hin as [-> | Hin]; [now exists w1|].
  apply list_elem_of_singleton in Hin. subst line. now exists w2.
Qed.

Lemma wrapText_lines_fit_witness :
  canMeasure (monospace 15) four_long_words = true
  ∧ ∀ line, line ∈ ["aaaaaaaaaaaaaaaaaaaa bbbbbbbbbbbbbbbbbbbb";
                    "cccccccccccccccccccc dddddddddddddddddddd"] →
            line ∈ split four_long_words ∨ measures_le (monospace 15) (Num 1100) line.
Proof.
  split; [reflexivity|].
  apply (wrapText_lines_fit (monospace 15) four_long_words (Num 1100)); reflexivity.
Defined.

(** ** Lines are groups of consecutive words *)

Lemma grouped_halves (words : list string) (i : nat) :
  (0 < i < length words)%nat →
  grouped words [firstLine words i; secondLine words i].
Proof.
  intros [Hlo Hhi]. exists [take i words; drop i words]. repeat split.
  - simpl. rewrite app_nil_r. apply take_drop.
  - repeat constructor.
    + intros E. apply (f_equal length) in E. rewrite length_take in E. simpl in E. lia.
    + intros E. apply (f_equal length) in E. rewrite length_drop in E. simpl in E. lia.
Qed.

Lemma grouped_greedy (context : metrics) (maxWidth : jsnum) (words lines : list string) :
  words ≠ [] → greedy context maxWidth words = Ok lines → grouped words lines.
Proof.
  intros Hne H. destruct words as [|w0 ws]; [congruence|].
  apply greedy_cons in H as (ls & cur & E & ->).
  apply (greedy_fold_rule context maxWidth (w0 :: ws)
           (fun lines cur seen =>
              ∃ groups g, concat groups ++ g = seen ∧ g ≠ []
                          ∧ Forall (fun g => g ≠ []) groups
                          ∧ lines = join <$> groups ∧ cur = join g))
    with (seen := [w0]) in E.
  - destruct E as (groups & g & Hcat & Hg & Hall & -> & ->).
    exists (groups ++ [g]). repeat split.
    + rewrite concat_app. simpl. now rewrite app_nil_r.
    + apply Forall_app. split; [assumption | now constructor].
    + now rewrite fmap_app.
  - intros lines cur0 seen word width _ (groups & g & Hcat & Hg & Hall & -> & ->) _ _.
    exists groups, (g ++ [word]). repeat split; try assumption.
    + now rewrite app_assoc, Hcat.
    + now destruct g.
    + now rewrite join_snoc.
  - intros lines cur0 seen word width _ (groups & g & Hcat & Hg & Hall & -> & ->) _ _.
    exists (groups ++ [g]), [word]. repeat split.
    + rewrite concat_app. simpl. now rewrite app_nil_r, Hcat.
    + discriminate.
    + apply Forall_app. split; [assumption | now constructor].
    + now rewrite fmap_app.
  - intros w Hw. apply elem_of_cons. now right.
  - exists [], [w0]. repeat split; [discriminate | constructor].
Qed.

(** X3: [wrapText] never cuts a word and never moves one: the lines it
    returns are the words of the text, in order, cut into consecutive groups
    that are not empty, each joined with single spaces.  So there are at most
    as many lines as words. *)
Theorem wrapText_groups_words (context : metrics) (text : string) (maxWidth : jsnum)
    (lines : list string) :
  wrapText context text maxWidth = Ok lines →
  grouped (split text) lines ∧ (length lines <= length (split text))%nat.
Proof.
  intros H.
  assert (Hg : grouped (split text) lines).
  { revert H. pose proof (split_nonempty text) as Hne.
    assert (Hone : grouped (split text) [text]).
    { exists [split text]. repeat split.
      - simpl. apply app_nil_r.
      - now repeat constructor.
      - simpl. now rewrite join_split. }
    assert (Hmid : (2 <= length (split text))%nat →
              grouped (split text) (midpoint_split (split text))).
    { intros H2. apply grouped_halves, midpoint_inside, H2. }
    destruct (canMeasure context text) eqn:Hcan.
    2:{ rewrite (wrapText_degraded _ _ _ Hcan).
        destruct (2 <=? length (split text))%nat eqn:H2; intros [= <-]; [|exact Hone].
        apply Hmid. now apply Nat.leb_le. }
    unfold wrapText. rewrite Hcan.
    destruct (context text) as [w|e]; cbn [mbind result_bind]; [|discriminate].
    destruct (js_le w maxWidth); [intros [= <-]; exact Hone|].
    unfold two_line_split.
    destruct (4 <=? length (split text))%nat eqn:H4; cbn [mbind result_bind negb andb];
      [|now apply grouped_greedy].
    apply Nat.leb_le in H4.
    destruct (balanced_search context maxWidth (split text)) as [b|e] eqn:Hb;
      cbn [mbind result_bind]; [|discriminate].
    destruct (bothFit context maxWidth (split text) (bestSplit b)) as [[|]|e];
      cbn [mbind result_bind negb andb]; [| now apply grouped_greedy | discriminate].
    intros [= <-]. apply grouped_halves. eapply balanced_search_split; eassumption. }
  split; [exact Hg|].
  destruct Hg as (groups & <- & Hall & ->). rewrite length_fmap.
  clear H. induction Hall as [|g groups Hg Hall IH]; simpl; [lia|].
  rewrite length_app. destruct g; [congruence | simpl; lia].
Qed.

Lemma wrapText_groups_words_witness :
  grouped (split "aa bb cc dd ee") ["aa"; "bb"; "cc"; "dd"; "ee"]
  ∧ (length ["aa"; "bb"; "cc"; "dd"; "ee"] <= length (split "aa bb cc dd ee"))%nat.
Proof.
  apply (wrapText_groups_words (monospace 600) "aa bb cc dd ee" (Num 1100)). reflexivity.
Defined.

(** ** The layout raises nothing of its own *)

Lemma greedy_fold_raises (context : metrics) (maxWidth : jsnum) (e : error) (rest : list string) :
  ∀ st, foldl (greedy_step context maxWidth) (Ok st) rest = Throw e →
        ∃ s, context s = Throw e.
Proof.
  induction rest as [|word rest IH]; intros [lines cur] H; [discriminate|].
  simpl in H. destruct (context (cur +:+ " " +:+ word)) as [width|e'] eqn:Hw; simpl in H.
  - destruct (js_lt width maxWidth); now apply IH in H.
  - rewrite greedy_fold_throw in H. injection H as <-. eexists; eassumption.
Qed.

Lemma greedy_raises (context : metrics) (maxWidth : jsnum) (e : error) (words : list string) :
  greedy context maxWidth words = Throw e → ∃ s, context s = Throw e.
Proof.
  unfold greedy. destruct (foldl _ _ _) as [[ls cur]|e'] eqn:E; simpl; [discriminate|].
  intros [= ->]. now apply greedy_fold_raises in E.
Qed.

Lemma balance_step_raises (context : metrics) (maxWidth : jsnum) (words : list string)
    (b : best) (i : nat) (e : error) :
  balance_step context maxWidth words (Ok b) i = Throw e → ∃ s, context s = Throw e.
Proof.
  unfold balance_step. cbn [mbind result_bind].
  destruct (context (firstLine words i)) as [w1|e1] eqn:H1; cbn [mbind result_bind].
  2:{ intros [= <-]. eexists; eassumption. }
  destruct (context (secondLine words i)) as [w2|e2] eqn:H2; cbn [mbind result_bind].
  2:{ intros [= <-]. eexists; eassumption. }
  destruct (js_le w1 maxWidth && js_le w2 maxWidth); [|discriminate].
  now destruct (lt_best _ _).
Qed.

Lemma balance_fold_raises (context : metrics) (maxWidth : jsnum) (words : list string)
    (e : error) (todo : list nat) :
  ∀ b, foldl (balance_step context maxWidth words) (Ok b) todo = Throw e →
       ∃ s, context s = Throw e.
Proof.
  induction todo as [|i todo IH]; intros b H; [discriminate|].
  change (foldl (balance_step context maxWidth words)
            (balance_step context maxWidth words (Ok b) i) todo = Throw e) in H.
  destruct (balance_step context maxWidth words (Ok b) i) as [b1|e1] eqn:Hstep.
  - now apply IH in H.
  - rewrite balance_fold_throw in H. injection H as ->.
    now apply balance_step_raises in Hstep.
Qed.

Lemma wrapText_raises (context : metrics) (text : string) (maxWidth : jsnum) (e : error) :
  wrapText context text maxWidth = Throw e → ∃ s, context s = Throw e.
Proof.
  destruct (canMeasure context text) eqn:Hcan.
  2:{ rewrite (wrapText_degraded _ _ _ Hcan). discriminate. }
  unfold wrapText. rewrite Hcan.
  destruct (context text) as [w|e0] eqn:Hw; cbn [mbind result_bind].
  2:{ intros [= <-]. eexists; eassumption. }
  destruct (js_le w maxWidth); [discriminate|].
  unfold two_line_split.
  destruct (4 <=? length (split text))%nat; cbn [mbind result_bind negb andb];
    [|apply greedy_raises].
  destruct (balanced_search context maxWidth (split text)) as [b|e0] eqn:Hb;
    cbn [mbind result_bind].
  2:{ intros [= ->]. now apply balance_fold_raises in Hb. }
  unfold bothFit.
  destruct (context (firstLine (split text) (bestSplit b))) as [w1|e1] eqn:H1;
    cbn [mbind result_bind]; [|intros [= <-]; eexists; eassumption].
  destruct (context (secondLine (split text) (bestSplit b))) as [w2|e2] eqn:H2;
    cbn [mbind result_bind]; [|intros [= <-]; eexists; eassumption].
  destruct (js_le w1 maxWidth && js_le w2 maxWidth); cbn [mbind result_bind negb andb];
    [discriminate | apply greedy_raises].
Qed.

Lemma measure_all_raises (context : metrics) (lines : list string) (e : error) :
  measure_all context lines = Throw e → ∃ s, context s = Throw e.
Proof.
  induction lines as [|line lines IH]; simpl; [discriminate|].
  destruct (context line) as [w|e0] eqn:Hw; simpl; [|intros [= <-]; eexists; eassumption].
  destruct (measure_all context lines) as [ws|e0]; simpl; [discriminate|].
  intros [= ->]. now apply IH.
Qed.

(** X4: wrapping a caption and sizing its box fail only where the metrics
    provider fails: an exception that leaves the layout is one that
    [measureText] threw on some string.  With a provider that answers every
    call the layout always gives lines and a box. *)
Theorem layout_raises_only_measure_errors (context : metrics) (caption : string)
    (shiftUp : Z) :
  (∀ e, captionBox context caption shiftUp = Throw e → ∃ s, context s = Throw e)
  ∧ (responsive context →
     ∃ lines box, captionBox context caption shiftUp = Ok (lines, box)).
Proof.
  assert (Hraise : ∀ e, captionBox context caption shiftUp = Throw e →
                        ∃ s, context s = Throw e).
  { intros e. unfold captionBox.
    destruct (wrapText context caption (Num (inject_Z maxTextWidth))) as [lines|e0] eqn:Hw;
      cbn [mbind result_bind].
    2:{ intros [= ->]. now apply wrapText_raises in Hw. }
    unfold longestLineWidth.
    destruct (measure_all context lines) as [ws|e0] eqn:Hm; cbn [mbind result_bind].
    2:{ intros [= ->]. now apply measure_all_raises in Hm. }
    destruct (degraded (Math_max ws)); [discriminate|].
    now destruct (Math_max ws) as [[|q]|]. }
  split; [exact Hraise|]. intros Hresp.
  destruct (captionBox context caption shiftUp) as [[lines box]|e] eqn:E; [now eexists _, _|].
  destruct (Hraise e eq_refl) as [s Hs]. destruct (Hresp s) as [w Hw]. congruence.
Qed.

(** ** Where the box is put *)

Lemma estimatedWidth_nonneg (lines : list string) : (0 <= estimatedWidth lines)%Q.
Proof.
  unfold estimatedWidth. apply Qmult_le_0_compat; [|discriminate].
  change 0%Q with (inject_Z 0). rewrite <- Zle_Qle. lia.
Qed.

Lemma longestLineWidth_nonneg (context : metrics) (lines : list string) (L : Q) :
  longestLineWidth context lines = Ok L → (0 <= L)%Q.
Proof.
  unfold longestLineWidth.
  destruct (measure_all context lines) as [ws|e]; cbn [mbind result_bind]; [|discriminate].
  destruct (degraded (Math_max ws)) eqn:Hdeg.
  { intros [= <-]. apply estimatedWidth_nonneg. }
  destruct (Math_max ws) as [[|q]|]; try (intros [= <-]; apply estimatedWidth_nonneg).
  intros [= <-]. simpl in Hdeg. rewrite orb_false_r in Hdeg.
  apply Qlt_bool_false in Hdeg. apply Qle_trans with 10%Q; [discriminate | assumption].
Qed.

Lemma boxWidth_range (L : Q) (lineCount : nat) (shiftUp : Z) :
  (0 <= L)%Q → (20 <= boxWidth (computeBox L lineCount shiftUp) <= 1180)%Z.
Proof.
  intros HL. apply Qceiling_resp_le in HL. change (Qceiling 0) with 0%Z in HL.
  unfold computeBox, calculatedBoxWidth, maxBoxWidth, outputWidth, padding. simpl. lia.
Qed.

(** X5: the box of a caption is always inside the canvas on the left, on
    the right and at the top; it is inside at the bottom exactly when the
    caption wraps into at most 19 lines. *)
Theorem box_inside_canvas (context : metrics) (caption : string) (shiftUp : Z)
    (lines : list string) (box : LabelBox) :
  captionBox context caption shiftUp = Ok (lines, box) →
  (0 <= boxLeft box)%Z
  ∧ (boxLeft box + boxWidth box <= outputWidth)%Z
  ∧ (0 <= boxTop box)%Z
  ∧ ((boxTop box + boxHeight box <= outputHeight)%Z ↔ (length lines <= 19)%nat).
Proof.
  intros H. apply captionBox_inv in H as (Hne & L & _ & ->).
  assert (H1 : (1 <= length lines)%nat) by (destruct lines; [congruence | simpl; lia]).
  unfold computeBox, totalTextHeight, calculatedBoxWidth, maxBoxWidth, textHeight,
    outputWidth, outputHeight, fontSize, lineSpacing, padding. simpl.
  repeat split; lia.
Qed.

Lemma box_inside_canvas_witness :
  (0 <= boxLeft (computeBox 165 1 13))%Z
  ∧ (boxLeft (computeBox 165 1 13) + boxWidth (computeBox 165 1 13) <= outputWidth)%Z
  ∧ (0 <= boxTop (computeBox 165 1 13))%Z
  ∧ ((boxTop (computeBox 165 1 13) + boxHeight (computeBox 165 1 13) <= outputHeight)%Z
     ↔ (length ["Hello world"] <= 19)%nat).
Proof.
  apply (box_inside_canvas (monospace 15) "Hello world" 13 ["Hello world"]
           (computeBox 165 1 13)).
  reflexivity.
Defined.

(** X6: the box is between 20 and 1180 pixels wide and is always centred:
    the clamp of line 226 never changes the rounded half of the free width,
    the margin on the left is the one on the right or one pixel more, and it
    is at least 10 pixels. *)
Theorem box_centred (context : metrics) (caption : string) (shiftUp : Z)
    (lines : list string) (box : LabelBox) :
  captionBox context caption shiftUp = Ok (lines, box) →
  let right := (outputWidth - (boxLeft box + boxWidth box))%Z in
  (20 <= boxWidth box <= 1180)%Z
  ∧ boxLeft box = round_half (outputWidth - boxWidth box)
  ∧ (right <= boxLeft box <= right + 1)%Z
  ∧ (10 <= boxLeft box)%Z.
Proof.
  intros H right. apply captionBox_inv in H as (_ & L & HL & ->).
  apply longestLineWidth_nonneg in HL.
  pose proof (boxWidth_range L (length lines) shiftUp HL) as Hw.
  unfold right. clear right. revert Hw.
  unfold computeBox, round_half, outputWidth. cbn [boxWidth boxLeft].
  set (w := Z.min (calculatedBoxWidth L) maxBoxWidth). intros Hw.
  assert (Hdiv : (2 * ((1200 - w + 1) / 2) <= 1200 - w + 1 < 2 * ((1200 - w + 1) / 2) + 2)%Z).
  { pose proof (Z.div_mod (1200 - w + 1) 2 ltac:(lia)).
    pose proof (Z.mod_pos_bound (1200 - w + 1) 2 ltac:(lia)). lia. }
  repeat split; lia.
Qed.

Lemma box_centred_witness :
  let box := computeBox 165 1 13 in
  let right := (outputWidth - (boxLeft box + boxWidth box))%Z in
  (20 <= boxWidth box <= 1180)%Z
  ∧ boxLeft box = round_half (outputWidth - boxWidth box)
  ∧ (right <= boxLeft box <= right + 1)%Z
  ∧ (10 <= boxLeft box)%Z.
Proof.
  apply (box_centred (monospace 15) "Hello world" 13 ["Hello world"] (computeBox 165 1 13)).
  reflexivity.
Defined.

(** X7: when the box and a shift that is not negative fit the height of
    the canvas, the bottom of the box is exactly the shift above the bottom
    of the canvas; a negative shift is clamped, the box then sits on the
    bottom edge.  With the shift of 13 of the source this is the case up to
    18 lines. *)
Theorem box_anchored (context : metrics) (caption : string) (shiftUp : Z)
    (lines : list string) (box : LabelBox) :
  captionBox context caption shiftUp = Ok (lines, box) →
  (boxHeight box <= outputHeight)%Z →
  ((0 <= shiftUp)%Z → (boxHeight box + shiftUp <= outputHeight)%Z →
   (boxTop box + boxHeight box = outputHeight - shiftUp)%Z)
  ∧ ((shiftUp <= 0)%Z → (boxTop box + boxHeight box = outputHeight)%Z)
  ∧ (shiftUp = overlayPixelShiftUp → (length lines <= 18)%nat →
     boxTop box = (597 - 32 * Z.of_nat (length lines))%Z).
Proof.
  intros H. apply captionBox_inv in H as (Hne & L & _ & ->).
  assert (H1 : (1 <= length lines)%nat) by (destruct lines; [congruence | simpl; lia]).
  unfold computeBox, totalTextHeight, textHeight, overlayPixelShiftUp,
    outputHeight, fontSize, lineSpacing, padding. simpl.
  intros Hh. repeat split; intros; lia.
Qed.

Lemma box_anchored_witness :
  let box := computeBox 165 1 13 in
  ((0 <= 13)%Z → (boxHeight box + 13 <= outputHeight)%Z →
   (boxTop box + boxHeight box = outputHeight - 13)%Z)
  ∧ ((13 <= 0)%Z → (boxTop box + boxHeight box = outputHeight)%Z)
  ∧ (13%Z = overlayPixelShiftUp → (length ["Hello world"] <= 18)%nat →
     boxTop box = (597 - 32 * Z.of_nat (length ["Hello world"]))%Z).
Proof.
  apply (box_anchored (monospace 15) "Hello world" 13 ["Hello world"] (computeBox 165 1 13)).
  - reflexivity.
  - vm_compute. discriminate.
Defined.

(** X8: the layer that is drawn and composited at [boxLeft] is always 20
    pixels wider than the box (the cap of line 237 at the canvas width never
    applies), so its right edge stays on the canvas exactly when the box is
    at most 1160 pixels wide. *)
Theorem text_layer_width (context : metrics) (caption : string) (shiftUp : Z)
    (lines : list string) (box : LabelBox) :
  captionBox context caption shiftUp = Ok (lines, box) →
  textCanvasWidth box = (boxWidth box + 20)%Z
  ∧ textCanvasHeight box = boxHeight box
  ∧ ((boxLeft box + textCanvasWidth box <= outputWidth)%Z ↔ (boxWidth box <= 1160)%Z).
Proof.
  intros H. apply captionBox_inv in H as (_ & L & HL & ->).
  apply longestLineWidth_nonneg in HL.
  pose proof (boxWidth_range L (length lines) shiftUp HL) as Hw. revert Hw.
  unfold textCanvasWidth, textCanvasHeight, computeBox, round_half, outputWidth.
  cbn [boxWidth boxLeft boxHeight].
  set (w := Z.min (calculatedBoxWidth L) maxBoxWidth). intros Hw.
  assert (Hdiv : (2 * ((1200 - w + 1) / 2) <= 1200 - w + 1 < 2 * ((1200 - w + 1) / 2) + 2)%Z).
  { pose proof (Z.div_mod (1200 - w + 1) 2 ltac:(lia)).
    pose proof (Z.mod_pos_bound (1200 - w + 1) 2 ltac:(lia)). lia. }
  repeat split; lia.
Qed.

Lemma text_layer_width_witness :
  let box := computeBox 165 1 13 in
  textCanvasWidth box = (boxWidth box + 20)%Z
  ∧ textCanvasHeight box = boxHeight box
  ∧ ((boxLeft box + textCanvasWidth box <= outputWidth)%Z ↔ (boxWidth box <= 1160)%Z).
Proof.
  apply (text_layer_width (monospace 15) "Hello world" 13 ["Hello world"]
           (computeBox 165 1 13)).
  reflexivity.
Defined.

Example text_layer_overflows :
  ∃ lines box,
    captionBox (monospace 0) twenty_long_words overlayPixelShiftUp = Ok (lines, box)
    ∧ boxWidth box = 1180%Z ∧ boxLeft box = 10%Z
    ∧ (boxLeft box + textCanvasWidth box = 1210)%Z.
Proof. eexists _, _. split; [vm_compute; reflexivity|]. now repeat split. Qed.

(** ** The cache is first in, first out *)










(** ** Ids *)

Lemma pretty_N_char_digit (x : N) : is_digit (pretty_N_char x) = true.
Proof. unfold pretty_N_char. repeat case_match; reflexivity. Qed.

Lemma pretty_N_go_digits (x : N) :
  ∀ s, string_forall is_digit s = true →
       string_forall is_digit (pretty_N_go x s) = true.
Proof.
  induction (N.lt_wf_0 x) as [x _ IH]; intros s Hs.
  destruct (decide (x = 0)%N) as [-> | Hx]; [now rewrite pretty_N_go_0|].
  rewrite pretty_N_go_step by lia. apply IH.
  - apply N.div_lt; lia.
  - simpl. now rewrite pretty_N_char_digit, Hs.
Qed.

Lemma pretty_N_go_length (x : N) :
  ∀ s, (String.length s <= String.length (pretty_N_go x s))%nat.
Proof.
  induction (N.lt_wf_0 x) as [x _ IH]; intros s.
  destruct (decide (x = 0)%N) as [-> | Hx]; [now rewrite pretty_N_go_0|].
  rewrite pretty_N_go_step by lia.
  etrans; [|apply IH, N.div_lt; lia]. simpl. lia.
Qed.

(** The decimal of a time that is not negative: digits, at least one. *)
Lemma pretty_time_digits (t : Z) :
  (0 <= t)%Z → string_forall is_digit (pretty t) = true ∧ pretty t ≠ "".
Proof.
  intros Ht. destruct t as [|p|p]; [now split | | lia].
  change (pretty (Z.pos p)) with (pretty (N.pos p)). unfold pretty, pretty_N.
  destruct (decide (N.pos p = 0)%N); [discriminate|]. split.
  - now apply pretty_N_go_digits.
  - rewrite pretty_N_go_step by lia. intros E.
    pose proof (pretty_N_go_length (N.pos p `div` 10)
                  (String (pretty_N_char (N.pos p `mod` 10)) "")) as Hlen.
    rewrite E in Hlen. simpl in Hlen. lia.
Qed.

Lemma digits_dash_inj (d d' r r' : string) :
  string_forall is_digit d = true → string_forall is_digit d' = true →
  d +:+ "-" +:+ r = d' +:+ "-" +:+ r' → d = d' ∧ r = r'.
Proof.
  revert d'. induction d as [|c d IH]; intros [|c' d'] Hd Hd' H.
  - rewrite !append_nil_l in H. now injection H.
  - rewrite append_nil_l, append_cons in H. injection H as <- _.
    simpl in Hd'. discriminate.
  - rewrite append_nil_l, append_cons in H. injection H as -> _.
    simpl in Hd. discriminate.
  - rewrite !append_cons in H. injection H as -> H.
    simpl in Hd, Hd'. apply andb_true_iff in Hd as [_ Hd], Hd' as [_ Hd'].
    destruct (IH d' Hd Hd' H) as [-> ->]. now split.
Qed.

(** X10: the id tells the time of the render: two ids made at times that
    are not negative are equal only if the times are equal and the hashes
    have the same first 8 characters.  Renders at different milliseconds
    never share an id, whatever their bytes. *)
Theorem imageId_tells_time (md5_hex : Buffer → string) (t t' : Z) (b b' : Buffer) :
  (0 <= t)%Z → (0 <= t')%Z →
  imageId md5_hex t b = imageId md5_hex t' b' →
  t = t' ∧ substring 0 8 (md5_hex b) = substring 0 8 (md5_hex b').
Proof.
  intros Ht Ht' H. unfold imageId in H.
  destruct (pretty_time_digits t Ht) as [Hd _].
  destruct (pretty_time_digits t' Ht') as [Hd' _].
  destruct (digits_dash_inj _ _ _ _ Hd Hd' H) as [Hp Hr].
  split; [|exact Hr]. now apply (inj pretty).
Qed.

Lemma imageId_tells_time_witness :
  (1700000000000 : Z) = 1700000000000%Z
  ∧ substring 0 8 (constant_hash []) = substring 0 8 (constant_hash [Byte.x01]).
Proof.
  apply (imageId_tells_time constant_hash 1700000000000 1700000000000 [] [Byte.x01]);
    [lia | lia | reflexivity].
Defined.

(** ** What the cache holds *)

Lemma cache_after_from_puts (md5_hex : Buffer → string) (puts : list (Z * Buffer * string)) :
  ∀ kv, kv ∈ cache_after md5_hex puts → ∃ p, p ∈ puts ∧ kv = entry_of md5_hex p.
Proof.
  induction puts as [|p puts IH] using rev_ind; intros kv Hkv.
  - now apply elem_of_nil in Hkv.
  - rewrite cache_after_snoc in Hkv. simpl in Hkv.
    apply evict_elem, cache_set_elem in Hkv as [-> | Hkv].
    + exists p. split; [|reflexivity]. apply elem_of_app. right.
      now apply list_elem_of_singleton.
    + destruct (IH kv Hkv) as (q & Hq & ->). exists q. split; [|reflexivity].
      apply elem_of_app. now left.
Qed.

(** X11: the cache never serves what was not stored: an entry found under
    an id after any sequence of puts holds the bytes, the time and the
    caption of one of these puts, and the id is the one computed from its own
    time and bytes. *)
Theorem cache_serves_what_was_put (md5_hex : Buffer → string)
    (puts : list (Z * Buffer * string)) (id : string) (e : CacheEntry) :
  cache_get id (cache_after md5_hex puts) = Some e →
  (∃ p, p ∈ puts ∧ e = Entry p.1.2 p.1.1 p.2 ∧ id = imageId md5_hex p.1.1 p.1.2)
  ∧ id = imageId md5_hex (timestamp e) (buffer e).
Proof.
  intros H. destruct (cache_after_inv md5_hex puts) as (Hnd & _ & _).
  apply cache_get_Some in H; [|assumption].
  apply cache_after_from_puts in H as (p & Hp & Hkv).
  unfold entry_of in Hkv. injection Hkv as -> ->. split; [|reflexivity].
  now exists p.
Qed.

Lemma cache_serves_what_was_put_witness :
  (∃ p, p ∈ eleven_puts ∧ Entry [] 11 "caption" = Entry p.1.2 p.1.1 p.2
        ∧ "11-d41d8cd9" = imageId constant_hash p.1.1 p.1.2)
  ∧ "11-d41d8cd9" = imageId constant_hash (timestamp (Entry [] 11 "caption"))
                      (buffer (Entry [] 11 "caption")).
Proof.
  apply (cache_serves_what_was_put constant_hash eleven_puts "11-d41d8cd9"
           (Entry [] 11 "caption")).
  vm_compute. reflexivity.
Defined.

(** ** The cache across requests *)

Lemma handler_cache_cases (env : Env) (event : Event) (cache : imageCache) :
  (handler env event cache).2 = cache
  ∨ ∃ outputBuffer cap,
      (handler env event cache).2
      = (cache_put (md5 env) (Date_now env) outputBuffer cap cache).2.
Proof.
  unfold handler. destruct (serve_cached event cache); [now left|].
  destruct (render env event cache) as [[r c]|err] eqn:Hr; [|now left].
  apply render_cases in Hr as [(_ & -> & _) | (_ & outputBuffer & cap & id & _ & Hput)];
    [now left | right].
  exists outputBuffer, cap. now rewrite <- Hput.
Qed.

Lemma handler_cache_ok (env : Env) (event : Event) (cache : imageCache) :
  cache_ok cache → cache_ok (handler env event cache).2.
Proof.
  intros [Hnd Hlen].
  destruct (handler_cache_cases env event cache) as [-> | (outputBuffer & cap & ->)];
    [now split|].
  simpl. pose proof (cache_set_NoDup cache (imageId (md5 env) (Date_now env) outputBuffer)
                       (Entry outputBuffer (Date_now env) cap) Hnd) as Hnd1.
  split; [now apply evict_NoDup | now apply evict_length_le].
Qed.

(** X12: whatever requests a process serves, and whatever the libraries do
    in each of them, its cache never holds more than 10 images and never two
    under one id. *)
Theorem cache_stays_bounded (requests : list (Env * Event)) :
  NoDup (serve requests []).*1 ∧ (length (serve requests []) <= 10)%nat.
Proof.
  change (cache_ok (serve requests [])).
  induction requests as [|r requests IH] using rev_ind.
  - split; [constructor | simpl; lia].
  - unfold serve. rewrite foldl_snoc. now apply handler_cache_ok.
Qed.

Lemma handler_get_request_cache (env : Env) (id : string) (cache : imageCache) :
  id ≠ "" → (handler env (get_request id) cache).2 = cache.
Proof.
  intros Hid. unfold handler, serve_cached, get_request.
  cbn [queryStringParameters default from_option]. unfold Datatypes.id.
  rewrite lookup_insert_ne by discriminate.
  rewrite lookup_singleton_eq, lookup_insert_eq.
  apply String.eqb_neq in Hid. rewrite Hid, String.eqb_refl. cbn [negb andb].
  now destruct (cache_get id cache).
Qed.

(** X13: a render that answers with an image id can be followed by the
    request for that id: it is answered 200 with bytes whose number is the
    size the render reported, the cache is left as it is, and the URL the
    render gave is the base URL followed by the query for that id.  The cache
    is sound and holds no entry from after the time of the render. *)
Theorem render_then_get (env env' : Env) (event : Event) (cache cache' : imageCache)
    (response : Response) (url id : string) (size : nat) (cap : string) :
  cache_ok cache →
  (∀ kv, kv ∈ cache → (timestamp kv.2 <= Date_now env)%Z) →
  handler env event cache = (response, cache') →
  responseBody response = JsonCreated url id size cap →
  ∃ bytes,
    handler env' (get_request id) cache'
    = (MkResponse 200
         [("Content-Type", "image/jpeg");
          ("Cache-Control", "public, max-age=3600");
          ("Content-Length", pretty size)]
         (Base64Image bytes) true, cache')
    ∧ length bytes = size
    ∧ statusCode response = 200%Z
    ∧ url = js_or (process_env_URL env) "https://bccaptioner.netlify.app"
            +:+ "/.netlify/functions/overlay?serve=image&id=" +:+ id.
Proof.
  intros [Hnd Hlen] Hclock Hh Hbody. unfold handler in Hh.
  destruct (serve_cached event cache) as [r|] eqn:Hs.
  { injection Hh as <- <-.
    apply serve_cached_cases in Hs as [(_ & Hb & _) | (_ & i & c & _ & Hb)]; congruence. }
  destruct (render env event cache) as [[r c]|err] eqn:Hr.
  2:{ injection Hh as <- <-. discriminate. }
  injection Hh as -> ->.
  apply render_cases in Hr as [(-> & _) | (H200 & outputBuffer & cap0 & id0 & Hb & Hput)];
    [discriminate|].
  rewrite Hb in Hbody. injection Hbody as <- <- <- <-.
  unfold cache_put in Hput. injection Hput as Hid Hc.
  set (e := Entry outputBuffer (Date_now env) cap0) in *.
  assert (Hget : cache_get id0 cache' = Some e).
  { rewrite Hc, Hid, cache_get_evict, decide_True; [apply cache_get_set_eq|].
    now apply put_not_evicted. }
  assert (Hne : id0 ≠ "") by (rewrite Hid; apply imageId_nonempty).
  exists outputBuffer. repeat split; try assumption; try reflexivity.
  pose proof (handler_get_request env' id0 cache' Hne) as H1. rewrite Hget in H1.
  pose proof (handler_get_request_cache env' id0 cache' Hne) as H2.
  destruct (handler env' (get_request id0) cache') as [r1 c1]. simpl in H1, H2.
  now subst r1 c1.
Qed.

Lemma render_then_get_witness :
  ∃ bytes,
    handler sample_env (get_request "1700000000000-d41d8cd9")
      [("1700000000000-d41d8cd9",
        Entry (base64_decode sample_env "abc") 1700000000000 "Default Caption")]
    = (MkResponse 200
         [("Content-Type", "image/jpeg");
          ("Cache-Control", "public, max-age=3600");
          ("Content-Length", pretty 3%nat)]
         (Base64Image bytes) true,
       [("1700000000000-d41d8cd9",
         Entry (base64_decode sample_env "abc") 1700000000000 "Default Caption")])
    ∧ length bytes = 3%nat
    ∧ statusCode (handler sample_env (MkEvent None (Some ∅) (Some "abc")) []).1 = 200%Z
    ∧ "https://bccaptioner.netlify.app/.netlify/functions/overlay?serve=image&id=1700000000000-d41d8cd9"
      = js_or (process_env_URL sample_env) "https://bccaptioner.netlify.app"
        +:+ "/.netlify/functions/overlay?serve=image&id=" +:+ "1700000000000-d41d8cd9".
Proof.
  apply (render_then_get sample_env sample_env (MkEvent None (Some ∅) (Some "abc")) []
           [("1700000000000-d41d8cd9",
             Entry (base64_decode sample_env "abc") 1700000000000 "Default Caption")]
           (handler sample_env (MkEvent None (Some ∅) (Some "abc")) []).1
           "https://bccaptioner.netlify.app/.netlify/functions/overlay?serve=image&id=1700000000000-d41d8cd9"
           "1700000000000-d41d8cd9" 3 "Default Caption").
  - split; [constructor | simpl; unfold capacity; lia].
  - intros kv Hkv. now apply elem_of_nil in Hkv.
  - vm_compute. reflexivity.
  - vm_compute. reflexivity.
Defined.

(** ** Temporary files *)

Example valid_names :
  ServeTemp.valid_name "overlay-1733512345678-0a1b2c3d.jpg" = true
  ∧ ServeTemp.valid_name "overlay--0a1b2c3d.jpg" = false
  ∧ ServeTemp.valid_name "overlay-12-0A1B2C3D.jpg" = false
  ∧ ServeTemp.valid_name "overlay-12-0a1b2c3d.jpg.png" = false
  ∧ ServeTemp.valid_name "overlay-12-0a1b2c3d9.jpg" = false
  ∧ ServeTemp.valid_name "xoverlay-12-0a1b2c3d.jpg" = false.
Proof. now repeat split. Qed.

Lemma length_append (a b : string) :
  String.length (a +:+ b) = (String.length a + String.length b)%nat.
Proof. induction a as [|c a IH]; [reflexivity|]. rewrite append_cons. simpl. now rewrite IH. Qed.

Lemma string_forall_append (P : ascii → bool) (a b : string) :
  string_forall P (a +:+ b) = string_forall P a && string_forall P b.
Proof.
  induction a as [|c a IH]; [reflexivity|]. rewrite append_cons. simpl.
  now rewrite IH, andb_assoc.
Qed.

Lemma string_forall_impl (P Q : ascii → bool) (s : string) :
  (∀ c, P c = true → Q c = true) → string_forall P s = true → string_forall Q s = true.
Proof.
  intros HPQ. induction s as [|c s IH]; [reflexivity|]. simpl.
  intros H. apply andb_true_iff in H as [Hc Hs]. now rewrite (HPQ c Hc), IH.
Qed.

Lemma strip_prefix_spec (p s r : string) : strip_prefix p s = Some r ↔ s = p +:+ r.
Proof.
  revert s. induction p as [|a p IH]; intros s; simpl.
  - rewrite append_nil_l. split; [now intros [= ->] | now intros ->].
  - destruct s as [|b s]; [split; discriminate|]. rewrite append_cons.
    destruct (Ascii.eqb a b) eqn:E.
    + apply Ascii.eqb_eq in E. subst b. rewrite IH. split; [now intros -> | now intros [= ->]].
    + apply Ascii.eqb_neq in E. split; [discriminate | intros [= -> _]; congruence].
Qed.

Lemma span_spec (P : ascii → bool) (s a b : string) :
  span P s = (a, b) →
  s = a +:+ b ∧ string_forall P a = true
  ∧ match b with String c _ => P c = false | EmptyString => True end.
Proof.
  revert a b. induction s as [|c s IH]; intros a b; simpl.
  - now intros [= <- <-].
  - destruct (P c) eqn:Hc.
    + destruct (span P s) as [a' b'] eqn:Hs. intros [= <- <-].
      destruct (IH a' b' eq_refl) as (-> & Ha & Hb). rewrite append_cons. simpl.
      now rewrite Hc, Ha.
    + intros [= <- <-]. now repeat split.
Qed.

Lemma span_append (P : ascii → bool) (a : string) (c : ascii) (t : string) :
  string_forall P a = true → P c = false → span P (a +:+ String c t) = (a, String c t).
Proof.
  intros Ha Hc. induction a as [|x a IH].
  - rewrite append_nil_l. simpl. now rewrite Hc.
  - rewrite append_cons. simpl in *. apply andb_true_iff in Ha as [Hx Ha].
    now rewrite Hx, (IH Ha).
Qed.

Lemma substring_0_append (a b : string) : substring 0 (String.length a) (a +:+ b) = a.
Proof. induction a as [|c a IH]; [now destruct b|]. rewrite append_cons. simpl. now rewrite IH. Qed.

Lemma substring_skip_append (a b : string) (m : nat) :
  substring (String.length a) m (a +:+ b) = substring 0 m b.
Proof. induction a as [|c a IH]; [reflexivity|]. rewrite append_cons. simpl. exact IH. Qed.

Lemma substring_0_all (s : string) : substring 0 (String.length s) s = s.
Proof. induction s as [|c s IH]; [reflexivity|]. simpl. now rewrite IH. Qed.

Lemma substring_cut (n m : nat) :
  ∀ t, String.length t = (n + m)%nat → t = substring 0 n t +:+ substring n m t.
Proof.
  induction n as [|n IH]; intros t Ht.
  - simpl in Ht. rewrite <- Ht, substring_0_all. now destruct t.
  - destruct t as [|c t]; [discriminate|]. simpl in Ht. injection Ht as Ht.
    simpl. rewrite append_cons. f_equal. now apply IH.
Qed.

Lemma substring_0_length (n : nat) :
  ∀ s, (n <= String.length s)%nat → String.length (substring 0 n s) = n.
Proof.
  induction n as [|n IH]; intros s Hs; [now destruct s|].
  destruct s as [|c s]; simpl in *; [lia|]. rewrite IH; [reflexivity | lia].
Qed.

Lemma substring_0_forall (P : ascii → bool) (n : nat) :
  ∀ s, string_forall P s = true → string_forall P (substring 0 n s) = true.
Proof.
  induction n as [|n IH]; intros s Hs; [now destruct s|].
  destruct s as [|c s]; [reflexivity|]. simpl in *.
  apply andb_true_iff in Hs as [Hc Hs]. now rewrite Hc, IH.
Qed.

(** The names the expression of line 9 accepts. *)
Lemma valid_name_spec (filename : string) :
  ServeTemp.valid_name filename = true ↔
  ∃ ds hs, filename = "overlay-" +:+ ds +:+ "-" +:+ hs +:+ ".jpg"
           ∧ ds ≠ "" ∧ string_forall is_digit ds = true
           ∧ String.length hs = 8%nat ∧ string_forall is_hex hs = true.
Proof.
  unfold ServeTemp.valid_name. split.
  - destruct (strip_prefix "overlay-" filename) as [rest|] eqn:Hp; [|discriminate].
    apply strip_prefix_spec in Hp.
    destruct (span is_digit rest) as [ds rest'] eqn:Hs.
    apply span_spec in Hs as (Hrest & Hds & _).
    intros H. apply andb_true_iff in H as [Hne H].
    destruct rest' as [|c tail]; [discriminate|].
    destruct (Ascii.eqb c "-") eqn:Hc.
    2:{ apply Ascii.eqb_neq in Hc. exfalso. revert H.
        destruct c as [[] [] [] [] [] [] [] []]; try discriminate. congruence. }
    apply Ascii.eqb_eq in Hc. subst c.
    apply andb_true_iff in H as [H Hjpg]. apply andb_true_iff in H as [Hlen Hhex].
    apply Nat.eqb_eq in Hlen. apply String.eqb_eq in Hjpg.
    exists ds, (substring 0 8 tail). repeat split.
    + rewrite Hp, Hrest. do 2 f_equal. rewrite append_cons, append_nil_l. f_equal.
      rewrite <- Hjpg. now apply (substring_cut 8 4).
    + intros ->. discriminate.
    + exact Hds.
    + apply substring_0_length. lia.
    + exact Hhex.
  - intros (ds & hs & -> & Hne & Hds & Hlen & Hhex).
    assert (Hp : strip_prefix "overlay-" ("overlay-" +:+ ds +:+ "-" +:+ hs +:+ ".jpg")
                 = Some (ds +:+ "-" +:+ hs +:+ ".jpg")) by now apply strip_prefix_spec.
    rewrite Hp. change ("-" +:+ hs +:+ ".jpg") with (String "-" (hs +:+ ".jpg")).
    rewrite (span_append is_digit ds "-" (hs +:+ ".jpg") Hds eq_refl).
    apply andb_true_iff. split.
    + destruct ds; [congruence | reflexivity].
    + rewrite length_append, Hlen. cbn [String.length Nat.add Nat.eqb andb].
      rewrite <- Hlen at 1. rewrite substring_0_append, Hhex.
      rewrite <- Hlen, substring_skip_append. reflexivity.
Qed.

(** ** Serving temporary files *)

Lemma split_on_no_sep (sep : ascii) (s : string) :
  string_forall (is_not sep) s = true → split_on sep s = [s].
Proof.
  induction s as [|c s IH]; [reflexivity|]. simpl. unfold is_not at 1.
  intros H. apply andb_true_iff in H as [Hc Hs]. apply negb_true_iff in Hc.
  now rewrite Hc, (IH Hs).
Qed.

Lemma split_on_nonempty (sep : ascii) (s : string) : split_on sep s ≠ [].
Proof. destruct s as [|c s]; simpl; [discriminate|]. repeat case_match; discriminate. Qed.

Lemma split_on_append (sep : ascii) (a b : string) :
  ∃ w ws, split_on sep (a +:+ String sep b) = (w :: ws) ++ split_on sep b.
Proof.
  induction a as [|c a (w & ws & IH)].
  - exists "", []. rewrite append_nil_l. simpl. now rewrite Ascii.eqb_refl.
  - rewrite append_cons. simpl. rewrite IH. destruct (Ascii.eqb c sep).
    + now exists "", (w :: ws).
    + now exists (String c w), ws.
Qed.

Lemma List_last_app {A} (l1 l2 : list A) (d : A) :
  l2 ≠ [] → List.last (l1 ++ l2) d = List.last l2 d.
Proof.
  intros Hne. induction l1 as [|x l1 IH]; [reflexivity|].
  simpl. rewrite IH. destruct (l1 ++ l2) eqn:E; [|reflexivity].
  apply app_eq_nil in E as [_ ->]. congruence.
Qed.

(** The last segment of a path that ends in a name without a slash. *)
Lemma last_segment (sep : ascii) (dir name : string) :
  string_forall (is_not sep) name = true →
  List.last (split_on sep (dir +:+ String sep name)) "" = name.
Proof.
  intros Hname. destruct (split_on_append sep dir name) as (w & ws & ->).
  rewrite List_last_app by apply split_on_nonempty.
  now rewrite split_on_no_sep.
Qed.

Lemma temp_path_valid (filename : string) :
  ServeTemp.valid_name filename = true → temp_path ("/tmp/" +:+ filename).
Proof.
  intros H. apply valid_name_spec in H as (ds & hs & -> & H).
  now exists ds, hs.
Qed.

(** X14: [serve-temp] answers 200 only for a path whose last segment has the
    form [overlay-<digits>-<8 hex digits>.jpg]; the file it read is the one
    of that name in [/tmp], and the body is the content read.  A name of
    another form is answered 400 whatever the file system holds. *)
Theorem serve_temp_reads_named_file (fs : ServeTemp.Fs) (event : ServeTemp.Event) :
  (statusCode (ServeTemp.handler fs event) = 200%Z →
   ∃ p ds hs bytes,
     ServeTemp.path event = Some p
     ∧ List.last (split_on "/" p) "" = "overlay-" +:+ ds +:+ "-" +:+ hs +:+ ".jpg"
     ∧ ds ≠ "" ∧ string_forall is_digit ds = true
     ∧ String.length hs = 8%nat ∧ string_forall is_hex hs = true
     ∧ ServeTemp.readFile fs ("/tmp/overlay-" +:+ ds +:+ "-" +:+ hs +:+ ".jpg") = Ok bytes
     ∧ responseBody (ServeTemp.handler fs event) = Base64Image bytes)
  ∧ (∀ p, ServeTemp.path event = Some p →
          ServeTemp.valid_name (List.last (split_on "/" p) "") = false →
          statusCode (ServeTemp.handler fs event) = 400%Z).
Proof.
  unfold ServeTemp.handler. destruct (ServeTemp.path event) as [p|]; [|split; [discriminate|]].
  2:{ intros p [=]. }
  split.
  - destruct (String.eqb (List.last (split_on "/" p) "") "") eqn:He; [discriminate|].
    destruct (ServeTemp.valid_name (List.last (split_on "/" p) "")) eqn:Hv; [|discriminate].
    cbn [orb negb].
    apply valid_name_spec in Hv as (ds & hs & Hname & Hne & Hds & Hlen & Hhex).
    rewrite Hname.
    change ("/tmp/" +:+ "overlay-" +:+ ds +:+ "-" +:+ hs +:+ ".jpg")
      with ("/tmp/overlay-" +:+ ds +:+ "-" +:+ hs +:+ ".jpg").
    destruct (ServeTemp.access fs _); [|discriminate].
    destruct (ServeTemp.readFile fs _) as [bytes|] eqn:Hr; [|discriminate].
    intros _. exists p, ds, hs, bytes. now repeat split.
  - intros p' [= <-] Hv. rewrite Hv, orb_true_r. reflexivity.
Qed.

(** X15: [serve-temp] depends on the file system only through the files
    [/tmp/overlay-<digits>-<8 hex digits>.jpg]: two file systems that agree
    on these give the same response to every event, so no path of a request
    reaches a file outside [/tmp] or of another name. *)
Theorem serve_temp_confined (fs fs' : ServeTemp.Fs) (event : ServeTemp.Event) :
  (∀ p, temp_path p →
        ServeTemp.access fs p = ServeTemp.access fs' p
        ∧ ServeTemp.readFile fs p = ServeTemp.readFile fs' p) →
  ServeTemp.handler fs event = ServeTemp.handler fs' event.
Proof.
  intros Hagree. unfold ServeTemp.handler.
  destruct (ServeTemp.path event) as [p|]; [|reflexivity].
  destruct (String.eqb (List.last (split_on "/" p) "") ""); [reflexivity|].
  destruct (ServeTemp.valid_name (List.last (split_on "/" p) "")) eqn:Hv; [|reflexivity].
  cbn [orb negb]. destruct (Hagree _ (temp_path_valid _ Hv)) as [-> ->]. reflexivity.
Qed.

Lemma serve_temp_confined_witness :
  ServeTemp.handler (one_file "/etc/passwd" []) (ServeTemp.MkEvent (Some "/serve-temp/../../etc/passwd"))
  = ServeTemp.handler (fs_of ∅) (ServeTemp.MkEvent (Some "/serve-temp/../../etc/passwd")).
Proof.
  apply serve_temp_confined. intros p (ds & hs & -> & _). unfold one_file, fs_of.
  cbn [ServeTemp.access ServeTemp.readFile].
  rewrite lookup_singleton_ne by discriminate. now rewrite lookup_empty.
Defined.

Lemma digit_not_slash (c : ascii) : is_digit c = true → is_not "/" c = true.
Proof. destruct c as [[] [] [] [] [] [] [] []]; vm_compute; congruence. Qed.

Lemma hex_not_slash (c : ascii) : is_hex c = true → is_not "/" c = true.
Proof. destruct c as [[] [] [] [] [] [] [] []]; vm_compute; congruence. Qed.

Lemma temp_filename_valid (md5_hex : Buffer → string) (now : Z) (b : Buffer) :
  (0 <= now)%Z → (8 <= String.length (md5_hex b))%nat →
  string_forall is_hex (md5_hex b) = true →
  ServeTemp.valid_name (temp_filename md5_hex now b) = true
  ∧ string_forall (is_not "/") (temp_filename md5_hex now b) = true.
Proof.
  intros Hnow Hlen Hhex. destruct (pretty_time_digits now Hnow) as [Hds Hne].
  pose proof (substring_0_forall is_hex 8 _ Hhex) as Hhex8.
  unfold temp_filename, imageId. rewrite !append_assoc. split.
  - apply valid_name_spec. exists (pretty now), (substring 0 8 (md5_hex b)).
    repeat split; try assumption. now apply substring_0_length.
  - rewrite !string_forall_append.
    rewrite (string_forall_impl _ _ _ digit_not_slash Hds).
    rewrite (string_forall_impl _ _ _ hex_not_slash Hhex8). reflexivity.
Qed.

(** X16: a rendered image written to [/tmp] under the name
    [overlay-<timestamp>-<hash>.jpg] is served back by [serve-temp] at the
    path of the URL the render returned: the name passes the check of
    [serve-temp], and the response is 200 with the bytes that were written
    and their length, whatever files were there before.  The time is not
    negative and the digest is at least 8 hexadecimal digits. *)
Theorem temp_store_then_serve (md5_hex : Buffer → string) (now : Z) (outputBuffer : Buffer)
    (files : gmap string Buffer) :
  (0 <= now)%Z → (8 <= String.length (md5_hex outputBuffer))%nat →
  string_forall is_hex (md5_hex outputBuffer) = true →
  ServeTemp.valid_name (temp_filename md5_hex now outputBuffer) = true
  ∧ ServeTemp.handler (fs_of (temp_store md5_hex now outputBuffer files).2)
      (ServeTemp.MkEvent (Some (temp_store md5_hex now outputBuffer files).1))
    = MkResponse 200
        [("Content-Type", "image/jpeg");
         ("Cache-Control", "public, max-age=3600");
         ("Content-Length", pretty (length outputBuffer))]
        (Base64Image outputBuffer) true.
Proof.
  intros Hnow Hlen Hhex.
  destruct (temp_filename_valid md5_hex now outputBuffer Hnow Hlen Hhex) as [Hv Hs].
  split; [exact Hv|].
  unfold temp_store, ServeTemp.handler. cbn [fst snd ServeTemp.path].
  change ("/.netlify/functions/serve-temp/" +:+ temp_filename md5_hex now outputBuffer)
    with ("/.netlify/functions/serve-temp" +:+ String "/" (temp_filename md5_hex now outputBuffer)).
  rewrite (last_segment "/" _ _ Hs), Hv.
  assert (He : String.eqb (temp_filename md5_hex now outputBuffer) "" = false) by reflexivity.
  rewrite He. cbn [orb negb fs_of ServeTemp.access ServeTemp.readFile].
  rewrite lookup_insert_eq. reflexivity.
Qed.

Lemma temp_store_then_serve_witness :
  ServeTemp.handler (fs_of (temp_store constant_hash 1700000000000 [] ∅).2)
    (ServeTemp.MkEvent (Some (temp_store constant_hash 1700000000000 [] ∅).1))
  = MkResponse 200
      [("Content-Type", "image/jpeg");
       ("Cache-Control", "public, max-age=3600");
       ("Content-Length", "0")]
      (Base64Image []) true.
Proof.
  apply (temp_store_then_serve constant_hash 1700000000000 [] ∅); [lia | simpl; lia | reflexivity].
Defined.

(** ** Cleaning the temporary files *)

Lemma starts_with_append (p r : string) : starts_with p (p +:+ r) = true.
Proof.
  unfold starts_with.
  now rewrite (proj2 (strip_prefix_spec p (p +:+ r) r) eq_refl).
Qed.

Lemma ends_with_append (q a : string) : ends_with q (a +:+ q) = true.
Proof.
  unfold ends_with. rewrite length_append. apply andb_true_iff. split.
  - apply Nat.leb_le. lia.
  - rewrite Nat.add_sub, substring_skip_append, substring_0_all. apply String.eqb_refl.
Qed.

(** What [serve-temp] serves, the clean-up considers. *)
Lemma valid_overlay_file (file : string) :
  ServeTemp.valid_name file = true → Cleanup.overlay_file file = true.
Proof.
  intros H. apply valid_name_spec in H as (ds & hs & -> & _).
  unfold Cleanup.overlay_file. rewrite starts_with_append.
  rewrite <- !append_assoc. now rewrite ends_with_append.
Qed.

Lemma removable_dec (fs : Cleanup.Fs) (now : Z) (file : string) :
  Cleanup.removable fs now file ∨ ¬ Cleanup.removable fs now file.
Proof.
  unfold Cleanup.removable.
  destruct (Cleanup.stat_mtime fs ("/tmp/" +:+ file)) as [mtime|e] eqn:Hs.
  2:{ right. intros (m & [=] & _). }
  destruct (Z.ltb_spec Cleanup.maxAge (now - mtime)) as [Hage|Hage].
  2:{ right. intros (m & [= <-] & Hlt & _). lia. }
  destruct (Cleanup.unlink fs ("/tmp/" +:+ file)) as [[]|e] eqn:Hu.
  - left. now exists mtime.
  - right. intros (m & _ & _ & [=]).
Qed.

Lemma process_removable (fs : Cleanup.Fs) (now : Z) (st : nat * list string) (file : string) :
  Cleanup.removable fs now file →
  Cleanup.process fs now st file = (S st.1, st.2 ++ ["/tmp/" +:+ file]).
Proof.
  intros (mtime & Hs & Hage & Hu). unfold Cleanup.process. rewrite Hs, Hu.
  now rewrite (proj2 (Z.ltb_lt _ _) Hage).
Qed.

Lemma process_kept (fs : Cleanup.Fs) (now : Z) (st : nat * list string) (file : string) :
  ¬ Cleanup.removable fs now file → Cleanup.process fs now st file = st.
Proof.
  intros Hno. unfold Cleanup.process.
  destruct (Cleanup.stat_mtime fs ("/tmp/" +:+ file)) as [mtime|e] eqn:Hs; [|reflexivity].
  destruct (Z.ltb_spec Cleanup.maxAge (now - mtime)) as [Hage|Hage]; [|reflexivity].
  destruct (Cleanup.unlink fs ("/tmp/" +:+ file)) as [[]|e] eqn:Hu; [|reflexivity].
  destruct Hno. now exists mtime.
Qed.

(** The loop: the count grows by the number of removable files, whose
    paths are logged in order. *)
Lemma process_fold (fs : Cleanup.Fs) (now : Z) (l : list string) :
  ∀ n log, ∃ D,
    foldl (Cleanup.process fs now) (n, log) l
    = ((n + length D)%nat, log ++ ((fun file => "/tmp/" +:+ file) <$> D))
    ∧ (length D <= length l)%nat
    ∧ ∀ file, file ∈ D ↔ file ∈ l ∧ Cleanup.removable fs now file.
Proof.
  induction l as [|f l IH]; intros n log.
  - exists []. simpl. rewrite Nat.add_0_r, app_nil_r.
    split; [reflexivity | split; [lia|]].
    intros file. rewrite !elem_of_nil. tauto.
  - simpl. destruct (removable_dec fs now f) as [Hf|Hf].
    + rewrite (process_removable fs now (n, log) f Hf). cbn [fst snd].
      destruct (IH (S n) (log ++ ["/tmp/" +:+ f])) as (D & -> & Hlen & HD).
      exists (f :: D). split; [|split].
      * simpl. rewrite <- app_assoc. f_equal. lia.
      * simpl. lia.
      * intros file. rewrite !elem_of_cons, HD. split.
        -- intros [-> | [H1 H2]]; [now split; [left|] | now split; [right|]].
        -- intros [[-> | H1] H2]; [now left | now right].
    + rewrite (process_kept fs now (n, log) f Hf).
      destruct (IH n log) as (D & -> & Hlen & HD).
      exists D. split; [reflexivity | split; [simpl; lia|]].
      intros file. rewrite elem_of_cons, HD. split.
      * intros [H1 H2]. now split; [right|].
      * intros [[-> | H1] H2]; [contradiction | now split].
Qed.

Lemma cleanup_run (fs : Cleanup.Fs) (now : Z) (files : list string) :
  Cleanup.readdir fs "/tmp" = Ok files →
  let total := length (filter (fun file => Cleanup.overlay_file file = true) files) in
  ∃ D,
    Cleanup.handler fs now
    = (Cleanup.MkResponse 200 json_header
         (Cleanup.Success (Cleanup.report (length D) total) (length D) total),
       (fun file => "/tmp/" +:+ file) <$> D)
    ∧ (length D <= total)%nat
    ∧ ∀ file, file ∈ D ↔
        file ∈ files ∧ Cleanup.overlay_file file = true ∧ Cleanup.removable fs now file.
Proof.
  intros Hdir total. unfold Cleanup.handler. rewrite Hdir.
  destruct (process_fold fs now
              (filter (fun file => Cleanup.overlay_file file = true) files) 0 [])
    as (D & -> & Hlen & HD).
  exists D. split; [reflexivity | split; [exact Hlen|]].
  intros file. rewrite HD, list_elem_of_filter. tauto.
Qed.

(** X17: when the directory can be read the clean-up answers 200, and the
    paths it unlinked are exactly [/tmp/<file>] for the files of the
    directory whose name starts with [overlay-] and ends with [.jpg], whose
    modification time is more than 24 hours (86400000 ms) before now, and
    for which [stat] and [unlink] both returned.  [deletedCount] is the
    number of these paths and is at most [totalCount], the number of files
    with such a name. *)
Theorem cleanup_unlinks_expired (fs : Cleanup.Fs) (now : Z) (files : list string) :
  Cleanup.readdir fs "/tmp" = Ok files →
  let out := Cleanup.handler fs now in
  let total := length (filter (fun file => Cleanup.overlay_file file = true) files) in
  Cleanup.statusCode out.1 = 200%Z
  ∧ Cleanup.responseBody out.1
    = Cleanup.Success (Cleanup.report (length out.2) total) (length out.2) total
  ∧ (length out.2 <= total <= length files)%nat
  ∧ ∀ p, p ∈ out.2 ↔
      ∃ file mtime,
        p = "/tmp/" +:+ file ∧ file ∈ files
        ∧ starts_with "overlay-" file = true ∧ ends_with ".jpg" file = true
        ∧ Cleanup.stat_mtime fs p = Ok mtime
        ∧ (86400000 < now - mtime)%Z
        ∧ Cleanup.unlink fs p = Ok ().
Proof.
  intros Hdir out total. subst out.
  destruct (cleanup_run fs now files Hdir) as (D & -> & Hlen & HD). fold total in Hlen.
  cbn [fst snd Cleanup.statusCode Cleanup.responseBody]. rewrite length_fmap.
  split; [reflexivity | split; [reflexivity | split]].
  - split; [exact Hlen|]. apply length_filter.
  - intros p. rewrite list_elem_of_fmap. split.
    + intros (file & -> & Hin). apply HD in Hin as (Hin & Hname & mtime & Hs & Hage & Hu).
      apply andb_true_iff in Hname as [Hpre Hsuf].
      exists file, mtime. now repeat split.
    + intros (file & mtime & -> & Hin & Hpre & Hsuf & Hs & Hage & Hu).
      exists file. split; [reflexivity|]. apply HD. split; [exact Hin|]. split.
      * unfold Cleanup.overlay_file. now rewrite Hpre, Hsuf.
      * now exists mtime.
Qed.

Lemma cleanup_unlinks_expired_witness :
  Cleanup.statusCode
    (Cleanup.handler (dir_of ["overlay-1-0123abcd.jpg"; "notes.txt"; "overlay-.jpg"] 0) 86400001).1
  = 200%Z.
Proof.
  exact (proj1 (cleanup_unlinks_expired
                  (dir_of ["overlay-1-0123abcd.jpg"; "notes.txt"; "overlay-.jpg"] 0)
                  86400001 _ eq_refl)).
Defined.

(** X18: a render stored in [/tmp] at time [t] under its generated name is
    within reach of the clean-up: if the directory lists it with
    modification time [t], a clean-up later than [t] by more than 24 hours
    unlinks it when [unlink] returns, and a clean-up at most 24 hours
    later leaves it.  The time is not negative and the digest is at least
    8 hexadecimal digits. *)
Theorem stored_render_is_cleaned (md5_hex : Buffer → string) (t : Z) (outputBuffer : Buffer)
    (fs : Cleanup.Fs) (now : Z) (files : list string) :
  (0 <= t)%Z → (8 <= String.length (md5_hex outputBuffer))%nat →
  string_forall is_hex (md5_hex outputBuffer) = true →
  Cleanup.readdir fs "/tmp" = Ok files →
  temp_filename md5_hex t outputBuffer ∈ files →
  Cleanup.stat_mtime fs ("/tmp/" +:+ temp_filename md5_hex t outputBuffer) = Ok t →
  let tempPath := "/tmp/" +:+ temp_filename md5_hex t outputBuffer in
  ((86400000 < now - t)%Z → Cleanup.unlink fs tempPath = Ok () →
   tempPath ∈ (Cleanup.handler fs now).2)
  ∧ ((now - t <= 86400000)%Z → tempPath ∉ (Cleanup.handler fs now).2).
Proof.
  intros Ht Hlen Hhex Hdir Hin Hs tempPath. subst tempPath.
  destruct (temp_filename_valid md5_hex t outputBuffer Ht Hlen Hhex) as [Hv _].
  apply valid_overlay_file in Hv.
  destruct (cleanup_run fs now files Hdir) as (D & -> & _ & HD). cbn [snd].
  split.
  - intros Hage Hu. apply list_elem_of_fmap. eexists. split; [reflexivity|].
    apply HD. split; [exact Hin | split; [exact Hv|]]. now exists t.
  - intros Hage Hp. apply list_elem_of_fmap in Hp as (file & Hfile & HfD).
    assert (file = temp_filename md5_hex t outputBuffer) as ->.
    { change ("/tmp/" +:+ ?x) with (String "/" (String "t" (String "m" (String "p" (String "/" x))))) in Hfile.
      now injection Hfile. }
    apply HD in HfD as (_ & _ & mtime & Hs' & Hlt & _).
    rewrite Hs in Hs'. injection Hs' as <-. unfold Cleanup.maxAge in Hlt. lia.
Qed.

Lemma stored_render_is_cleaned_witness :
  "/tmp/" +:+ temp_filename constant_hash 1000 []
  ∈ (Cleanup.handler (dir_of [temp_filename constant_hash 1000 []] 1000) 86401001).2.
Proof.
  refine (proj1 (stored_render_is_cleaned constant_hash 1000 []
                   (dir_of [temp_filename constant_hash 1000 []] 1000) 86401001
                   [temp_filename constant_hash 1000 []] _ _ _ eq_refl _ eq_refl) _ eq_refl).
  - lia.
  - simpl. lia.
  - reflexivity.
  - apply list_elem_of_singleton. reflexivity.
  - lia.
Defined.

(** A directory that cannot be read: 500, and nothing is unlinked.  A name
    that the clean-up removes although [serve-temp] never serves it. *)
Example cleanup_samples :
  Cleanup.handler no_dir 0
  = (Cleanup.MkResponse 500 json_header
       (Cleanup.Failure "Cleanup failed" "ENOENT: no such file or directory, scandir '/tmp'"), [])
  ∧ (Cleanup.handler (dir_of ["overlay-1-0123abcd.jpg"; "notes.txt"; "overlay-.jpg"] 0) 86400001).2
    = ["/tmp/overlay-1-0123abcd.jpg"; "/tmp/overlay-.jpg"]
  ∧ (Cleanup.handler (dir_of ["overlay-1-0123abcd.jpg"] 1) 86400001).2 = []
  ∧ ServeTemp.valid_name "overlay-.jpg" = false.
Proof. now repeat split. Qed.

(** ** Serving a stored image *)

Lemma requested_id_jpg (s : string) :
  Image.requested_id (Image.request (s +:+ ".jpg")) = Some s.
Proof.
  unfold Image.requested_id, Image.request.
  cbn [Image.queryStringParameters default from_option]. unfold Datatypes.id.
  rewrite lookup_singleton_eq, ends_with_append.
  assert (He : String.eqb (s +:+ ".jpg") "" = false).
  { apply String.eqb_neq. intros E. apply (f_equal String.length) in E.
    rewrite length_append in E. simpl in E. lia. }
  rewrite He. cbn [negb andb]. rewrite length_append.
  change (String.length ".jpg") with 4%nat. rewrite Nat.add_sub.
  now rewrite substring_0_append.
Qed.

Lemma requested_id_plain (s : string) :
  ends_with ".jpg" s = false → Image.requested_id (Image.request s) = Some s.
Proof.
  intros Hs. unfold Image.requested_id, Image.request.
  cbn [Image.queryStringParameters default from_option]. unfold Datatypes.id.
  rewrite lookup_singleton_eq, Hs. now rewrite andb_false_r.
Qed.

(** X19: the extension of the id is optional and is removed once: for an
    id that does not end in [.jpg], the request for the id followed by
    [.jpg] gets the response of the request for the id itself, in every
    environment; the id that is only [.jpg] is a missing id (400), also
    when the store is not configured. *)
Theorem image_extension_optional (env : Image.Env) (id : string) :
  ends_with ".jpg" id = false →
  Image.handler env (Image.request (id +:+ ".jpg")) = Image.handler env (Image.request id)
  ∧ Image.handler env (Image.request ".jpg") = Image.missing_id.
Proof.
  intros Hid. split.
  - unfold Image.handler, Image.serve.
    rewrite requested_id_jpg, (requested_id_plain id Hid). reflexivity.
  - unfold Image.handler, Image.serve.
    change (Image.request ".jpg") with (Image.request ("" +:+ ".jpg")).
    rewrite requested_id_jpg. reflexivity.
Qed.

Lemma image_extension_optional_witness :
  Image.handler (blobs_env {[ "overlays/17-0123abcd.jpg" := [] ]}) (Image.request "17-0123abcd.jpg")
  = Image.handler (blobs_env {[ "overlays/17-0123abcd.jpg" := [] ]}) (Image.request "17-0123abcd").
Proof.
  exact (proj1 (image_extension_optional
                  (blobs_env {[ "overlays/17-0123abcd.jpg" := [] ]}) "17-0123abcd" eq_refl)).
Defined.

(** X20: image bytes come from the store only: a response with a base64
    body is the 200 response for the content the store returned for the
    key [overlays/<id>.jpg], where the id is the one requested and is not
    empty; a 404 is given only when the store returned [null] for that
    key; every status is 200, 400, 404 or 500; and when the site id or the
    token is missing or empty no response is a 404 or carries image
    bytes. *)
Theorem image_served_from_blob (env : Image.Env) (event : Image.Event) :
  (∀ bytes, Image.responseBody (Image.handler env event) = Image.Base64 bytes →
     ∃ id store,
       Image.requested_id event = Some id ∧ id ≠ ""
       ∧ Image.getBlobStore env = Ok store
       ∧ Image.get store ("overlays/" +:+ id +:+ ".jpg") = Ok (Some bytes)
       ∧ Image.handler env event = Image.found bytes)
  ∧ (Image.statusCode (Image.handler env event) = 404%Z →
     ∃ id store,
       Image.requested_id event = Some id ∧ id ≠ ""
       ∧ Image.getBlobStore env = Ok store
       ∧ Image.get store ("overlays/" +:+ id +:+ ".jpg") = Ok None)
  ∧ Image.statusCode (Image.handler env event) ∈ [200%Z; 400%Z; 404%Z; 500%Z]
  ∧ (truthy (Image.BLOB_SITE_ID env) = false ∨ truthy (Image.NETLIFY_BLOBS_TOKEN env) = false →
     Image.statusCode (Image.handler env event) ≠ 404%Z
     ∧ ∀ bytes, Image.responseBody (Image.handler env event) ≠ Image.Base64 bytes).
Proof.
  assert (Hconf : truthy (Image.BLOB_SITE_ID env) = false
                  ∨ truthy (Image.NETLIFY_BLOBS_TOKEN env) = false →
                  ∃ e, Image.getBlobStore env = Throw e).
  { intros H. unfold Image.getBlobStore. destruct H as [-> | ->].
    - eexists. reflexivity.
    - rewrite orb_true_r. eexists. reflexivity. }
  assert (Hin : ∀ z : Z, z = 200%Z ∨ z = 400%Z ∨ z = 404%Z ∨ z = 500%Z →
                 z ∈ [200%Z; 400%Z; 404%Z; 500%Z]) by (intros z; rewrite !elem_of_cons; tauto).
  unfold Image.handler, Image.serve.
  destruct (bool_decide (Image.httpMethod event = Some "OPTIONS")).
  { cbn. repeat split; try discriminate; try (intros; discriminate). apply Hin; tauto. }
  destruct (Image.requested_id event) as [id|].
  2:{ cbn. repeat split; try discriminate; try (intros; discriminate). apply Hin; tauto. }
  destruct (String.eqb_spec id "") as [->|Hid].
  { cbn. repeat split; try discriminate; try (intros; discriminate). apply Hin; tauto. }
  destruct (Image.getBlobStore env) as [store|e] eqn:Hstore.
  2:{ cbn. repeat split; try discriminate; try (intros; discriminate). apply Hin; tauto. }
  cbn [mbind result_bind].
  destruct (Image.get store ("overlays/" +:+ id +:+ ".jpg")) as [[data|]|e] eqn:Hget.
  - cbn. split; [|split; [discriminate | split; [apply Hin; tauto|]]].
    + intros bytes [= <-]. now exists id, store.
    + intros H. destruct (Hconf H) as [e [=]].
  - cbn. split; [discriminate | split; [|split; [apply Hin; tauto|]]].
    + intros _. now exists id, store.
    + intros H. destruct (Hconf H) as [e [=]].
  - cbn. repeat split; try discriminate; try (intros; discriminate). apply Hin; tauto.
Qed.

Example image_samples :
  Image.handler (blobs_env {[ "overlays/17-0123abcd.jpg" := [] ]}) (Image.request "17-0123abcd.jpg")
  = Image.found []
  ∧ Image.handler (blobs_env ∅) (Image.request "17-0123abcd")
    = Image.not_found "overlays/17-0123abcd.jpg"
  ∧ Image.handler unconfigured (Image.request "17-0123abcd")
    = Image.failed (Error "Blob storage not configured. BLOB_SITE_ID: false, BLOB_TOKEN: false")
  ∧ Image.handler unconfigured (Image.MkEvent (Some "GET") None) = Image.missing_id
  ∧ Image.handler unconfigured (Image.MkEvent (Some "OPTIONS") None) = Image.preflight
  ∧ Image.handler (blobs_env {[ "overlays/a.jpg.jpg" := [] ]}) (Image.request "a.jpg")
    = Image.not_found "overlays/a.jpg".
Proof. now repeat split. Qed.

(** ** Drawing the text *)

Ltac cases_N :=
  repeat match goal with
         | |- context [N.leb ?a ?b] => destruct (N.leb_spec a b)
         | |- context [N.eqb ?a ?b] => destruct (N.eqb_spec a b)
         | H : context [N.leb ?a ?b] |- _ => destruct (N.leb_spec a b)
         | H : context [N.eqb ?a ?b] |- _ => destruct (N.eqb_spec a b)
         end.

Lemma control_not_printable (c : N) : control c = true → printable c = false.
Proof. unfold control, printable. cases_N; simpl; intros; (congruence || lia). Qed.

Lemma remove_matches_all (class : N → bool) (s : list N) :
  Forall (fun c => class c = false) s → remove_matches class s = s.
Proof.
  induction 1 as [|c s Hc _ IH]; [reflexivity|].
  unfold remove_matches in *. simpl. now rewrite Hc, IH.
Qed.

Lemma remove_matches_Forall (class : N → bool) (s : list N) :
  Forall (fun c => class c = false) (remove_matches class s).
Proof.
  induction s as [|c s IH]; [constructor|]. unfold remove_matches in *. simpl.
  destruct (class c) eqn:Hc; simpl; [exact IH | now constructor].
Qed.

Lemma drop_while_Forall (P : N → bool) (Q : N → Prop) (s : list N) :
  Forall Q s → Forall Q (drop_while P s).
Proof.
  induction 1 as [|c s Hc Hs IH]; [constructor|]. simpl.
  destruct (P c); [exact IH | now constructor].
Qed.

Lemma drop_while_head (P : N → bool) (s : list N) :
  match drop_while P s with [] => True | c :: _ => P c = false end.
Proof.
  induction s as [|c s IH]; [exact I|]. simpl. destruct (P c) eqn:Hc; [exact IH | exact Hc].
Qed.

Lemma drop_while_keeps_last (P : N → bool) (x : N) (s : list N) :
  P x = false → ∃ s', drop_while P (s ++ [x]) = s' ++ [x].
Proof.
  intros Hx. induction s as [|c s [s' IH]].
  - exists []. simpl. now rewrite Hx.
  - simpl. destruct (P c); [now exists s' | now exists (c :: s)].
Qed.

Lemma trim_Forall (Q : N → Prop) (s : list N) : Forall Q s → Forall Q (trim s).
Proof.
  intros H. unfold trim. apply Forall_rev, drop_while_Forall, Forall_rev.
  now apply drop_while_Forall.
Qed.

Lemma drop_while_id (P : N → bool) (s : list N) :
  match s with [] => True | c :: _ => P c = false end → drop_while P s = s.
Proof. destruct s as [|c s]; [reflexivity|]. simpl. now intros ->. Qed.

(** The shape of a trimmed string: empty, or a first character that is
    not white space followed by a reversed list whose first character,
    the last of the string, is not white space either. *)
Lemma trim_shape (s : list N) :
  trim s = []
  ∨ ∃ x b, trim s = x :: rev b ∧ white_space x = false
           ∧ match b ++ [x] with [] => True | c :: _ => white_space c = false end.
Proof.
  unfold trim. pose proof (drop_while_head white_space s) as Ha.
  destruct (drop_while white_space s) as [|x a]; [now left|]. right.
  simpl rev. pose proof (drop_while_head white_space (rev a ++ [x])) as Hb.
  destruct (drop_while_keeps_last white_space x (rev a) Ha) as [b Hb'].
  rewrite Hb' in Hb |- *. exists x, b. rewrite rev_app_distr. now repeat split.
Qed.

Lemma trim_idempotent (s : list N) : trim (trim s) = trim s.
Proof.
  destruct (trim_shape s) as [-> | (x & b & -> & Hx & Hb)]; [reflexivity|].
  unfold trim. simpl drop_while. rewrite Hx. simpl rev. rewrite rev_involutive.
  rewrite (drop_while_id white_space (b ++ [x]) Hb), rev_app_distr. reflexivity.
Qed.

Lemma trim_ends (s : list N) :
  trim s = []
  ∨ (∃ x t, trim s = x :: t ∧ white_space x = false)
    ∧ (∃ y t, trim s = t ++ [y] ∧ white_space y = false).
Proof.
  destruct (trim_shape s) as [-> | (x & b & -> & Hx & Hb)]; [now left|]. right. split.
  - now exists x, (rev b).
  - destruct (b ++ [x]) as [|c t] eqn:E; [now destruct b|].
    exists c, (rev t). split; [|exact Hb].
    change (x :: rev b) with (rev [x] ++ rev b). rewrite <- rev_app_distr, E. reflexivity.
Qed.

Lemma printable_range (c : N) :
  printable c = true ↔ (32 <= c <= 126 ∨ 160 <= c <= 65535)%N.
Proof. unfold printable. cases_N; simpl; split; intros; (congruence || lia). Qed.

Lemma cleanedLine_printable (line : list N) : Forall (fun c => printable c = true) (cleanedLine line).
Proof.
  unfold cleanedLine. apply trim_Forall.
  eapply List.Forall_impl; [|apply remove_matches_Forall].
  intros c Hc. simpl in Hc. now apply negb_false_iff in Hc.
Qed.

(** X22: the text that is drawn.  It holds only code units of
    [0x20-0x7E] and [0xA0-0xFFFF] and neither starts nor ends with white
    space; the first replacement changes nothing that the second would
    not remove (the result is that of the second replacement and the trim
    alone); and cleaning a cleaned line gives it back. *)
Theorem cleanedLine_spec (line : list N) :
  Forall (fun c => (32 <= c <= 126 ∨ 160 <= c <= 65535)%N) (cleanedLine line)
  ∧ (cleanedLine line = []
     ∨ (∃ x t, cleanedLine line = x :: t ∧ white_space x = false)
       ∧ (∃ y t, cleanedLine line = t ++ [y] ∧ white_space y = false))
  ∧ cleanedLine line = trim (remove_matches (fun c => negb (printable c)) line)
  ∧ cleanedLine (cleanedLine line) = cleanedLine line.
Proof.
  split; [|split; [|split]].
  - eapply List.Forall_impl; [|apply cleanedLine_printable].
    intros c Hc. now apply printable_range.
  - apply trim_ends.
  - unfold cleanedLine. f_equal. unfold remove_matches.
    induction line as [|c line IH]; [reflexivity|]. simpl.
    destruct (control c) eqn:Hc; simpl.
    + now rewrite (control_not_printable c Hc).
    + now rewrite IH.
  - pose proof (cleanedLine_printable line) as Hp.
    unfold cleanedLine at 1.
    rewrite (remove_matches_all control).
    2:{ eapply List.Forall_impl; [|exact Hp]. intros c Hc. simpl in Hc.
        destruct (control c) eqn:E; [|reflexivity].
        apply control_not_printable in E. congruence. }
    rewrite remove_matches_all.
    2:{ eapply List.Forall_impl; [|exact Hp]. intros c Hc. simpl in Hc. now rewrite Hc. }
    apply trim_idempotent.
Qed.

Example cleaned_samples :
  cleanedLine (code_units ("  Hello" +:+ String (ascii_of_nat 7) (String (ascii_of_nat 9) "world "
                           +:+ String (ascii_of_nat 130) "")))
  = code_units "Helloworld"
  ∧ svgLine (code_units " Tom & <Jerry's> ") = code_units "Tom &amp; &lt;Jerry&#39;s&gt;".
Proof. now split. Qed.

(** ** Escaping the text of the SVG *)

Lemma escape_cons (c : N) (s : list N) : escape (c :: s) = entity c ++ escape s.
Proof.
  unfold escape, replace_all. cbn [flat_map]. rewrite !flat_map_app. f_equal.
  unfold entity, amp, lt, gt, quot, apos.
  destruct (N.eqb_spec c 38) as [->|H1]; [reflexivity|].
  destruct (N.eqb_spec c 60) as [->|H2]; [reflexivity|].
  destruct (N.eqb_spec c 62) as [->|H3]; [reflexivity|].
  destruct (N.eqb_spec c 34) as [->|H4]; [reflexivity|].
  destruct (N.eqb_spec c 39) as [->|H5]; [reflexivity|].
  apply N.eqb_neq in H2, H3, H4, H5.
  cbn [flat_map app]. rewrite H2. cbn [flat_map app]. rewrite H3.
  cbn [flat_map app]. rewrite H4. cbn [flat_map app]. rewrite H5. reflexivity.
Qed.

Lemma escape_flat_map (s : list N) : escape s = flat_map entity s.
Proof.
  induction s as [|c s IH]; [reflexivity|]. rewrite escape_cons, IH. reflexivity.
Qed.

Lemma entity_cases (c : N) :
  (c = amp ∧ entity c = code_units "&amp;")
  ∨ (c = lt ∧ entity c = code_units "&lt;")
  ∨ (c = gt ∧ entity c = code_units "&gt;")
  ∨ (c = quot ∧ entity c = code_units "&quot;")
  ∨ (c = apos ∧ entity c = code_units "&#39;")
  ∨ (c ≠ amp ∧ markup c = false ∧ entity c = [c]).
Proof.
  unfold entity, markup, amp, lt, gt, quot, apos.
  destruct (N.eqb_spec c 38) as [->|H1]; [tauto|].
  destruct (N.eqb_spec c 60) as [->|H2]; [tauto|].
  destruct (N.eqb_spec c 62) as [->|H3]; [tauto|].
  destruct (N.eqb_spec c 34) as [->|H4]; [tauto|].
  destruct (N.eqb_spec c 39) as [->|H5]; [tauto|].
  do 5 right. now repeat split.
Qed.

Lemma entity_no_markup (c : N) : Forall (fun x => markup x = false) (entity c).
Proof.
  destruct (entity_cases c) as [[_ ->]|[[_ ->]|[[_ ->]|[[_ ->]|[[_ ->]|(_ & H & ->)]]]]];
    try (now repeat constructor).
Qed.

Lemma entity_prefix_free (c c' : N) (r r' : list N) :
  entity c ++ r = entity c' ++ r' → c = c' ∧ r = r'.
Proof.
  destruct (entity_cases c) as [[-> ->]|[[-> ->]|[[-> ->]|[[-> ->]|[[-> ->]|(Hc & _ & ->)]]]]];
  destruct (entity_cases c') as [[-> ->]|[[-> ->]|[[-> ->]|[[-> ->]|[[-> ->]|(Hc' & _ & ->)]]]]];
  repeat match goal with
         | |- context [code_units ?e] =>
             let v := eval vm_compute in (code_units e) in change (code_units e) with v
         end;
  cbn [app]; intros H; try discriminate;
  try (injection H as H; now split);
  try (injection H as H _; unfold amp in *; congruence).
Qed.

(** X23: the five replacements of the fallback escape in one pass: the
    result is the line with each [&], [<], [>], double quote and
    apostrophe replaced by its entity and nothing else changed (the
    ampersands of the entities are not escaped again, as [&] is replaced
    first); it holds no [<], [>], double quote or apostrophe, so the line
    cannot close the [text] element or an attribute; and two lines with the
    same escaped text are equal. *)
Theorem escape_spec (s : list N) :
  escape s = flat_map entity s
  ∧ Forall (fun c => c ≠ lt ∧ c ≠ gt ∧ c ≠ quot ∧ c ≠ apos) (escape s)
  ∧ ∀ s', escape s = escape s' → s = s'.
Proof.
  split; [apply escape_flat_map | split].
  - induction s as [|c s IH]; [constructor|]. rewrite escape_cons.
    apply Forall_app. split; [|exact IH].
    eapply List.Forall_impl; [|apply entity_no_markup].
    intros x Hx. unfold markup in Hx.
    repeat (apply orb_false_iff in Hx as [Hx ?]).
    repeat split; apply N.eqb_neq; assumption.
  - induction s as [|c s IH]; intros [|c' s'].
    + reflexivity.
    + rewrite escape_cons. intros H. symmetry in H. apply app_eq_nil in H as [H _].
      destruct (entity_cases c') as [[_ E]|[[_ E]|[[_ E]|[[_ E]|[[_ E]|(_ & _ & E)]]]]];
        rewrite E in H; discriminate.
    + rewrite escape_cons. intros H. apply app_eq_nil in H as [H _].
      destruct (entity_cases c) as [[_ E]|[[_ E]|[[_ E]|[[_ E]|[[_ E]|(_ & _ & E)]]]]];
        rewrite E in H; discriminate.
    + rewrite !escape_cons. intros H. apply entity_prefix_free in H as [-> H].
      now rewrite (IH s' H).
Qed.

(** ** Where the lines are drawn *)

Lemma yPosition_value (index : nat) :
  (yPosition index == inject_Z (36 * Z.of_nat index + 30))%Q.
Proof.
  unfold yPosition, textTop, padding, fontSize.
  rewrite inject_Z_plus, inject_Z_mult.
  change (inject_Z (10 - 10)) with 0%Q. change (inject_Z 30) with 30%Q.
  change (inject_Z 36) with 36%Q. field.
Qed.

(** X21: line [index] of the text is drawn, from its top, at
    [y = 36 * index + 30] on a canvas whose height is that of the box,
    [32 * lineCount + 18].  This [y] is inside the canvas exactly when
    [9 * index + 3 < 8 * lineCount]; for the last line that is when there
    are at most 5 lines, and [y + fontSize] exceeds the height of the
    canvas for the last line of every text. *)
Theorem text_line_positions (longest : Q) (lineCount : nat) (shiftUp : Z) (index : nat) :
  (index < lineCount)%nat →
  let box := computeBox longest lineCount shiftUp in
  (yPosition index == inject_Z (36 * Z.of_nat index + 30))%Q
  ∧ textCanvasHeight box = (32 * Z.of_nat lineCount + 18)%Z
  ∧ ((yPosition index < inject_Z (textCanvasHeight box))%Q
     ↔ (9 * index + 3 < 8 * lineCount)%nat)
  ∧ ((yPosition (lineCount - 1) < inject_Z (textCanvasHeight box))%Q
     ↔ (lineCount <= 5)%nat)
  ∧ (inject_Z (textCanvasHeight box) < yPosition (lineCount - 1) + inject_Z fontSize)%Q.
Proof.
  intros Hi box.
  assert (Hh : textCanvasHeight box = (32 * Z.of_nat lineCount + 18)%Z).
  { unfold box, textCanvasHeight, computeBox. cbn [boxHeight].
    unfold totalTextHeight, textHeight, fontSize, lineSpacing, padding. lia. }
  split; [apply yPosition_value | split; [exact Hh|]].
  rewrite Hh, !yPosition_value, <- inject_Z_plus, <- !Zlt_Qlt. unfold fontSize.
  repeat split; intros; lia.
Qed.

Lemma text_line_positions_witness :
  (inject_Z (textCanvasHeight (computeBox 165 1 13)) < yPosition 0 + inject_Z fontSize)%Q.
Proof.
  apply (text_line_positions 165 1 13 0). lia.
Defined.
